(** * WinShield: supersedence correlation and catalog candidate resolution

    A shallow embedding of the algorithmic core of
    [winshield_scanner.py] and [winshield_downloader.py], of the
    installer and of the menu, and the properties of it that the design
    document states or that the code shows.

    Conventions of the embedding.
    - A Python [str] is a [string]; text is taken to be ASCII, on which
      Python's [str.lower], [\d], [\s] and [\b] are the functions below.
      The text that the operator types at a prompt of the downloader or
      of the installer is a list of Unicode code points, read with a
      Unicode database that is a parameter.
    - A Python [int] is a [Z].
    - A [set] of identifiers is a [gset string], a [dict] keyed by
      identifiers a [gmap string _]; iterating over a set walks
      [elements].
    - A [dict] read with [.get] is a record whose optional entries are
      [option]s; [None] stands for an absent key and for a JSON null.
    - A [while] loop is a function with a step budget that returns [None]
      when the budget runs out; termination is proved by giving a budget
      that always suffices. *)

From Stdlib Require Import ZArith Ascii String List Bool Lia DecimalString DecimalZ.
From stdpp Require Import gmap strings list fin_maps sorting.

Open Scope Z_scope.

#[local] Set Warnings "-clear-no-such-hyp".

(** ** Python's stable sort *)

Module Py.

Section Sorting.
Context {A : Type} (le : A → A → bool).

(** [x] goes in front of the first element it is [le] to, so it stays
    in front of the elements it ties with. *)
Fixpoint insert_sorted (x : A) (l : list A) : list A :=
  match l with
  | [] => [x]
  | y :: l' => if le x y then x :: l else y :: insert_sorted x l'
  end.

(** [sorted(l)], [l.sort()]: stable. *)
Fixpoint sorted (l : list A) : list A :=
  match l with
  | [] => []
  | x :: l' => insert_sorted x (sorted l')
  end.
End Sorting.

(** [sorted(l)] on strings: the order of [str] is the lexicographic
    order of the characters. *)
Definition sorted_str : list string → list string := sorted String.leb.

(** [str(n)] for an integer *)
Definition str_of_int (n : Z) : string := NilZero.string_of_int (Z.to_int n).

End Py.

(** ** Text primitives *)

Module Text.

Definition code (a : ascii) : N := N_of_ascii a.

Definition between (lo hi : N) (a : ascii) : bool :=
  ((lo <=? code a) && (code a <=? hi))%N.

Definition is_upper : ascii → bool := between 65 90.
Definition is_lower_alpha : ascii → bool := between 97 122.
(** [\d] *)
Definition is_digit : ascii → bool := between 48 57.
(** [\w]: letters, digits and the underscore *)
Definition is_word (a : ascii) : bool :=
  is_upper a || is_lower_alpha a || is_digit a || (code a =? 95)%N.
(** [\s], and the characters removed by [str.strip]: tab, line feed,
    vertical tab, form feed, carriage return, the four separators
    28 to 31, and the space. *)
Definition is_space (a : ascii) : bool :=
  between 9 13 a || between 28 31 a || (code a =? 32)%N.

Definition lower_char (a : ascii) : ascii :=
  if is_upper a then ascii_of_N (code a + 32) else a.

(** [s.lower()] *)
Fixpoint lower (s : string) : string :=
  match s with
  | EmptyString => EmptyString
  | String a r => String (lower_char a) (lower r)
  end.

(** [s.startswith(p)] *)
Fixpoint startswith (p s : string) : bool :=
  match p, s with
  | EmptyString, _ => true
  | String _ _, EmptyString => false
  | String a p', String b s' => Ascii.eqb a b && startswith p' s'
  end.

(** [p in s] *)
Fixpoint contains (p s : string) : bool :=
  startswith p s ||
  match s with
  | EmptyString => false
  | String _ s' => contains p s'
  end.

(** [bool(s)]: a string is truthy when it is not empty. *)
Definition truthy (s : string) : bool :=
  match s with EmptyString => false | String _ _ => true end.

Fixpoint lstrip (s : string) : string :=
  match s with
  | String a r => if is_space a then lstrip r else s
  | EmptyString => EmptyString
  end.

Fixpoint rstrip (s : string) : string :=
  match s with
  | EmptyString => EmptyString
  | String a r =>
      match rstrip r with
      | EmptyString => if is_space a then EmptyString else String a EmptyString
      | r' => String a r'
      end
  end.

(** [s.strip()] *)
Definition strip (s : string) : string := rstrip (lstrip s).

(** [s.split(".", 1)[0]]: the text before the first dot. *)
Fixpoint before_dot (s : string) : string :=
  match s with
  | EmptyString => EmptyString
  | String a r => if Ascii.eqb a "." then EmptyString else String a (before_dot r)
  end.

(** [sep.join(l)] *)
Fixpoint join (sep : string) (l : list string) : string :=
  match l with
  | [] => EmptyString
  | [x] => x
  | x :: r => x +:+ sep +:+ join sep r
  end.

(** [s.ljust(w)], the effect of the format [{s:<w}]. *)
Definition ljust (w : nat) (s : string) : string :=
  s +:+ string_of_list_ascii (repeat " "%char (w - String.length s)).

End Text.

(** ** The two patterns searched in catalog titles *)

Module Pattern.
Import Text.

(** The body of [\b\d{2}h[12]\b] at the head of [s]: two digits, the
    letter h, a 1 or a 2, and then the end of the text or a character
    that is not a word character. *)
Definition year_half_at (s : string) : bool :=
  match s with
  | String d1 (String d2 (String h (String n rest))) =>
      is_digit d1 && is_digit d2 && Ascii.eqb h "h"
      && (Ascii.eqb n "1" || Ascii.eqb n "2")
      && match rest with
         | EmptyString => true
         | String a _ => negb (is_word a)
         end
  | _ => false
  end.

(** [prev_word] tells whether the character before [s] is a word
    character; the leading [\b] asks that it is not. *)
Fixpoint search_year_half_from (prev_word : bool) (s : string) : bool :=
  (negb prev_word && year_half_at s) ||
  match s with
  | EmptyString => false
  | String a r => search_year_half_from (is_word a) r
  end.

(** [re.search(r"\b\d{2}h[12]\b", s)] as a truth value *)
Definition search_year_half (s : string) : bool :=
  search_year_half_from false s.

(** [\(\s*(\d{5})\.] at the head of [s]; the result is group 1. *)
Definition build_at (s : string) : option string :=
  match s with
  | String p r =>
      if Ascii.eqb p "(" then
        match lstrip r with
        | String d1 (String d2 (String d3 (String d4 (String d5 (String dot _))))) =>
            if is_digit d1 && is_digit d2 && is_digit d3 && is_digit d4
               && is_digit d5 && Ascii.eqb dot "."
            then Some (String d1 (String d2 (String d3 (String d4 (String d5 EmptyString)))))
            else None
        | _ => None
        end
      else None
  | EmptyString => None
  end.

(** [re.search(r"\(\s*(\d{5})\.", s)]: the leftmost match. *)
Fixpoint search_build (s : string) : option string :=
  match build_at s with
  | Some g => Some g
  | None =>
      match s with
      | EmptyString => None
      | String _ r => search_build r
      end
  end.

End Pattern.

(** ** winshield_downloader.py *)

Module Downloader.
Import Text Pattern.

Record CatalogCandidate := {
  update_id : string;
  title : string;
  products : string;
  classification : string;
  last_updated : string;
  version : string;
  size : string
}.

Record BaselineConstraints := {
  windows_gen : string;
  display_version : string;
  build_major : string;
  catalog_arch : string
}.

(** The entries of the baseline document that [build_constraints]
    reads. *)
Record Baseline := {
  OsName : option string;
  DisplayVersion : option string;
  Architecture : option string;
  Build : option string
}.

(** [str(x or "")] *)
Definition str_or_empty (x : option string) : string := default "" x.

Definition build_constraints (baseline : Baseline) : BaselineConstraints :=
  let os_name := lower (str_or_empty (OsName baseline)) in
  let display_version := strip (str_or_empty (DisplayVersion baseline)) in
  let arch := lower (str_or_empty (Architecture baseline)) in
  let build := str_or_empty (Build baseline) in
  let build_major := if truthy build then before_dot build else "" in
  let windows_gen :=
    if contains "windows 11" os_name then "windows 11"
    else if contains "windows 10" os_name then "windows 10"
    else "" in
  let catalog_arch :=
    if String.eqb arch "x64" || String.eqb arch "amd64" then "x64"
    else if contains "arm64" arch then "arm64"
    else if String.eqb arch "x86" || String.eqb arch "32-bit" then "x86"
    else "x64" in
  {| windows_gen := windows_gen;
     display_version := display_version;
     build_major := build_major;
     catalog_arch := catalog_arch |}.

(** [any(x in title for x in markers)] *)
Definition any_in (markers : list string) (title : string) : bool :=
  existsb (fun x => contains x title) markers.

(** The display-version and build-number rules, which every path that
    gets past the architecture rule runs with the score it has. *)
Definition score_version_build (title : string) (c : BaselineConstraints)
    (score : Z) : Z :=
  let dv := lower (display_version c) in
  let score :=
    if truthy dv then
      let score := if contains dv title then score + 25 else score in
      if search_year_half title && negb (contains dv title)
      then score - 15 else score
    else score in
  if truthy (build_major c) then
    match search_build title with
    | Some g => if String.eqb g (build_major c) then score + 10 else score - 5
    | None => score
    end
  else score.

Definition score_candidate (candidate : CatalogCandidate) (kb_id : string)
    (c : BaselineConstraints) : Z :=
  let title := lower (title candidate) in
  let score := 0 in
  if negb (contains (lower kb_id) title) then -10000 else
  let score := score + 50 in
  let score :=
    if truthy (windows_gen c) && contains (windows_gen c) title
    then score + 40 else score in
  if truthy (windows_gen c) && String.eqb (windows_gen c) "windows 10"
     && contains "windows 11" title then -10000 else
  if truthy (windows_gen c) && String.eqb (windows_gen c) "windows 11"
     && contains "windows 10" title then -10000 else
  if startswith "windows" (windows_gen c) && contains "server" title
  then -10000 else
  if String.eqb (catalog_arch c) "x64" then
    if any_in ["arm64-based"; "x86-based"; "32-bit"] title then -10000 else
    score_version_build title c
      (if contains "x64-based" title then score + 25 else score)
  else if String.eqb (catalog_arch c) "arm64" then
    if any_in ["x64-based"; "x86-based"; "32-bit"] title then -10000 else
    score_version_build title c
      (if contains "arm64-based" title then score + 25 else score)
  else if String.eqb (catalog_arch c) "x86" then
    if any_in ["x64-based"; "arm64-based"] title then -10000 else
    score_version_build title c
      (if contains "x86-based" title || contains "32-bit" title
       then score + 25 else score)
  else score_version_build title c score.

(** The pair that [choose_best_candidate] returns: the candidate or
    [None], and [None] or the reason of the failure. *)
Definition Choice : Type := option CatalogCandidate * option string.

Definition NoMatch : Choice :=
  (None, Some "No candidate matched baseline constraints.").

Definition AmbiguousMatch (best_score : Z) : Choice :=
  (None, Some ("Ambiguous match below confidence threshold ("
               +:+ Py.str_of_int best_score +:+ ").")).

Definition Selected (best : CatalogCandidate) : Choice := (Some best, None).

Definition ScoredCandidate : Type := Z * CatalogCandidate.

(** [scored.sort(key=lambda x: x[0], reverse=True)] *)
Definition sort_by_score_desc : list ScoredCandidate → list ScoredCandidate :=
  Py.sorted (fun x y => y.1 <=? x.1).

(** [choose_best_candidate] once every candidate has its score. *)
Definition choose_scored (scored : list ScoredCandidate) : Choice :=
  let scored := filter (fun x => 0 ≤ x.1) scored in
  match scored with
  | [] => NoMatch
  | first :: _ =>
      let scored := sort_by_score_desc scored in
      let '(best_score, best) := hd first scored in
      if best_score <? 90 then AmbiguousMatch best_score else Selected best
  end.

Definition choose_best_candidate (candidates : list CatalogCandidate)
    (kb_id : string) (constraints : BaselineConstraints) : Choice :=
  choose_scored
    (map (fun c => (score_candidate c kb_id constraints, c)) candidates).

End Downloader.

(** ** winshield_scanner.py: the month window *)

Module Window.
Import Text.

(** [datetime(year, month, 1, tzinfo=UTC)]: only the year and the month
    of such a value vary. *)
Definition Period : Type := Z * Z.

Definition period_lt (a b : Period) : bool :=
  (a.1 <? b.1) || ((a.1 =? b.1) && (a.2 <? b.2)).
Definition period_eq (a b : Period) : bool :=
  (a.1 =? b.1) && (a.2 =? b.2).

(** The abbreviated month names of [%b], in the C locale. *)
Definition month_abbr : list string :=
  ["Jan"; "Feb"; "Mar"; "Apr"; "May"; "Jun";
   "Jul"; "Aug"; "Sep"; "Oct"; "Nov"; "Dec"].

Definition digit_char (d : Z) : ascii := ascii_of_N (48 + Z.to_N d).
Definition digit_value (a : ascii) : Z := Z.of_N (code a) - 48.

(** [%Y]: the year on four digits. *)
Definition year_text (y : Z) : string :=
  String (digit_char (y / 1000 mod 10))
    (String (digit_char (y / 100 mod 10))
       (String (digit_char (y / 10 mod 10))
          (String (digit_char (y mod 10)) EmptyString))).

(** [current.strftime("%Y-%b")] *)
Definition strftime (p : Period) : string :=
  year_text p.1 +:+ "-" +:+ nth (Z.to_nat (p.2 - 1)) month_abbr "".

(** The month whose abbreviation is [s], read as [%b] reads it, without
    regard to case. *)
Fixpoint month_of_abbr (s : string) (names : list string) (m : Z) : option Z :=
  match names with
  | [] => None
  | n :: names' =>
      if String.eqb (lower s) (lower n) then Some m
      else month_of_abbr s names' (m + 1)
  end.

(** [datetime.strptime(s, "%Y-%b")]: four digits, a hyphen and a month
    name, and nothing else; [None] stands for the [ValueError] of a
    text that does not have this form or names the year 0. *)
Definition strptime (s : string) : option Period :=
  match s with
  | String d1 (String d2 (String d3 (String d4 (String h b)))) =>
      if is_digit d1 && is_digit d2 && is_digit d3 && is_digit d4
         && Ascii.eqb h "-"
      then
        let year := 1000 * digit_value d1 + 100 * digit_value d2
                    + 10 * digit_value d3 + digit_value d4 in
        if year =? 0 then None
        else match month_of_abbr b month_abbr 1 with
             | Some month => Some (year, month)
             | None => None
             end
      else None
  | _ => None
  end.

Record Baseline := {
  IsAdmin : bool;
  LcuMonthId : option string;
  MsrcLatestMonthId : option string
}.

Inductive Error :=
| RuntimeError (message : string)
| ValueError.

(** The [while True] loop of [build_month_ids_from_lcu]; [None] when
    the budget of iterations is used up. *)
Fixpoint month_loop (fuel : nat) (end_ : Period) (max_months : Z)
    (year month : Z) (month_ids : list string) : option (list string) :=
  match fuel with
  | O => None
  | S fuel' =>
      let current : Period := (year, month) in
      if period_lt end_ current || (max_months <=? Z.of_nat (length month_ids))
      then Some month_ids
      else
        let month_ids := month_ids ++ [strftime current] in
        if period_eq current end_ then Some month_ids
        else
          let month := month + 1 in
          if month =? 13
          then month_loop fuel' end_ max_months (year + 1) 1 month_ids
          else month_loop fuel' end_ max_months year month month_ids
  end.

(** [now] is the month of [datetime.now(UTC)]. *)
Definition build_month_ids_from_lcu (fuel : nat) (now : Period)
    (baseline : Baseline) (max_months : Z)
    : option (Error + list string) :=
  if negb (IsAdmin baseline)
  then Some (inl (RuntimeError "Baseline collected without administrative privileges"))
  else
    match LcuMonthId baseline with
    | None => Some (inl (RuntimeError "Baseline did not provide LcuMonthId"))
    | Some start_id =>
        if negb (truthy start_id)
        then Some (inl (RuntimeError "Baseline did not provide LcuMonthId"))
        else
          let end_id := default "" (MsrcLatestMonthId baseline) in
          match (if truthy end_id then strptime end_id else Some now) with
          | None => Some (inl ValueError)
          | Some end_ =>
              match strptime start_id with
              | None => Some (inl ValueError)
              | Some start =>
                  let start := if period_lt end_ start then end_ else start in
                  inr <$> month_loop fuel end_ max_months start.1 start.2 []
              end
          end
    end.

Definition default_max_months : Z := 48.

End Window.

(** ** winshield_scanner.py: records, supersedence and the report *)

Module Scanner.
Import Text.

(** An entry of the adapter's [KbEntries]; every key may be absent. *)
Record AdapterEntry := {
  entry_KB : option string;
  entry_Months : option (list string);
  entry_Cves : option (list string);
  entry_Supersedes : option (list string)
}.

(** A record of the index that [merge_kb_entries] builds. [UpdateType]
    is absent until [main] sets it. *)
Record KbEntry := {
  KB : string;
  Months : list string;
  Cves : list string;
  Supersedes : list string;
  UpdateType : option string
}.

(** [for value in values: if value and value not in target:
    target.append(value)] *)
Definition append_new (target : list string) (value : string) : list string :=
  if truthy value && negb (bool_decide (value ∈ target))
  then target ++ [value] else target.

Definition merge_field (target : list string) (values : option (list string))
    : list string :=
  foldl append_new target (default [] values).

(** The body of the loop over [incoming]. *)
Definition merge_kb_entry (existing : gmap string KbEntry)
    (entry : AdapterEntry) : gmap string KbEntry :=
  match entry_KB entry with
  | None => existing
  | Some kb_id =>
      if negb (truthy kb_id) then existing
      else
        let target :=
          default {| KB := kb_id; Months := []; Cves := [];
                     Supersedes := []; UpdateType := None |}
                  (existing !! kb_id) in
        <[kb_id := {| KB := KB target;
                      Months := merge_field (Months target) (entry_Months entry);
                      Cves := merge_field (Cves target) (entry_Cves entry);
                      Supersedes :=
                        merge_field (Supersedes target) (entry_Supersedes entry);
                      UpdateType := UpdateType target |}]> existing
  end.

Definition merge_kb_entries (existing : gmap string KbEntry)
    (incoming : list AdapterEntry) : gmap string KbEntry :=
  foldl merge_kb_entry existing incoming.

(** [sorted(set(l))] *)
Definition sorted_set (l : list string) : list string :=
  Py.sorted_str (elements (list_to_set l : gset string)).

(** The loop of [main] that closes a record once all batches are
    merged. *)
Definition finalize (e : KbEntry) : KbEntry :=
  let supersedes := sorted_set (Supersedes e) in
  {| KB := KB e;
     Months := sorted_set (Months e);
     Cves := sorted_set (Cves e);
     Supersedes := supersedes;
     UpdateType :=
       Some (match supersedes with
             | [] => "Standalone"
             | _ :: _ => "Superseding"
             end) |}.

(** [supersedes_map]: the loop over [kb_entries]. *)
Definition add_supersedes (supersedes_map : gmap string (gset string))
    (entry : KbEntry) : gmap string (gset string) :=
  foldl (fun m old => <[KB entry := {[old]} ∪ default ∅ (m !! KB entry)]> m)
        supersedes_map (Supersedes entry).

Definition build_supersedes_map (kb_entries : list KbEntry)
    : gmap string (gset string) :=
  foldl add_supersedes ∅ kb_entries.

(** The variables of the traversal. The top of [stack] is its head:
    [stack.append(x)] is [x :: stack] and [stack.pop()] takes the
    head. *)
Record Walk := {
  stack : list string;
  seen : gset string;
  logical_present : gset string;
  superseded_by : gmap string (gset string)
}.

(** The body of [for old in supersedes_map.get(current, set())]. *)
Definition visit (root : string) (w : Walk) (old : string) : Walk :=
  let logical_present := {[old]} ∪ logical_present w in
  let superseded_by :=
    <[old := {[root]} ∪ default ∅ (superseded_by w !! old)]> (superseded_by w) in
  if bool_decide (old ∈ seen w)
  then {| stack := stack w; seen := seen w;
          logical_present := logical_present; superseded_by := superseded_by |}
  else {| stack := old :: stack w; seen := {[old]} ∪ seen w;
          logical_present := logical_present; superseded_by := superseded_by |}.

(** One turn of [while stack]: [current] has been popped and [rest] is
    what is left of the stack. *)
Definition expand (supersedes_map : gmap string (gset string)) (root : string)
    (w : Walk) (current : string) (rest : list string) : Walk :=
  foldl (visit root)
        {| stack := rest; seen := seen w;
           logical_present := logical_present w;
           superseded_by := superseded_by w |}
        (elements (default ∅ (supersedes_map !! current))).

(** [while stack: ...]; [None] when the budget of turns is used up. *)
Fixpoint walk (fuel : nat) (supersedes_map : gmap string (gset string))
    (root : string) (w : Walk) : option Walk :=
  match stack w with
  | [] => Some w
  | current :: rest =>
      match fuel with
      | O => None
      | S fuel' =>
          walk fuel' supersedes_map root (expand supersedes_map root w current rest)
      end
  end.

(** The nodes that [walk] pops, in the order it pops them. *)
Fixpoint walk_order (fuel : nat) (supersedes_map : gmap string (gset string))
    (root : string) (w : Walk) : option (list string) :=
  match stack w with
  | [] => Some []
  | current :: rest =>
      match fuel with
      | O => None
      | S fuel' =>
          (current ::.) <$>
            walk_order fuel' supersedes_map root
              (expand supersedes_map root w current rest)
      end
  end.

(** The state in which the loop over the roots starts the walk of
    [root]. *)
Definition start_walk (root : string) (logical_present : gset string)
    (superseded_by : gmap string (gset string)) : Walk :=
  {| stack := [root]; seen := {[root]};
     logical_present := logical_present; superseded_by := superseded_by |}.

(** The body of [for root in installed_kbs], on the two results. *)
Definition walk_root (fuel : nat) (supersedes_map : gmap string (gset string))
    (acc : option (gset string * gmap string (gset string))) (root : string)
    : option (gset string * gmap string (gset string)) :=
  match acc with
  | None => None
  | Some (logical_present, superseded_by) =>
      match walk fuel supersedes_map root
              (start_walk root logical_present superseded_by) with
      | None => None
      | Some w => Some (Scanner.logical_present w, Scanner.superseded_by w)
      end
  end.

Definition compute_supersedence (fuel : nat) (kb_entries : list KbEntry)
    (installed_kbs : gset string)
    : option (gset string * gmap string (list string)) :=
  let supersedes_map := build_supersedes_map kb_entries in
  match foldl (walk_root fuel supersedes_map)
              (Some (installed_kbs, ∅)) (elements installed_kbs) with
  | None => None
  | Some (logical_present, superseded_by) =>
      Some (logical_present,
            (fun v : gset string => Py.sorted_str (elements v)) <$> superseded_by)
  end.

(** Every identifier that some record supersedes. *)
Definition superseded_ids (supersedes_map : gmap string (gset string))
    : gset string :=
  map_fold (fun _ olds acc => olds ∪ acc) ∅ supersedes_map.

(** A budget of turns that is enough for any walk. *)
Definition walk_budget (kb_entries : list KbEntry) : nat :=
  S (size (superseded_ids (build_supersedes_map kb_entries))).

(** [expected] and [missing] in [main]. *)
Definition expected (kb_entries : list KbEntry) : gset string :=
  list_to_set (map KB kb_entries).

Definition missing (kb_entries : list KbEntry) (logical_present : gset string)
    : list string :=
  Py.sorted_str (elements (expected kb_entries ∖ logical_present)).

(** *** The correlation table *)

(** [kb_index] of [print_kb_table]. *)
Definition build_kb_index (kb_entries : list KbEntry) : gmap string KbEntry :=
  foldl (fun index entry =>
           if truthy (KB entry) then <[KB entry := entry]> index else index)
        ∅ kb_entries.

Definition all_kbs (kb_index : gmap string KbEntry)
    (installed_kbs logical_present_kbs : gset string) : list string :=
  Py.sorted_str (elements (dom kb_index ∪ installed_kbs ∪ logical_present_kbs)).

(** The record that stands in for an identifier without one. *)
Definition unmapped_entry (kb_id : string) : KbEntry :=
  {| KB := kb_id; Months := []; Cves := []; Supersedes := [];
     UpdateType := Some "Unmapped" |}.

Definition kb_status (kb_id : string)
    (installed_kbs logical_present_kbs : gset string)
    (superseded_by : gmap string (list string)) : string :=
  if bool_decide (kb_id ∈ installed_kbs) then "Installed"
  else if bool_decide (kb_id ∈ logical_present_kbs) then
    match default [] (superseded_by !! kb_id) with
    | [] => "Superseded"
    | by_ => "Superseded (" +:+ join ", " by_ +:+ ")"
    end
  else "Missing".

(** The five cells of a printed line. *)
Record Line := {
  kb_cell : string;
  type_cell : string;
  status_cell : string;
  month_cell : string;
  cve_cell : string
}.

(** [x or [""]] for a list that is replaced when empty *)
Definition or_blank (l : list string) : list string :=
  match l with [] => [""] | _ :: _ => l end.

(** The lines of one identifier: the body of [for kb_id in all_kbs],
    without the closing rule. *)
Definition kb_lines (kb_index : gmap string KbEntry)
    (installed_kbs logical_present_kbs : gset string)
    (superseded_by : gmap string (list string)) (kb_id : string) : list Line :=
  let entry := default (unmapped_entry kb_id) (kb_index !! kb_id) in
  let update_type := default "" (UpdateType entry) in
  let status :=
    kb_status kb_id installed_kbs logical_present_kbs superseded_by in
  let months := or_blank (Months entry) in
  let cves := or_blank (Cves entry) in
  let height := (length months `max` length cves)%nat in
  map (fun i : nat =>
         {| kb_cell := if (i =? 0)%nat then kb_id else "";
            type_cell := if (i =? 0)%nat then update_type else "";
            status_cell := if (i =? 0)%nat then status else "";
            month_cell := nth i months "";
            cve_cell := nth i cves "" |})
      (seq 0 height).

Definition format_line (l : Line) : string :=
  ljust 11 (kb_cell l) +:+ " " +:+ ljust 12 (type_cell l) +:+ " "
  +:+ ljust 40 (status_cell l) +:+ " " +:+ ljust 20 (month_cell l) +:+ " "
  +:+ cve_cell l.

Definition rule : string := string_of_list_ascii (repeat "-"%char 110).

(** The lines that [print_kb_table] prints. *)
Definition print_kb_table (kb_entries : list KbEntry)
    (installed_kbs logical_present_kbs : gset string)
    (superseded_by : gmap string (list string)) : list string :=
  let kb_index := build_kb_index kb_entries in
  ["=== Correlation ===";
   format_line {| kb_cell := "KB"; type_cell := "Type"; status_cell := "Status";
                  month_cell := "Months"; cve_cell := "CVEs" |};
   rule]
  ++ flat_map
       (fun kb_id =>
          map format_line
              (kb_lines kb_index installed_kbs logical_present_kbs
                        superseded_by kb_id)
          ++ [rule])
       (all_kbs kb_index installed_kbs logical_present_kbs).

End Scanner.

(** ** What the scoring rules look for in a lower-cased title *)

Module CandidateRules.
Import Text Pattern Downloader.

Definition names_target (kb_id title : string) : bool :=
  contains (lower kb_id) title.

Definition names_generation (c : BaselineConstraints) (title : string) : bool :=
  truthy (windows_gen c) && contains (windows_gen c) title.

Definition names_other_generation (c : BaselineConstraints) (title : string)
    : bool :=
  (String.eqb (windows_gen c) "windows 10" && contains "windows 11" title)
  || (String.eqb (windows_gen c) "windows 11" && contains "windows 10" title).

Definition names_server (c : BaselineConstraints) (title : string) : bool :=
  startswith "windows" (windows_gen c) && contains "server" title.

Definition matching_arch_marker (c : BaselineConstraints) (title : string)
    : bool :=
  if String.eqb (catalog_arch c) "x64" then contains "x64-based" title
  else if String.eqb (catalog_arch c) "arm64" then contains "arm64-based" title
  else if String.eqb (catalog_arch c) "x86"
       then contains "x86-based" title || contains "32-bit" title
  else false.

Definition competing_arch_marker (c : BaselineConstraints) (title : string)
    : bool :=
  if String.eqb (catalog_arch c) "x64"
  then any_in ["arm64-based"; "x86-based"; "32-bit"] title
  else if String.eqb (catalog_arch c) "arm64"
       then any_in ["x64-based"; "x86-based"; "32-bit"] title
  else if String.eqb (catalog_arch c) "x86"
       then any_in ["x64-based"; "arm64-based"] title
  else false.

(** The title shows the known display version, or some year-and-half
    version. *)
Definition version_evidence (c : BaselineConstraints) (title : string) : bool :=
  truthy (lower (display_version c))
  && (contains (lower (display_version c)) title || search_year_half title).

(** The title shows a build number, and the build of the host is
    known. *)
Definition build_evidence (c : BaselineConstraints) (title : string) : bool :=
  truthy (build_major c) && bool_decide (is_Some (search_build title)).

Definition hard_excluded (candidate : CatalogCandidate) (kb_id : string)
    (c : BaselineConstraints) : bool :=
  let title := lower (title candidate) in
  negb (names_target kb_id title)
  || names_other_generation c title
  || names_server c title
  || competing_arch_marker c title.

(** A candidate and a host to evaluate the rules on. *)
Definition plain_candidate (title : string) : CatalogCandidate :=
  {| update_id := "00000000-0000-0000-0000-000000000000"; title := title;
     products := "Windows 10"; classification := "Security Updates";
     last_updated := "1/9/2024"; version := "n/a"; size := "0 MB" |}.

Definition host_22h2 : BaselineConstraints :=
  {| windows_gen := "windows 10"; display_version := "22H2";
     build_major := "19045"; catalog_arch := "x64" |}.

End CandidateRules.

(** ** The fields and the batches of the record merger *)

Module MergeRules.
Import Text Scanner.

(** The three array fields that [merge_kb_entries] loops over. *)
Inductive Field := FMonths | FCves | FSupersedes.

(** [target[field]] *)
Definition record_field (f : Field) (e : KbEntry) : list string :=
  match f with
  | FMonths => Months e
  | FCves => Cves e
  | FSupersedes => Supersedes e
  end.

(** [entry.get(field) or []] *)
Definition incoming_field (f : Field) (entry : AdapterEntry) : list string :=
  default [] match f with
             | FMonths => entry_Months entry
             | FCves => entry_Cves entry
             | FSupersedes => entry_Supersedes entry
             end.

(** The fresh record of [setdefault]. *)
Definition fresh (kb_id : string) : KbEntry :=
  {| KB := kb_id; Months := []; Cves := []; Supersedes := []; UpdateType := None |}.

(** The identifier of an entry that has one: present and not empty. *)
Definition entry_id (entry : AdapterEntry) : option string :=
  match entry_KB entry with
  | Some kb_id => if truthy kb_id then Some kb_id else None
  | None => None
  end.

(** The entry without the empty values of its arrays. *)
Definition drop_empty_values (entry : AdapterEntry) : AdapterEntry :=
  let keep := fmap (M := option) (List.filter truthy) in
  {| entry_KB := entry_KB entry;
     entry_Months := keep (entry_Months entry);
     entry_Cves := keep (entry_Cves entry);
     entry_Supersedes := keep (entry_Supersedes entry) |}.

(** No value occurs twice in a field of a record of the accumulator. *)
Definition duplicate_free (m : gmap string KbEntry) : Prop :=
  ∀ k e f, m !! k = Some e → NoDup (record_field f e).

(** The two partial records of the design document's example. *)
Definition partial_X_jan : AdapterEntry :=
  {| entry_KB := Some "X"; entry_Months := Some ["2024-Jan"];
     entry_Cves := Some ["V1"]; entry_Supersedes := Some [] |}.

Definition partial_X_feb : AdapterEntry :=
  {| entry_KB := Some "X"; entry_Months := Some ["2024-Jan"; "2024-Feb"];
     entry_Cves := Some []; entry_Supersedes := Some ["Y"] |}.

End MergeRules.

(** ** The supersedes relation *)

Module SupersedenceRules.
Import Scanner.

(** Some record of [kb_entries] with the identifier [newer] lists
    [older] among what it supersedes. *)
Definition supersedes (kb_entries : list KbEntry) (newer older : string) : Prop :=
  ∃ e, e ∈ kb_entries ∧ KB e = newer ∧ older ∈ Supersedes e.

(** What is left to do in a walk: the nodes on the stack, and the nodes
    that may still be pushed. *)
Definition walk_measure (supersedes_map : gmap string (gset string)) (w : Walk)
    : nat :=
  (length (stack w) + size (superseded_ids supersedes_map ∖ seen w))%nat.

(** [newer] supersedes [older] through one record or a chain of them. *)
Definition supersedes_chain (kb_entries : list KbEntry) : relation string :=
  tc (supersedes kb_entries).

(** What holds of a walk of [root] at every turn, between the relation
    [R] and the variables of the walk, [lp0] being the logical-presence
    set that the walk started with. *)
Record walk_inv (R : relation string) (root : string) (lp0 : gset string)
    (w : Walk) : Prop := {
  inv_root_seen : root ∈ seen w;
  inv_stack_seen : ∀ x, x ∈ stack w → x ∈ seen w;
  inv_seen_reached : ∀ x, x ∈ seen w → rtc R root x;
  inv_seen_done :
    ∀ x, x ∈ seen w →
         x ∈ stack w ∨ ∀ y, R x y → y ∈ seen w ∧ y ∈ logical_present w;
  inv_present_sound :
    ∀ x, x ∈ logical_present w → x ∈ lp0 ∨ tc R root x;
  inv_present_grows : lp0 ⊆ logical_present w
}.

(** A supersedes relation with a cycle: A and B supersede each other,
    and B supersedes C. *)
Definition cyclic_entries : list KbEntry :=
  [ {| KB := "A"; Months := ["2024-Feb"]; Cves := []; Supersedes := ["B"];
       UpdateType := Some "Superseding" |};
    {| KB := "B"; Months := ["2024-Jan"]; Cves := []; Supersedes := ["A"; "C"];
       UpdateType := Some "Superseding" |};
    {| KB := "D"; Months := ["2024-Mar"]; Cves := []; Supersedes := [];
       UpdateType := Some "Standalone" |} ].

End SupersedenceRules.

(** ** The calendar behind the month window *)

Module Calendar.
Import Window.

(** Months counted from the year 0. *)
Definition month_index (p : Period) : Z := p.1 * 12 + (p.2 - 1).
Definition period_of_index (i : Z) : Period := (i / 12, i mod 12 + 1).

(** The [n] consecutive months from the month of index [i] on. *)
Fixpoint months_from (i : Z) (n : nat) : list Period :=
  match n with
  | O => []
  | S n' => period_of_index i :: months_from (i + 1) n'
  end.

(** Every month from [first] to [last], both included; empty when [first]
    is after [last]. *)
Definition month_span (first last : Period) : list Period :=
  months_from (month_index first)
              (Z.to_nat (month_index last - month_index first + 1)).

Definition valid_month (p : Period) : Prop := 1 ≤ p.2 ≤ 12.

End Calendar.

(** ** winshield_scanner.py: chunks, the MSRC queries and the analysis *)

Module ScanPipeline.
Import Text Window Scanner.

(** [range(0, stop, step)] for a positive [step]: [i], [i + step], ... as
    long as they are below [stop]; [fuel] bounds the number of
    elements. *)
Fixpoint range_up (fuel : nat) (i stop step : nat) : list nat :=
  match fuel with
  | O => []
  | S fuel' =>
      if (i <? stop)%nat then i :: range_up fuel' (i + step) stop step else []
  end.

(** [chunk_list]: [range] refuses the step 0 and is empty for a negative
    step; [items[i:i + size]] is [take size (drop i items)]. *)
Definition chunk_list {A} (items : list A) (size : Z) : Error + list (list A) :=
  if size =? 0 then inl ValueError
  else if size <? 0 then inr []
  else
    let size := Z.to_nat size in
    inr (map (fun i => take size (drop i items))
             (range_up (length items) 0 (length items) size)).

(** What [run_powershell_script] gives for the adapter script: an error,
    or the document, of which [main] reads [KbEntries]. *)
Definition Adapter : Type :=
  string → string → Error + option (list AdapterEntry).

(** The loop of [main] over the chunks of months: the records merged so
    far and the months that had entries. The adapter is called with the
    months of the chunk joined by commas and with the product name. *)
Fixpoint query_msrc (adapter : Adapter) (product_name_hint : string)
    (chunks : list (list string))
    (merged : gmap string KbEntry) (months_with_entries : list string)
    : Error + (gmap string KbEntry * list string) :=
  match chunks with
  | [] => inr (merged, months_with_entries)
  | chunk :: chunks' =>
      match adapter (join "," chunk) product_name_hint with
      | inl e => inl e
      | inr msrc_data =>
          match default [] msrc_data with
          | [] => query_msrc adapter product_name_hint chunks'
                             merged months_with_entries
          | entries =>
              query_msrc adapter product_name_hint chunks'
                         (merge_kb_entries merged entries)
                         (months_with_entries ++ chunk)
          end
      end
  end.

(** [kb_entries] of [main] once the records are closed. The records come
    in the order of the keys of the map; what [main] computes from them
    does not depend on their order. *)
Definition closed_entries (merged : gmap string KbEntry) : list KbEntry :=
  map finalize (map snd (map_to_list merged)).

(** What [main] saves, apart from the baseline that it copies. *)
Record ScanResult := {
  InstalledKbs : list string;
  MonthsRequested : list string;
  MonthsWithEntries : list string;
  KbEntries : list KbEntry;
  MissingKbs : list string
}.

(** [sorted(kb_entries, key=lambda x: x["KB"])] *)
Definition sorted_by_KB : list KbEntry → list KbEntry :=
  Py.sorted (fun a b => String.leb (KB a) (KB b)).

(** [main] from the merged records on: [None] stands for the exit with
    "No KB data returned" when nothing was merged. The walks of the
    supersedence computation get the budget [walk_budget]. *)
Definition analyse (installed_kbs : gset string) (month_ids : list string)
    (merged : gmap string KbEntry) (months_with_entries : list string)
    : option (gset string * gmap string (list string) * ScanResult) :=
  if bool_decide (merged = ∅) then None
  else
    let kb_entries := closed_entries merged in
    match compute_supersedence (walk_budget kb_entries) kb_entries installed_kbs with
    | None => None
    | Some (logical_present, superseded_by) =>
        let missing := missing kb_entries logical_present in
        Some (logical_present, superseded_by,
              {| InstalledKbs := Py.sorted_str (elements installed_kbs);
                 MonthsRequested := month_ids;
                 MonthsWithEntries := sorted_set months_with_entries;
                 KbEntries := sorted_by_KB kb_entries;
                 MissingKbs := missing |})
    end.

(** The relation that the batches of partial records describe: some
    record with the identifier [newer] lists the non-empty [older]. *)
Definition batch_supersedes (incoming : list AdapterEntry) (newer older : string)
    : Prop :=
  ∃ entry, entry ∈ incoming
           ∧ MergeRules.entry_id entry = Some newer
           ∧ older ∈ MergeRules.incoming_field MergeRules.FSupersedes entry
           ∧ truthy older = true.

(** Every record of an accumulator built from the empty one sits under
    its own identifier and is not classified yet. *)
Definition keyed (m : gmap string KbEntry) : Prop :=
  ∀ k e, m !! k = Some e → KB e = k ∧ UpdateType e = None.

(** The batches that the adapter gave for the chunks, and the months of
    the chunks that had entries. *)
Definition answered (adapter : Adapter) (product_name_hint : string)
    (chunk : list string) (batch : list AdapterEntry) : Prop :=
  ∃ msrc_data, adapter (join "," chunk) product_name_hint = inr msrc_data
               ∧ batch = default [] msrc_data.

Definition months_of_answers (chunks : list (list string))
    (batches : list (list AdapterEntry)) : list string :=
  concat (map fst (List.filter (fun cb => negb (bool_decide (cb.2 = [])))
                               (zip chunks batches))).

(** An adapter that has entries for January 2024 only. *)
Definition january_adapter : Adapter :=
  fun month_ids _ =>
    if contains "2024-Jan" month_ids
    then inr (Some [MergeRules.partial_X_jan])
    else inr None.

End ScanPipeline.

(** ** The roots recorded for a superseded identifier *)

Module SupersededByRules.
Import Scanner.

(** [m.get(x, set())] *)
Definition roots_of (m : gmap string (gset string)) (x : string) : gset string :=
  default ∅ (m !! x).

(** No key of the map is bound to the empty set. *)
Definition no_empty_value (m : gmap string (gset string)) : Prop :=
  ∀ x roots, m !! x = Some roots → roots ≠ ∅.

(** What holds of [superseded_by] at every turn of the walk of [root]
    that started with the map [sb0]: the identifiers reached so far, and
    only they, have [root] added to their roots. *)
Definition walk_by_inv (R : relation string) (root : string)
    (sb0 : gmap string (gset string)) (w : Walk) : Prop :=
  ∃ reached : gset string,
    (∀ x, x ∈ reached → tc R root x)
    ∧ (∀ x, superseded_by w !! x
            = if decide (x ∈ reached) then Some ({[root]} ∪ roots_of sb0 x)
              else sb0 !! x)
    ∧ (∀ x, x ∈ seen w → x ∈ stack w ∨ ∀ y, R x y → y ∈ reached).

End SupersededByRules.

(** ** winshield_downloader.py: the missing list, the catalog rows, the
    download addresses and the selection *)

Module Catalog.
Import Text Window Scanner Downloader.

Definition upper_char (a : ascii) : ascii :=
  if is_lower_alpha a then ascii_of_N (code a - 32) else a.

(** [s.upper()] *)
Fixpoint upper (s : string) : string :=
  match s with
  | EmptyString => EmptyString
  | String a r => String (upper_char a) (upper r)
  end.

Record MissingKbItem := {
  kb_id : string;
  update_type : string
}.

(** [kb_index] of [build_missing_list]: the records that have an
    identifier, under their identifier in upper case; a later record
    replaces an earlier one with the same key. *)
Definition upper_index (kb_entries : list KbEntry) : gmap string KbEntry :=
  foldl (fun index e =>
           if truthy (KB e) then <[upper (KB e) := e]> index else index)
        ∅ kb_entries.

(** [x or "Unknown"] *)
Definition or_unknown (x : option string) : string :=
  match x with
  | Some s => if truthy s then s else "Unknown"
  | None => "Unknown"
  end.

(** [build_missing_list], on the two entries that it reads from the scan
    result. *)
Definition build_missing_list (missing_kbs : list string)
    (kb_entries : list KbEntry) : list MissingKbItem :=
  let kb_index := upper_index kb_entries in
  foldl (fun out kb =>
           let kb_id := upper (strip kb) in
           if negb (truthy kb_id) then out
           else
             let update_type :=
               or_unknown (match kb_index !! kb_id with
                           | Some e => UpdateType e
                           | None => None
                           end) in
             out ++ [{| kb_id := kb_id; update_type := update_type |}])
        [] missing_kbs.

(** A row of the result table as [parse_search_candidates] reads it: the
    [id] attribute of the [tr], if any, and the texts of its [td]
    cells. *)
Record Row := {
  row_id : option string;
  row_cells : list string
}.

(** [s.split(sep, 1)[0]]: the text before the first [sep]. *)
Fixpoint before (sep s : string) : string :=
  if startswith sep s then EmptyString
  else match s with
       | EmptyString => EmptyString
       | String a r => String a (before sep r)
       end.

Definition is_hex_or_hyphen (a : ascii) : bool :=
  is_digit a || between 97 102 a || between 65 70 a || Ascii.eqb a "-".

Fixpoint all_chars (p : ascii → bool) (s : string) : bool :=
  match s with
  | EmptyString => true
  | String a r => p a && all_chars p r
  end.

(** [re.fullmatch(r"[0-9a-fA-F-]{36}", s)] as a truth value *)
Definition is_update_id (s : string) : bool :=
  (String.length s =? 36)%nat && all_chars is_hex_or_hyphen s.

(** The body of the loop of [parse_search_candidates] over the rows. *)
Definition parse_row (tr : Row) : option CatalogCandidate :=
  let tr_id := strip (default "" (row_id tr)) in
  if negb (contains "_R" tr_id) then None
  else
    let update_id := before "_R" tr_id in
    if negb (is_update_id update_id) then None
    else
      let tds := row_cells tr in
      if (length tds <? 8)%nat then None
      else Some {| Downloader.update_id := update_id;
                   title := nth 1 tds "";
                   products := nth 2 tds "";
                   classification := nth 3 tds "";
                   last_updated := nth 4 tds "";
                   version := nth 5 tds "";
                   size := nth 6 tds "" |}.

Definition parse_rows (rows : list Row) : list CatalogCandidate :=
  omap parse_row rows.

(** The loop of [extract_download_urls] over the addresses found: [seen]
    holds the elements of [out]. *)
Definition keep_first_seen (urls : list string) : list string :=
  (foldl (fun '(seen, out) u =>
            if bool_decide (u ∈ (seen : gset string)) then (seen, out)
            else ({[u]} ∪ seen, out ++ [u]))
         (∅, []) urls).2.

(** [s.split(sep)[-1]] for a separator of one character: the text after
    the last [sep]. *)
Fixpoint after_last (sep : ascii) (s : string) : string :=
  match s with
  | EmptyString => EmptyString
  | String a r =>
      if existsb (Ascii.eqb sep) (list_ascii_of_string r) then after_last sep r
      else if Ascii.eqb a sep then r
      else s
  end.

Fixpoint before_char (sep : ascii) (s : string) : string :=
  match s with
  | EmptyString => EmptyString
  | String a r => if Ascii.eqb a sep then EmptyString else String a (before_char sep r)
  end.

(** [filename] of [download_file]: [url.split("/")[-1].split("?", 1)[0]] *)
Definition download_filename (url : string) : string :=
  before_char "?" (after_last "/" url).

(** *** The text that the operator types

    The text read by [input] is a sequence of Unicode code points. What
    Python knows of a character comes from its Unicode database, which
    changes with the version of Python; it is a parameter here:
    [c.isspace()], [c.isdigit()], and for a decimal digit (category Nd)
    the value that [int] reads, [None] for any other character. *)
Record Unicode := {
  char_isspace : N → bool;
  char_isdigit : N → bool;
  char_decimal : N → option Z
}.

(** What holds of every version of the database: the ASCII digits are
    decimal digits with their value, and a decimal digit is a digit,
    with a value from 0 to 9. *)
Definition standard (u : Unicode) : Prop :=
  (∀ c, (48 ≤ c ≤ 57)%N → char_decimal u c = Some (Z.of_N c - 48))
  ∧ (∀ c v, char_decimal u c = Some v →
            char_isdigit u c = true ∧ 0 ≤ v ≤ 9).

(** The code points of an ASCII text *)
Definition codepoints (s : string) : list N :=
  map N_of_ascii (list_ascii_of_string s).

(** What [input] gives: the line typed, or the exception that it raises
    at the end of the input (EOFError) or when the operator interrupts
    (KeyboardInterrupt). *)
Inductive Input :=
| Typed_line (text : list N)
| EndOfInput
| InputInterrupted.

(** [raw.strip()] *)
Fixpoint lstrip_typed (u : Unicode) (raw : list N) : list N :=
  match raw with
  | [] => []
  | c :: r => if char_isspace u c then lstrip_typed u r else raw
  end.

Definition strip_typed (u : Unicode) (raw : list N) : list N :=
  rev (lstrip_typed u (rev (lstrip_typed u raw))).

(** [raw.isdigit()] *)
Definition isdigit (u : Unicode) (raw : list N) : bool :=
  match raw with
  | [] => false
  | _ :: _ => forallb (char_isdigit u) raw
  end.

Definition max_str_digits : nat := 4300.

(** [int(raw)] for a text of digits. [None] stands for the ValueError
    that [int] raises for a text of more than 4300 digits, and for a
    digit that is no decimal digit, such as a superscript two. *)
Definition int_of_digits (u : Unicode) (raw : list N) : option Z :=
  if (max_str_digits <? length raw)%nat then None
  else
    foldl (fun n c =>
             match n, char_decimal u c with
             | Some n, Some v => Some (10 * n + v)
             | _, _ => None
             end)
          (Some 0) raw.

(** How [main] takes the number typed by the operator, among [count]
    items. *)
Inductive Selection :=
| InvalidSelection
| SelectionOutOfRange
| SelectionValueError
| Selected_index (index : nat).

(** [raw] is the text typed, already stripped; the index is that of the
    item in the list, [idx - 1]. *)
Definition select (u : Unicode) (raw : list N) (count : nat) : Selection :=
  if negb (isdigit u raw) then InvalidSelection
  else
    match int_of_digits u raw with
    | None => SelectionValueError
    | Some idx =>
        if (idx <? 1) || (Z.of_nat count <? idx) then SelectionOutOfRange
        else Selected_index (Z.to_nat (idx - 1))
    end.

(** An excerpt of the database, for examples: the characters below 256
    as every version has them, and the fullwidth digits. *)
Definition excerpt : Unicode :=
  {| char_isspace := fun c =>
       ((9 <=? c) && (c <=? 13) || (28 <=? c) && (c <=? 32)
        || (c =? 133) || (c =? 160))%N;
     char_isdigit := fun c =>
       ((48 <=? c) && (c <=? 57) || (c =? 178) || (c =? 179) || (c =? 185)
        || (65296 <=? c) && (c <=? 65305))%N;
     char_decimal := fun c =>
       if ((48 <=? c) && (c <=? 57))%N then Some (Z.of_N c - 48)
       else if ((65296 <=? c) && (c <=? 65305))%N
            then Some (Z.of_N c - 65296)
            else None |}.

End Catalog.

(** ** Characters of a text *)

Module Chars.

(** The character [c] occurs in [s]. *)
Definition has_char (c : ascii) (s : string) : bool :=
  existsb (Ascii.eqb c) (list_ascii_of_string s).

End Chars.

(** ** winshield_installer.py *)

Module Installer.
Import Text Window Catalog.

(** The name cut at its last dot: what is before the dot, and the rest
    from the dot on; [None] when the name has no dot. *)
Fixpoint split_last_dot (name : string) : option (string * string) :=
  match name with
  | EmptyString => None
  | String a r =>
      match split_last_dot r with
      | Some (root, ext) => Some (String a root, ext)
      | None => if Ascii.eqb a "." then Some (EmptyString, name) else None
      end
  end.

(** [os.path.splitext(name)[1]] for a name without separator: the name
    from its last dot on, unless only dots come before that dot. *)
Definition splitext_ext (name : string) : string :=
  match split_last_dot name with
  | Some (root, ext) =>
      if all_chars (Ascii.eqb ".") root then EmptyString else ext
  | None => EmptyString
  end.

(** [os.path.splitext(name)[1].lower() in (".msu", ".cab")] *)
Definition is_package_name (name : string) : bool :=
  String.eqb (lower (splitext_ext name)) ".msu"
  || String.eqb (lower (splitext_ext name)) ".cab".

(** An entry of [os.listdir(path)]: its name, and whether
    [os.path.isfile] holds of it. *)
Record DirEntry := {
  entry_name : string;
  entry_isfile : bool
}.

(** [find_packages]. A package is given by its name in the directory:
    its path is [os.path.join(path, name)], of which [os.path.basename]
    is the name and [os.path.splitext] gives the extension of the
    name. *)
Definition find_packages (listing : list DirEntry) : list string :=
  let packages :=
    foldl (fun packages e =>
             if negb (entry_isfile e) then packages
             else if is_package_name (entry_name e)
                  then packages ++ [entry_name e]
                  else packages)
          [] listing in
  Py.sorted (fun a b => String.leb (lower a) (lower b)) packages.

(** The digits at the head of [s], at most [n] of them: what a greedy
    [\d{4,8}] takes when [n] is 8. *)
Fixpoint take_digits (n : nat) (s : string) : string :=
  match n, s with
  | S n', String a r =>
      if is_digit a then String a (take_digits n' r) else EmptyString
  | _, _ => EmptyString
  end.

(** [(KB\d{4,8})] at the head of [s], without regard to case. *)
Definition kb_at (s : string) : option string :=
  match s with
  | String k (String b r) =>
      if Ascii.eqb (lower_char k) "k" && Ascii.eqb (lower_char b) "b"
         && (4 <=? String.length (take_digits 8 r))%nat
      then Some (String k (String b (take_digits 8 r)))
      else None
  | _ => None
  end.

(** [re.search(r"(KB\d{4,8})", s, flags=re.IGNORECASE)]: group 1 of the
    leftmost match. *)
Fixpoint search_kb (s : string) : option string :=
  match kb_at s with
  | Some g => Some g
  | None =>
      match s with
      | EmptyString => None
      | String _ r => search_kb r
      end
  end.

Definition extract_kb_label (filename : string) : string :=
  match search_kb filename with
  | Some g => upper g
  | None => filename
  end.

(** How a run of [main] ends: with an exit code, or with an exception
    that nothing catches. *)
Inductive Ending :=
| Exit (code : Z)
| Uncaught (exception : string).

(** How [subprocess.run] of a command ends: the command returns, with
    a return code ([None] for a code that is missing), or
    [subprocess.run] raises an exception, as when the program cannot be
    started or when the operator interrupts it. *)
Inductive Command :=
| Returned (returncode : option Z)
| CommandRaised (exception : string).

(** What a run of [main] does: what it prints (one text for each [print]
    and each prompt of [input]), the commands that it hands to
    [subprocess.run], and how it ends. *)
Record Run := {
  printed : list string;
  commands : list (list string);
  ending : Ending
}.

(** [main]. [u] is the Unicode database, [in_downloads_dir] is
    [os.path.join(DOWNLOADS_DIR, name)], [admin] is what [is_admin]
    answers, [listing] the content of the downloads directory, [typed]
    what [input] gives, and [run_command] how [subprocess.run] ends on a
    command. The extension of the path of a package is the one of its
    name. *)
Definition main (u : Unicode) (in_downloads_dir : string → string)
    (admin : bool) (listing : list DirEntry)
    (typed : Input) (run_command : list string → Command) : Run :=
  let p0 := ["[*] Running WinShield installer"] in
  if negb admin then
    {| printed := p0 ++ ["[!] Administrator privileges are required"];
       commands := []; ending := Exit 1 |}
  else
    let packages := find_packages listing in
    match packages with
    | [] => {| printed := p0 ++ ["[+] No update packages found"];
               commands := []; ending := Exit 0 |}
    | _ :: _ =>
        let p1 :=
          p0 ++ [""]
          ++ imap (fun i name =>
                     Py.str_of_int (Z.of_nat i + 1) +:+ ") " +:+ name)
                  packages
          ++ ["Select package number: "] in
        match typed with
        | EndOfInput =>
            {| printed := p1; commands := []; ending := Uncaught "EOFError" |}
        | InputInterrupted =>
            {| printed := p1; commands := [];
               ending := Uncaught "KeyboardInterrupt" |}
        | Typed_line text =>
            match select u (strip_typed u text) (length packages) with
            | InvalidSelection =>
                {| printed := p1 ++ ["[!] Invalid selection"];
                   commands := []; ending := Exit 1 |}
            | SelectionValueError =>
                {| printed := p1; commands := [];
                   ending := Uncaught "ValueError" |}
            | SelectionOutOfRange =>
                {| printed := p1 ++ ["[!] Selection out of range"];
                   commands := []; ending := Exit 1 |}
            | Selected_index i =>
                let name := nth i packages "" in
                let chosen := in_downloads_dir name in
                let kb_label := extract_kb_label name in
                let p2 := p1 ++ ["[*] Installing " +:+ kb_label] in
                let ext := lower (splitext_ext name) in
                let argv :=
                  if String.eqb ext ".msu"
                  then ["wusa.exe"; chosen; "/quiet"; "/norestart"]
                  else ["dism.exe"; "/online"; "/add-package";
                        "/packagepath:" +:+ chosen; "/quiet"; "/norestart"] in
                match run_command argv with
                | CommandRaised exception =>
                    {| printed := p2; commands := [argv];
                       ending := Uncaught exception |}
                | Returned returncode =>
                    let code := default 0 returncode in
                    {| printed := p2 ++ ["[+] Installer exit code: "
                                         +:+ Py.str_of_int code];
                       commands := [argv];
                       ending := Exit (if (code =? 0) || (code =? 3010)
                                       then 0 else 1) |}
                end
            end
        end
    end.

End Installer.

(** ** winshield_master.py *)

Module Master.
Import Text.

(** What the operator does at a prompt: a line is typed, or the
    operator interrupts (KeyboardInterrupt). The end of the list of
    events is the end of the input (EOFError). *)
Inductive Event :=
| Line (text : string)
| Interrupt.

(** How [subprocess.run] of a stage ends: the stage completes with a
    return code ([None] for a code that is missing), the operator
    interrupts it, or it raises an exception of the given text. *)
Inductive Launch :=
| Completed (returncode : option Z)
| Interrupted
| Failed (exc : string).

Definition newline : string := String "010" EmptyString.

(** ["=" * n] *)
Definition bar (n : nat) : string := string_of_list_ascii (repeat "="%char n).

Definition cancelled : string := newline +:+ "[!] Cancelled by user.".

(** [run_stage]: the code returned and what is printed. [isfile] is
    what [os.path.isfile(path)] answers and [launch] how the stage ends
    when it is launched. *)
Definition run_stage (isfile : bool) (launch : Launch) (label path : string)
    : Z * list string :=
  if negb isfile then (1, ["[X] Stage script not found: " +:+ path])
  else
    let p := [""; "[*] " +:+ label; bar 60] in
    match launch with
    | Completed returncode =>
        let rc := default 0 returncode in
        let status :=
          if rc =? 0 then "Finished"
          else "Finished (exit code " +:+ Py.str_of_int rc +:+ ")" in
        (rc, p ++ [bar 60; "[+] " +:+ status; ""])
    | Interrupted => (130, p ++ [cancelled])
    | Failed exc => (1, p ++ ["[X] Failed to launch stage: " +:+ exc])
    end.

Definition print_menu : list string :=
  [bar 43; "                 WinShield"; bar 43;
   "1) Scan system"; "2) Download update"; "3) Install update"; "4) Exit";
   ""].

(** [read_choice]: the choice, what is printed (each prompt counts),
    and the events that are left. *)
Fixpoint read_choice (events : list Event)
    : string * list string * list Event :=
  match events with
  | [] => ("4", ["Select an option: "; cancelled], [])
  | Interrupt :: rest => ("4", ["Select an option: "; cancelled], rest)
  | Line text :: rest =>
      let choice := strip text in
      if truthy choice then (choice, ["Select an option: "], rest)
      else
        let '(choice', shown, rest') := read_choice rest in
        (choice', "Select an option: " :: shown, rest')
  end.

Section Stages.
(** [os.path.join(SCRIPT_DIR, name)] *)
Variable in_script_dir : string → string.
(** What the system answers when [run_stage] is called for the [n]-th
    time, for the script at [path]: whether the file exists, and how
    the stage ends if it is launched. *)
Variable world : nat → string → bool * Launch.

Definition STAGES : gmap string (string * string) :=
  <["1" := ("Scan System", in_script_dir "winshield_scanner.py")]>
  (<["2" := ("Download KB", in_script_dir "winshield_downloader.py")]>
  (<["3" := ("Install KB", in_script_dir "winshield_installer.py")]> ∅)).

(** A session of the menu: what is printed, the scripts that are
    launched, the codes that [run_stage] returned, and the code that
    [main] returns. *)
Record Session := {
  shown : list string;
  launched : list string;
  stage_codes : list Z;
  exit_code : Z
}.

(** [main]: [calls] counts the calls of [run_stage] so far; [None] when
    the fuel does not reach the end of the loop. *)
Fixpoint main_loop (fuel : nat) (events : list Event) (calls : nat)
    : option Session :=
  match fuel with
  | O => None
  | S fuel' =>
      let '(choice, prompts, rest) := read_choice events in
      let shown0 := print_menu ++ prompts in
      if String.eqb choice "4" then
        Some {| shown := shown0 ++ ["Exiting WinShield."];
                launched := []; stage_codes := []; exit_code := 0 |}
      else
        match STAGES !! choice with
        | Some (label, path) =>
            let '(isfile, launch) := world calls path in
            let '(rc, out) := run_stage isfile launch label path in
            match main_loop fuel' rest (S calls) with
            | Some s =>
                Some {| shown := shown0 ++ out ++ shown s;
                        launched := (if isfile then [path] else [])
                                    ++ launched s;
                        stage_codes := rc :: stage_codes s;
                        exit_code := exit_code s |}
            | None => None
            end
        | None =>
            match main_loop fuel' rest calls with
            | Some s =>
                Some {| shown := shown0
                                 ++ ["[!] Invalid selection." +:+ newline]
                                 ++ shown s;
                        launched := launched s;
                        stage_codes := stage_codes s;
                        exit_code := exit_code s |}
            | None => None
            end
        end
  end.

Definition main (events : list Event) : option Session :=
  main_loop (S (length events)) events 0.

End Stages.

(** The choices that the menu acts on: the texts typed, stripped, that
    are not empty, up to the first "4", interrupt or end of input. *)
Fixpoint choices (events : list Event) : list string :=
  match events with
  | [] => []
  | Interrupt :: _ => []
  | Line text :: rest =>
      if truthy (strip text) then
        if String.eqb (strip text) "4" then []
        else strip text :: choices rest
      else choices rest
  end.

(** The scripts that the choices ask for, in order. *)
Definition requested (in_script_dir : string → string)
    (events : list Event) : list string :=
  omap (fun c => snd <$> STAGES in_script_dir !! c) (choices events).

End Master.

(** ** Occurrences of a KB identifier, and the scripts of a session *)

Module LabelRules.
Import Text Installer.

(** The first character of a text, if any, is no digit. *)
Definition no_digit_ahead (s : string) : Prop :=
  match s with
  | EmptyString => True
  | String a _ => is_digit a = false
  end.

(** An occurrence of the pattern at the head of a text: the letters K
    and B in any case, then [ds], the longest run of digits up to
    eight, which has four at least. *)
Definition kb_head (k b : ascii) (ds post : string) : Prop :=
  lower_char k = "k"%char ∧ lower_char b = "b"%char
  ∧ Catalog.all_chars is_digit ds = true
  ∧ (4 ≤ String.length ds ≤ 8)%nat
  ∧ ((String.length ds < 8)%nat → no_digit_ahead post).

End LabelRules.

Module SessionRules.
Import Master.

(** Of the scripts asked for, those that exist when they are asked
    for, [calls] calls of [run_stage] having been made before. *)
Definition found_scripts (world : nat → string → bool * Launch)
    (calls : nat) (paths : list string) : list string :=
  concat (imap (fun n path => if fst (world (calls + n)%nat path)
                              then [path] else [])
               paths).

End SessionRules.

(** ** The addresses of the download dialog *)

Module Dialog.
Import Text Catalog.

Definition quote : ascii := "034".

(** The longest prefix of [s] without a double quote: what a greedy
    class of the characters other than the double quote takes. *)
Fixpoint unquoted (s : string) : string :=
  match s with
  | EmptyString => EmptyString
  | String a r =>
      if Ascii.eqb a quote then EmptyString else String a (unquoted r)
  end.

(** The text [pat], written in lower case, at the head of [s] without
    regard to case: the text as [s] has it, and what follows it. *)
Fixpoint take_ci (pat s : string) : option (string * string) :=
  match pat with
  | EmptyString => Some (EmptyString, s)
  | String p pat' =>
      match s with
      | EmptyString => None
      | String a r =>
          if Ascii.eqb (lower_char a) p then
            match take_ci pat' r with
            | Some (m, rest) => Some (String a m, rest)
            | None => None
            end
          else None
      end
  end.

(** [https?://] at the head of [s]. *)
Definition scheme_at (s : string) : option (string * string) :=
  match take_ci "https://" s with
  | Some r => Some r
  | None => take_ci "http://" s
  end.

(** [\.(?:msu|cab)] at the head of [s]. *)
Definition ext_at (s : string) : option (string * string) :=
  match take_ci ".msu" s with
  | Some r => Some r
  | None => take_ci ".cab" s
  end.

(** The longest prefix of [run] that ends with an extension, and what
    follows it: the greedy class before the extension gives characters
    back until [\.(?:msu|cab)] matches. *)
Fixpoint upto_last_ext (run : string) : option (string * string) :=
  match run with
  | EmptyString => None
  | String a r =>
      match upto_last_ext r with
      | Some (body, tail) => Some (String a body, tail)
      | None => ext_at run
      end
  end.

(** The optional query, a question mark and the characters up to the
    next double quote, on what follows the extension in the run without
    quote *)
Definition query_of (tail : string) : string :=
  match tail with
  | String a _ => if Ascii.eqb a "?" then tail else EmptyString
  | EmptyString => EmptyString
  end.

(** The match of the pattern of [extract_download_urls] at the head of
    [s]: [https?://], one character at least other than the double
    quote, [\.(?:msu|cab)], and the optional query. *)
Definition url_at (s : string) : option string :=
  match scheme_at s with
  | Some (scheme, rest) =>
      match unquoted rest with
      | String a run =>
          match upto_last_ext run with
          | Some (body, tail) =>
              Some (scheme +:+ String a body +:+ query_of tail)
          | None => None
          end
      | EmptyString => None
      end
  | None => None
  end.

(** [re.findall]: the matches from left to right, the search going on
    where the last match ends; the next [skip] characters are inside
    the last match. *)
Fixpoint findall (skip : nat) (s : string) {struct s} : list string :=
  match s with
  | EmptyString => []
  | String _ r =>
      match skip with
      | S k => findall k r
      | O =>
          match url_at s with
          | Some u => u :: findall (String.length u - 1) r
          | None => findall 0 r
          end
      end
  end.

Definition extract_download_urls (html : string) : list string :=
  keep_first_seen (findall 0 html).

(** An address as the pattern cuts it. *)
Record Address := {
  scheme : string;
  body : string;
  extension : string;
  query : string
}.

Definition text_of (u : Address) : string :=
  scheme u +:+ body u +:+ extension u +:+ query u.

Definition well_formed (u : Address) : Prop :=
  (lower (scheme u) = "http://" ∨ lower (scheme u) = "https://")
  ∧ body u ≠ EmptyString
  ∧ (lower (extension u) = ".msu" ∨ lower (extension u) = ".cab")
  ∧ query u = query_of (query u)
  ∧ Chars.has_char quote (text_of u) = false.

End Dialog.

(** ** winshield_downloader.py: [main] *)

Module DownloaderMain.
Import Text Downloader Scanner Catalog Dialog.

(** The entries of the scan result that [main] reads. *)
Record ScanFile := {
  FileBaseline : option Baseline;
  FileMissingKbs : option (list string);
  FileKbEntries : option (list KbEntry)
}.

(** [{}] as a baseline *)
Definition no_baseline : Baseline :=
  {| OsName := None; DisplayVersion := None;
     Architecture := None; Build := None |}.

(** A text between double quotes *)
Definition quoted (s : string) : string :=
  String quote (s +:+ String quote EmptyString).

(** The value of [updateIDs] in [build_dialog_params] *)
Definition build_dialog_params (update_id : string) : string :=
  "[{" +:+ quoted "size" +:+ ":0," +:+ quoted "languages" +:+ ":"
  +:+ quoted "all" +:+ "," +:+ quoted "uidInfo" +:+ ":" +:+ quoted update_id
  +:+ "," +:+ quoted "updateID" +:+ ":" +:+ quoted update_id +:+ "}]".

(** What [load_scan_result] gives: a RuntimeError when there is no
    scan result file, another exception when the file cannot be read as
    JSON, or the document. *)
Inductive ScanRead :=
| NoScanFile
| UnreadableScan (exception : string)
| ScanLoaded (scan_result : ScanFile).

(** The answer to a request: [fetch_text] returns, or it raises an
    exception. *)
Inductive Answer (A : Type) :=
| Answered (a : A)
| RequestRaised (exception : string).
Arguments Answered {A} a.
Arguments RequestRaised {A} exception.

(** How [download_file] ends on an address: the package is written
    whole; or an exception is raised before anything is written (by the
    request, or by [open]); or an exception is raised once the file is
    open, which leaves the file with what was written so far. *)
Inductive DownloadResult :=
| Downloaded
| FailedBeforeWriting (exception : string)
| FailedWhileWriting (exception : string).

(** What the catalog answers. The search answers with the rows of the
    result table, none when the page has no such table. *)
Record Web := {
  search : string → Answer (list Row);
  download_dialog : string → Answer string;
  download : string → DownloadResult
}.

Inductive Request :=
| Search (q : string)
| DownloadDialog (updateIDs : string)
| Download (url : string).

(** The file that a run leaves in the downloads directory, by its
    name. *)
Inductive Written :=
| NoFile
| PartialFile (name : string)
| WholeFile (name : string).

(** What a run of [main] does: what it prints (one text for each
    [print] and each prompt), the requests that it sends, the file that
    it writes, and how it ends. *)
Record Run := {
  output : list string;
  requests : list Request;
  written : Written;
  outcome : Installer.Ending
}.

Definition stop (output : list string) (requests : list Request)
    (outcome : Installer.Ending) : Run :=
  {| output := output; requests := requests; written := NoFile;
     outcome := outcome |}.

(** [safe_input]: the line typed, the empty text at the end of the
    input; [None] for the interrupt, which it does not catch. *)
Definition safe_input (typed : Input) : option (list N) :=
  match typed with
  | Typed_line text => Some text
  | EndOfInput => Some []
  | InputInterrupted => None
  end.

(** [main]. [u] is the Unicode database, [in_downloads_dir] is
    [os.path.join(DOWNLOADS_DIR, name)], [scan] what [load_scan_result]
    gives, and [typed] what [input] gives. *)
Definition main (u : Unicode) (in_downloads_dir : string → string)
    (scan : ScanRead) (typed : Input) (web : Web) : Run :=
  let p0 := ["[*] Running WinShield downloader"] in
  match scan with
  | NoScanFile => stop p0 [] (Installer.Uncaught "RuntimeError")
  | UnreadableScan exception => stop p0 [] (Installer.Uncaught exception)
  | ScanLoaded scan_result =>
      let constraints :=
        build_constraints (default no_baseline (FileBaseline scan_result)) in
      let missing_items :=
        build_missing_list (default [] (FileMissingKbs scan_result))
                           (default [] (FileKbEntries scan_result)) in
      match missing_items with
      | [] => stop (p0 ++ ["[+] No missing KBs"]) [] (Installer.Exit 0)
      | first :: _ =>
          let p1 :=
            p0 ++ ["=== Missing KBs ==="]
            ++ imap (fun i item =>
                       Py.str_of_int (Z.of_nat i + 1) +:+ ") "
                       +:+ kb_id item +:+ " [" +:+ update_type item +:+ "]")
                    missing_items
            ++ [""; "Select KB: "] in
          match safe_input typed with
          | None => stop p1 [] (Installer.Uncaught "KeyboardInterrupt")
          | Some line =>
          match select u (strip_typed u line) (length missing_items) with
          | InvalidSelection =>
              stop (p1 ++ ["[!] Invalid selection"]) [] (Installer.Exit 1)
          | SelectionValueError =>
              stop p1 [] (Installer.Uncaught "ValueError")
          | SelectionOutOfRange =>
              stop (p1 ++ ["[!] Selection out of range"]) []
                   (Installer.Exit 1)
          | Selected_index i =>
              let kb_id := kb_id (nth i missing_items first) in
              let p2 := p1 ++ ["[*] Searching catalog for " +:+ kb_id] in
              let r1 := [Search kb_id] in
              match search web kb_id with
              | RequestRaised exception =>
                  stop p2 r1 (Installer.Uncaught exception)
              | Answered rows =>
                  let candidates := parse_rows rows in
                  match choose_best_candidate candidates kb_id constraints with
                  | (None, reason) =>
                      stop (p2 ++ ["[!] " +:+ default "None" reason]) r1
                           (Installer.Exit 1)
                  | (Some best, _) =>
                      let p3 := p2 ++ ["[+] Selected: " +:+ title best] in
                      let params := build_dialog_params (update_id best) in
                      let r2 := r1 ++ [DownloadDialog params] in
                      match download_dialog web params with
                      | RequestRaised exception =>
                          stop p3 r2 (Installer.Uncaught exception)
                      | Answered dialog_html =>
                          match extract_download_urls dialog_html with
                          | [] =>
                              stop (p3 ++ ["[!] No download URL found"]) r2
                                   (Installer.Exit 1)
                          | url :: _ =>
                              let r3 := r2 ++ [Download url] in
                              let filename := download_filename url in
                              match download web url with
                              | Downloaded =>
                                  {| output :=
                                       p3 ++ ["[+] Downloaded to "
                                              +:+ in_downloads_dir filename];
                                     requests := r3;
                                     written := WholeFile filename;
                                     outcome := Installer.Exit 0 |}
                              | FailedBeforeWriting exception =>
                                  stop p3 r3 (Installer.Uncaught exception)
                              | FailedWhileWriting exception =>
                                  {| output := p3; requests := r3;
                                     written := PartialFile filename;
                                     outcome := Installer.Uncaught exception |}
                              end
                          end
                      end
                  end
              end
          end
          end
      end
  end.

End DownloaderMain.

(** * Properties *)

(** ** Sorting *)

Module PyProofs.
Import Py.


Section Sorting.
Context {A : Type} (le : A → A → bool).

Lemma insert_sorted_perm x l : insert_sorted le x l ≡ₚ x :: l.
Proof.
  induction l as [|y l IH]; simpl; [done|].
  destruct (le x y); [done|].
  rewrite IH. apply Permutation_swap.
Qed.

Lemma sorted_perm l : sorted le l ≡ₚ l.
Proof.
  induction l as [|x l IH]; simpl; [done|].
  rewrite insert_sorted_perm. by rewrite IH.
Qed.

Lemma sorted_nil_inv l : sorted le l = [] → l = [].
Proof.
  intros H. apply Permutation_nil_r. rewrite <- H. symmetry. apply sorted_perm.
Qed.

Section Order.
Hypothesis le_total : ∀ x y, le x y = false → le y x = true.
Hypothesis le_trans : ∀ x y z, le x y = true → le y z = true → le x z = true.

Lemma insert_sorted_ordered x l :
  StronglySorted (λ a b, le a b = true) l →
  StronglySorted (λ a b, le a b = true) (insert_sorted le x l).
Proof.
  induction 1 as [|y l Hl IH Hy]; simpl.
  - repeat constructor.
  - destruct (le x y) eqn:Hxy.
    + constructor; [by constructor|].
      constructor; [done|].
      eapply Forall_impl; [exact Hy|]. intros z Hz. by eapply le_trans.
    + constructor; [done|].
      rewrite insert_sorted_perm. constructor; [by apply le_total|done].
Qed.

Lemma sorted_ordered l : StronglySorted (λ a b, le a b = true) (sorted le l).
Proof.
  induction l as [|x l IH]; simpl; [constructor|].
  by apply insert_sorted_ordered.
Qed.
End Order.


End Sorting.

End PyProofs.

(** ** The candidate scorer *)

Module DownloaderProofs.
Import Text Pattern Downloader CandidateRules.

Lemma truthy_eqb_10 g :
  truthy g && String.eqb g "windows 10" = String.eqb g "windows 10".
Proof. destruct g; reflexivity. Qed.

Lemma truthy_eqb_11 g :
  truthy g && String.eqb g "windows 11" = String.eqb g "windows 11".
Proof. destruct g; reflexivity. Qed.

Lemma score_version_build_bounds title c score :
  score - 20 ≤ score_version_build title c score ≤ score + 35.
Proof.
  unfold score_version_build.
  repeat case_match; simplify_eq/=; try lia;
    match goal with
    | H : _ && negb ?b = true |- _ =>
        apply andb_true_iff in H as [_ H]; apply negb_true_iff in H; congruence
    end.
Qed.

Lemma score_version_build_no_evidence title c score :
  version_evidence c title = false →
  build_evidence c title = false →
  score_version_build title c score = score.
Proof.
  unfold version_evidence, build_evidence, score_version_build.
  intros Hv Hb.
  destruct (truthy (lower (display_version c))); simpl in *.
  - apply orb_false_iff in Hv as [-> ->]. simpl.
    destruct (truthy (build_major c)); simpl in *; [|done].
    destruct (search_build title); [|done].
    rewrite bool_decide_eq_false in Hb. destruct Hb; eauto.
  - destruct (truthy (build_major c)); simpl in *; [|done].
    destruct (search_build title); [|done].
    rewrite bool_decide_eq_false in Hb. destruct Hb; eauto.
Qed.

(** The scorer, rule by rule: a hard exclusion, or 50 and what the
    generation, architecture, version and build rules add. *)
Lemma score_candidate_unfold candidate kb_id c :
  score_candidate candidate kb_id c =
    let title := lower (title candidate) in
    if hard_excluded candidate kb_id c then -10000
    else score_version_build title c
           (50 + (if names_generation c title then 40 else 0)
               + (if matching_arch_marker c title then 25 else 0)).
Proof.
  unfold score_candidate, hard_excluded, names_target, names_generation,
    names_other_generation, names_server, competing_arch_marker,
    matching_arch_marker.
  cbv zeta.
  rewrite <- !andb_assoc.
  rewrite (andb_assoc (truthy _) (String.eqb _ "windows 10")), truthy_eqb_10.
  rewrite (andb_assoc (truthy _) (String.eqb _ "windows 11")), truthy_eqb_11.
  repeat case_match; simplify_eq/=; try reflexivity; try congruence;
    repeat match goal with
           | H : _ || _ = false |- _ => apply orb_false_iff in H as [? ?]
           | H : _ || _ = true |- _ => apply orb_true_iff in H as [?|?]
           | H : negb _ = true |- _ => apply negb_true_iff in H
           | H : negb _ = false |- _ => apply negb_false_iff in H
           end; simplify_eq/=; try congruence; try (f_equal; lia).
Qed.

(** C3, as stated, fails: a title that names the target, the known
    generation and the matching architecture marker, and shows no version
    or build, is still excluded when it also names a server edition. *)
Lemma score_candidate_full_match_excluded :
  let candidate :=
    plain_candidate
      "Cumulative Update for Windows 10 and Windows Server for x64-based Systems (KB5034127)" in
  let title := lower (title candidate) in
  names_target "KB5034127" title = true
  ∧ names_generation host_22h2 title = true
  ∧ matching_arch_marker host_22h2 title = true
  ∧ version_evidence host_22h2 title = false
  ∧ build_evidence host_22h2 title = false
  ∧ score_candidate candidate "KB5034127" host_22h2 = -10000
  ∧ score_candidate candidate "KB5034127" host_22h2 ≠ 115.
Proof. vm_compute. repeat split; discriminate. Qed.

(** C3, amended: a candidate whose title does not contain the target
    identifier, case-insensitively, scores exactly -10000 whatever its
    other fields and the constraints; a candidate whose title contains the
    target identifier, the known generation and the matching architecture
    marker, shows no display-version and no build-number evidence, and
    triggers none of the hard exclusions (the other generation's label, a
    server marker, a competing architecture marker) scores exactly 115. *)
Theorem score_candidate_missing_target_and_full_match candidate kb_id c :
  let title := lower (title candidate) in
  (names_target kb_id title = false →
   score_candidate candidate kb_id c = -10000)
  ∧ (names_target kb_id title = true →
     names_generation c title = true →
     matching_arch_marker c title = true →
     version_evidence c title = false →
     build_evidence c title = false →
     names_other_generation c title = false →
     names_server c title = false →
     competing_arch_marker c title = false →
     score_candidate candidate kb_id c = 115).
Proof.
  cbv zeta. split.
  - intros H. unfold score_candidate, names_target in *. cbv zeta.
    by rewrite H.
  - intros Ht Hg Ha Hv Hb Ho Hs Hc.
    rewrite score_candidate_unfold. cbv zeta.
    unfold hard_excluded. cbv zeta. rewrite Ht, Ho, Hs, Hc, Hg, Ha. simpl.
    by rewrite score_version_build_no_evidence.
Qed.

Lemma score_candidate_missing_target_and_full_match_witness :
  score_candidate
    (plain_candidate
       "2024-01 Cumulative Update for Windows 10 for x64-based Systems (KB5034122)")
    "KB5034127" host_22h2 = -10000
  ∧ score_candidate
      (plain_candidate
         "2024-01 Cumulative Update for Windows 10 for x64-based Systems (KB5034122)")
      "kb5034122" host_22h2 = 115.
Proof.
  split.
  - apply (proj1 (score_candidate_missing_target_and_full_match
                    (plain_candidate _) "KB5034127" host_22h2)).
    vm_compute. reflexivity.
  - apply (proj2 (score_candidate_missing_target_and_full_match
                    (plain_candidate _) "kb5034122" host_22h2));
      vm_compute; reflexivity.
Defined.

Lemma score_candidate_excluded_or_scored candidate kb_id c :
  (hard_excluded candidate kb_id c = true
   ∧ score_candidate candidate kb_id c = -10000)
  ∨ (hard_excluded candidate kb_id c = false
     ∧ 30 ≤ score_candidate candidate kb_id c ≤ 150).
Proof.
  rewrite score_candidate_unfold. cbv zeta.
  destruct (hard_excluded candidate kb_id c); [left; done | right].
  split; [done|].
  match goal with
  | |- _ ≤ score_version_build ?t ?c ?s ≤ _ =>
      pose proof (score_version_build_bounds t c s)
  end.
  repeat case_match; lia.
Qed.

(** C8: the scorer returns exactly -10000 or at least 30 (and 30 is
    reached), so a score is negative exactly when it is -10000, and the
    candidates that the selector keeps, those with a score of at least 0,
    are exactly those that no hard exclusion rejects. *)
Theorem score_candidate_negative_only_when_excluded kb_id c :
  (∀ candidate,
     score_candidate candidate kb_id c = -10000
     ∨ 30 ≤ score_candidate candidate kb_id c)
  ∧ (∀ candidate,
       score_candidate candidate kb_id c < 0
       ↔ score_candidate candidate kb_id c = -10000)
  ∧ (∀ candidate,
       score_candidate candidate kb_id c = -10000
       ↔ hard_excluded candidate kb_id c = true)
  ∧ (∀ candidates : list CatalogCandidate,
       filter (λ x : ScoredCandidate, 0 ≤ x.1)
              (map (λ x, (score_candidate x kb_id c, x)) candidates)
       = map (λ x, (score_candidate x kb_id c, x))
             (filter (λ x, hard_excluded x kb_id c = false) candidates))
  ∧ score_candidate (plain_candidate "KB5034122 21H2 (19044.1)")
                    "KB5034122" host_22h2 = 30.
Proof.
  split_and!.
  - intros x. destruct (score_candidate_excluded_or_scored x kb_id c); lia.
  - intros x. destruct (score_candidate_excluded_or_scored x kb_id c); lia.
  - intros x.
    destruct (score_candidate_excluded_or_scored x kb_id c) as [[-> ->]|[-> ?]];
      split; (done || lia).
  - intros candidates. induction candidates as [|x l IH]; [done|].
    rewrite map_cons, !filter_cons. simpl.
    destruct (score_candidate_excluded_or_scored x kb_id c) as [[He Hs]|[He Hs]].
    + rewrite !decide_False by (rewrite ?He, ?Hs; (lia || done)). apply IH.
    + rewrite !decide_True by (done || lia). rewrite map_cons. by f_equal.
  - vm_compute. reflexivity.
Qed.



End DownloaderProofs.

(** ** The candidate selector *)

Module SelectorProofs.
Import Downloader CandidateRules Py PyProofs.




(** The head of the ranking is the first of the candidates with the
    highest score. *)
Lemma sort_by_score_desc_head l top rest :
  sort_by_score_desc l = top :: rest →
  ∃ before after,
    l = before ++ top :: after
    ∧ (∀ x : ScoredCandidate, x ∈ before → x.1 < top.1)
    ∧ (∀ x : ScoredCandidate, x ∈ after → x.1 ≤ top.1).
Proof.
  unfold sort_by_score_desc. revert top rest.
  induction l as [|x l IH]; intros top rest; simpl; [done|].
  match goal with
  | |- context [insert_sorted ?f x (sorted ?f l)] =>
      destruct (sorted f l) as [|t r] eqn:Hs
  end; simpl.
  - apply sorted_nil_inv in Hs as ->. intros [= <- <-].
    exists [], []. split_and!; [done|..]; intros y Hy; by apply elem_of_nil in Hy.
  - destruct (IH t r eq_refl) as (before & after & -> & Hb & Ha).
    destruct (t.1 <=? x.1) eqn:Hle.
    + apply Z.leb_le in Hle. intros [= <- <-].
      exists [], (before ++ t :: after). split_and!; [done| |].
      * intros y Hy. by apply elem_of_nil in Hy.
      * intros y [Hy|[->|Hy]%elem_of_cons]%elem_of_app.
        -- specialize (Hb y Hy). lia.
        -- done.
        -- specialize (Ha y Hy). lia.
    + apply Z.leb_gt in Hle. intros [= <- <-].
      exists (x :: before), after. split_and!; [done| |done].
      intros y [->|Hy]%elem_of_cons; [done|by apply Hb].
Qed.

Lemma choose_scored_unfold scored :
  let survivors := filter (λ x : ScoredCandidate, 0 ≤ x.1) scored in
  choose_scored scored =
    match sort_by_score_desc survivors with
    | [] => NoMatch
    | (best_score, best) :: _ =>
        if best_score <? 90 then AmbiguousMatch best_score else Selected best
    end.
Proof.
  cbv zeta. unfold choose_scored.
  destruct (filter _ scored) as [|first rest] eqn:Hf; [done|].
  destruct (sort_by_score_desc (first :: rest)) as [|top l] eqn:Hs; [|done].
  by apply sorted_nil_inv in Hs.
Qed.


End SelectorProofs.


(** ** The month window *)

Module WindowProofs.
Import Text Window Calendar.

Lemma period_of_month_index p : valid_month p → period_of_index (month_index p) = p.
Proof.
  destruct p as [y m]. unfold valid_month, period_of_index, month_index. simpl.
  intros Hm. f_equal; Z.div_mod_to_equations; lia.
Qed.

Lemma month_index_of_period i : month_index (period_of_index i) = i.
Proof.
  unfold period_of_index, month_index. simpl.
  Z.div_mod_to_equations. lia.
Qed.

Lemma period_lt_index a b :
  valid_month a → valid_month b →
  period_lt a b = true ↔ month_index a < month_index b.
Proof.
  destruct a as [ya ma], b as [yb mb].
  unfold valid_month, period_lt, month_index. simpl. intros Ha Hb.
  rewrite orb_true_iff, andb_true_iff, !Z.ltb_lt, Z.eqb_eq. lia.
Qed.

Lemma period_lt_index_false a b :
  valid_month a → valid_month b →
  period_lt a b = false ↔ month_index b ≤ month_index a.
Proof.
  intros Ha Hb. pose proof (period_lt_index a b Ha Hb).
  destruct (period_lt a b); intuition (try discriminate; try lia).
Qed.

Lemma period_eq_spec a b : period_eq a b = true ↔ a = b.
Proof.
  destruct a as [ya ma], b as [yb mb]. unfold period_eq. simpl.
  rewrite andb_true_iff, !Z.eqb_eq. split; [intros [-> ->]; done|].
  by intros [= -> ->].
Qed.

Lemma months_from_lookup i n k p :
  months_from i n !! k = Some p → p = period_of_index (i + Z.of_nat k) ∧ (k < n)%nat.
Proof.
  revert i k. induction n as [|n IH]; intros i k; simpl; [done|].
  destruct k as [|k]; simpl.
  - intros [= <-]. split; [f_equal; lia | lia].
  - intros H. apply IH in H as [-> ?]. split; [f_equal; lia | lia].
Qed.

Lemma months_from_length i n : length (months_from i n) = n.
Proof. revert i. induction n as [|n IH]; intros i; simpl; [done|]. by rewrite IH. Qed.

Lemma months_from_last i n :
  last (months_from i (S n)) = Some (period_of_index (i + Z.of_nat n)).
Proof.
  revert i. induction n as [|n IH]; intros i.
  - simpl. do 2 f_equal. lia.
  - change (months_from i (S (S n)))
      with (period_of_index i :: months_from (i + 1) (S n)).
    rewrite last_cons, IH. simpl. do 2 f_equal. lia.
Qed.

Lemma month_of_abbr_range s names m r :
  month_of_abbr s names m = Some r → m ≤ r < m + Z.of_nat (length names).
Proof.
  revert m. induction names as [|n names IH]; intros m; simpl; [done|].
  destruct (String.eqb _ _).
  - intros [= <-]. lia.
  - intros H. apply IH in H. lia.
Qed.

Lemma strptime_valid s p : strptime s = Some p → valid_month p ∧ truthy s = true.
Proof.
  unfold strptime. intros H.
  repeat case_match; simplify_eq.
  match goal with
  | H : month_of_abbr _ _ _ = Some _ |- _ => apply month_of_abbr_range in H
  end.
  unfold valid_month. simpl in *. split; [lia|done].
Qed.

(** The loop adds to [month_ids] the months from the current one to the
    last, as long as there is room for them. *)
Lemma month_loop_spec end_ max_months fuel :
  valid_month end_ →
  ∀ year month month_ids,
    valid_month (year, month) →
    (Z.to_nat (max_months - Z.of_nat (length month_ids)) < fuel)%nat →
    month_loop fuel end_ max_months year month month_ids =
      Some (month_ids ++
            map strftime
                (take (Z.to_nat (max_months - Z.of_nat (length month_ids)))
                      (month_span (year, month) end_))).
Proof.
  intros Hend. induction fuel as [|fuel IH]; intros year month month_ids Hcur Hfuel;
    [lia|].
  simpl.
  destruct (period_lt end_ (year, month)) eqn:Hlt; simpl.
  { apply period_lt_index in Hlt; [|done..].
    unfold month_span.
    rewrite (Z2Nat.nonpos (month_index end_ - month_index (year, month) + 1))
      by lia.
    simpl. by rewrite take_nil, app_nil_r. }
  apply period_lt_index_false in Hlt; [|done..].
  destruct (max_months <=? Z.of_nat (length month_ids)) eqn:Hmax.
  { apply Z.leb_le in Hmax.
    rewrite (Z2Nat.nonpos (max_months - Z.of_nat (length month_ids))) by lia.
    by rewrite take_0, app_nil_r. }
  apply Z.leb_gt in Hmax.
  assert (Hroom : ∃ k, Z.to_nat (max_months - Z.of_nat (length month_ids)) = S k
                       ∧ Z.to_nat (max_months
                                   - Z.of_nat (length (month_ids ++ [strftime (year, month)]))) = k).
  { exists (Z.to_nat (max_months - Z.of_nat (length month_ids) - 1)).
    rewrite length_app. simpl. lia. }
  destruct Hroom as (k & Hk & Hk').
  assert (Hspan : ∃ n, Z.to_nat (month_index end_ - month_index (year, month) + 1) = S n
                       ∧ Z.to_nat (month_index end_ - (month_index (year, month) + 1) + 1) = n).
  { exists (Z.to_nat (month_index end_ - month_index (year, month))). lia. }
  destruct Hspan as (n & Hn & Hn').
  destruct (period_eq (year, month) end_) eqn:Heq.
  { apply period_eq_spec in Heq. subst end_.
    unfold month_span. rewrite Hk.
    replace (Z.to_nat (month_index (year, month) - month_index (year, month) + 1))
      with 1%nat by lia.
    simpl. rewrite take_nil. by rewrite period_of_month_index. }
  assert (Hstep : ∀ next, valid_month next →
            month_index next = month_index (year, month) + 1 →
            month_loop fuel end_ max_months next.1 next.2
                       (month_ids ++ [strftime (year, month)]) =
            Some (month_ids ++
                  map strftime
                      (take (Z.to_nat (max_months - Z.of_nat (length month_ids)))
                            (month_span (year, month) end_)))).
  { intros next Hnext Hidx. destruct next as [y' m'].
    rewrite IH by (done || lia). simpl. f_equal.
    rewrite Hk, Hk'. unfold month_span. rewrite Hn, Hidx, Hn'. simpl.
    rewrite period_of_month_index by done.
    by rewrite <- app_assoc. }
  destruct (month + 1 =? 13) eqn:H13.
  - apply Z.eqb_eq in H13.
    apply (Hstep (year + 1, 1)); unfold valid_month, month_index in *; simpl in *; lia.
  - apply Z.eqb_neq in H13.
    apply (Hstep (year, month + 1)); unfold valid_month, month_index in *; simpl in *; lia.
Qed.

(** C5: for a baseline collected with elevation that gives a start and an
    end anchor, the builder returns the consecutive months from the start
    to the end, both included and in increasing order, cut after
    [max_months] entries; a start after the end is replaced by the end, so
    that the window is the end month alone. *)
Theorem build_month_ids_from_lcu_window
    fuel now baseline max_months start_id end_id start end_ :
  IsAdmin baseline = true →
  LcuMonthId baseline = Some start_id →
  MsrcLatestMonthId baseline = Some end_id →
  strptime start_id = Some start →
  strptime end_id = Some end_ →
  (Z.to_nat max_months < fuel)%nat →
  let first := if period_lt end_ start then end_ else start in
  let window := take (Z.to_nat max_months) (month_span first end_) in
  build_month_ids_from_lcu fuel now baseline max_months
    = Some (inr (map strftime window))
  ∧ (length window ≤ Z.to_nat max_months)%nat
  ∧ head (month_span first end_) = Some first
  ∧ last (month_span first end_) = Some end_
  ∧ (∀ k p, window !! k = Some p →
            p = period_of_index (month_index first + Z.of_nat k))
  ∧ (∀ k p q, window !! k = Some p → window !! S k = Some q →
              period_lt p q = true ∧ month_index q = month_index p + 1)
  ∧ (period_lt end_ start = true → 0 < max_months → window = [end_]).
Proof.
  intros Hadmin Hs He Hps Hpe Hfuel.
  destruct (strptime_valid _ _ Hps) as [Hvs Hts].
  destruct (strptime_valid _ _ Hpe) as [Hve Hte].
  cbv zeta.
  set (first := if period_lt end_ start then end_ else start).
  assert (Hvf : valid_month first) by (unfold first; by destruct (period_lt _ _)).
  assert (Hle : month_index first ≤ month_index end_).
  { unfold first. destruct (period_lt end_ start) eqn:Hlt; [lia|].
    by apply period_lt_index_false in Hlt. }
  assert (Hspan : ∃ n, Z.to_nat (month_index end_ - month_index first + 1) = S n
                       ∧ month_index first + Z.of_nat n = month_index end_).
  { exists (Z.to_nat (month_index end_ - month_index first)). lia. }
  destruct Hspan as (n & Hn & Hn').
  assert (Hlook : ∀ k p,
            take (Z.to_nat max_months) (month_span first end_) !! k = Some p →
            p = period_of_index (month_index first + Z.of_nat k)).
  { intros k p H. apply lookup_take_Some in H as [H _].
    by apply months_from_lookup in H as [-> _]. }
  split_and!.
  - unfold build_month_ids_from_lcu.
    rewrite Hadmin, Hs, Hts, He. simpl. rewrite Hte, Hpe, Hps.
    fold first. destruct first as [fy fm] eqn:Hfirst. simpl.
    rewrite month_loop_spec by (done || simpl; lia).
    simpl. by rewrite Z.sub_0_r.
  - rewrite length_take. lia.
  - unfold month_span. rewrite Hn. simpl. by rewrite period_of_month_index.
  - unfold month_span. rewrite Hn, months_from_last, Hn'.
    by rewrite period_of_month_index.
  - exact Hlook.
  - intros k p q Hp Hq. apply Hlook in Hp, Hq. subst p q.
    rewrite period_lt_index, !month_index_of_period; [lia| |];
      unfold valid_month, period_of_index; simpl;
      match goal with
      | |- context [?i mod 12] => pose proof (Z.mod_pos_bound i 12)
      end; lia.
  - intros Hlt Hmax. unfold first. rewrite Hlt.
    unfold month_span.
    replace (Z.to_nat (month_index end_ - month_index end_ + 1)) with 1%nat by lia.
    simpl. rewrite period_of_month_index by done.
    destruct (Z.to_nat max_months) eqn:Hm; [lia|]. simpl. by rewrite take_nil.
Qed.

Lemma build_month_ids_from_lcu_window_witness :
  build_month_ids_from_lcu 49 (2030, 1)
    {| IsAdmin := true; LcuMonthId := Some "2023-Jan";
       MsrcLatestMonthId := Some "2023-Apr" |} default_max_months
  = Some (inr ["2023-Jan"; "2023-Feb"; "2023-Mar"; "2023-Apr"])
  ∧ build_month_ids_from_lcu 49 (2030, 1)
      {| IsAdmin := true; LcuMonthId := Some "2024-Feb";
         MsrcLatestMonthId := Some "2023-Nov" |} default_max_months
    = Some (inr ["2023-Nov"]).
Proof.
  split.
  - apply (build_month_ids_from_lcu_window 49 (2030, 1)
             {| IsAdmin := true; LcuMonthId := Some "2023-Jan";
                MsrcLatestMonthId := Some "2023-Apr" |} default_max_months
             "2023-Jan" "2023-Apr" (2023, 1) (2023, 4));
      vm_compute; (reflexivity || lia).
  - apply (build_month_ids_from_lcu_window 49 (2030, 1)
             {| IsAdmin := true; LcuMonthId := Some "2024-Feb";
                MsrcLatestMonthId := Some "2023-Nov" |} default_max_months
             "2024-Feb" "2023-Nov" (2024, 2) (2023, 11));
      vm_compute; (reflexivity || lia).
Defined.

(** C5, as stated, fails: a baseline that has a start and an end
    anchor but was collected without administrative privileges gets no
    window; the builder raises a RuntimeError, whatever the anchors. *)
Lemma build_month_ids_from_lcu_without_elevation :
  let baseline :=
    {| IsAdmin := false; LcuMonthId := Some "2023-Jan";
       MsrcLatestMonthId := Some "2023-Apr" |} in
  strptime "2023-Jan" = Some (2023, 1)
  ∧ strptime "2023-Apr" = Some (2023, 4)
  ∧ (∀ fuel now max_months,
       build_month_ids_from_lcu fuel now baseline max_months
       = Some (inl (RuntimeError
                      "Baseline collected without administrative privileges")))
  ∧ ¬ (∃ fuel now,
         build_month_ids_from_lcu fuel now baseline default_max_months
         = Some (inr ["2023-Jan"; "2023-Feb"; "2023-Mar"; "2023-Apr"])).
Proof.
  cbv zeta. split_and!; [reflexivity|reflexivity|by intros|].
  intros (fuel & now & H). discriminate H.
Qed.

End WindowProofs.

(** ** The record merger *)

Module MergeProofs.
Import Text Scanner MergeRules Py PyProofs.

Lemma elem_of_append_new target value x :
  x ∈ append_new target value ↔ x ∈ target ∨ (x = value ∧ truthy value = true).
Proof.
  unfold append_new.
  destruct (truthy value) eqn:Ht; simpl.
  - destruct (bool_decide (value ∈ target)) eqn:Hin; simpl.
    + apply bool_decide_eq_true in Hin. naive_solver.
    + rewrite elem_of_app, list_elem_of_singleton. naive_solver.
  - naive_solver.
Qed.

Lemma NoDup_append_new target value :
  NoDup target → NoDup (append_new target value).
Proof.
  intros Hnd. unfold append_new.
  destruct (truthy value); simpl; [|done].
  destruct (bool_decide (value ∈ target)) eqn:Hin; simpl; [done|].
  apply bool_decide_eq_false in Hin.
  apply NoDup_app. split_and!; [done| |apply NoDup_singleton].
  intros x Hx ->%list_elem_of_singleton. done.
Qed.

Lemma append_new_prefix target value : target `prefix_of` append_new target value.
Proof.
  unfold append_new. destruct (_ && _); [by apply prefix_app_r|done].
Qed.

Lemma elem_of_foldl_append_new values target x :
  x ∈ foldl append_new target values
  ↔ x ∈ target ∨ (x ∈ values ∧ truthy x = true).
Proof.
  revert target. induction values as [|v values IH]; intros target; simpl.
  - rewrite elem_of_nil. naive_solver.
  - rewrite IH, elem_of_append_new, elem_of_cons. naive_solver.
Qed.

Lemma elem_of_merge_field target values x :
  x ∈ merge_field target values
  ↔ x ∈ target ∨ (x ∈ default [] values ∧ truthy x = true).
Proof. apply elem_of_foldl_append_new. Qed.

Lemma NoDup_merge_field target values :
  NoDup target → NoDup (merge_field target values).
Proof.
  unfold merge_field. generalize (default [] values) as l.
  intros l. revert target. induction l as [|v l IH]; intros target Hnd; simpl;
    [done|].
  by apply IH, NoDup_append_new.
Qed.

Lemma merge_field_prefix target values :
  target `prefix_of` merge_field target values.
Proof.
  unfold merge_field. generalize (default [] values) as l.
  intros l. revert target. induction l as [|v l IH]; intros target; simpl; [done|].
  etrans; [apply append_new_prefix|apply IH].
Qed.

Lemma merge_field_drop_empty target values :
  merge_field target (List.filter truthy <$> values) = merge_field target values.
Proof.
  unfold merge_field. destruct values as [l|]; simpl; [|done].
  revert target. induction l as [|v l IH]; intros target; simpl; [done|].
  destruct (truthy v) eqn:Hv; simpl; [apply IH|].
  assert (append_new target v = target) as -> by (unfold append_new; by rewrite Hv).
  apply IH.
Qed.

Lemma merge_kb_entry_skip existing entry :
  entry_id entry = None → merge_kb_entry existing entry = existing.
Proof.
  unfold entry_id, merge_kb_entry.
  destruct (entry_KB entry) as [k|]; [|done].
  by destruct (truthy k).
Qed.

Lemma merge_kb_entry_lookup existing entry k :
  entry_id entry = Some k →
  ∃ e', merge_kb_entry existing entry !! k = Some e'
        ∧ KB e' = KB (default (fresh k) (existing !! k))
        ∧ UpdateType e' = UpdateType (default (fresh k) (existing !! k))
        ∧ ∀ f, record_field f e' =
               foldl append_new
                     (record_field f (default (fresh k) (existing !! k)))
                     (incoming_field f entry).
Proof.
  unfold entry_id, merge_kb_entry.
  destruct (entry_KB entry) as [k'|] eqn:Hk; [|done].
  destruct (truthy k') eqn:Ht; [|done]. intros [= ->]. simpl.
  eexists. rewrite lookup_insert_eq. split; [done|]. simpl.
  split_and!; [done..|]. intros []; done.
Qed.

Lemma merge_kb_entry_lookup_ne existing entry k :
  entry_id entry ≠ Some k →
  merge_kb_entry existing entry !! k = existing !! k.
Proof.
  unfold entry_id, merge_kb_entry.
  destruct (entry_KB entry) as [k'|] eqn:Hk; [|done].
  destruct (truthy k') eqn:Ht; [|done]. intros Hne. simpl.
  apply lookup_insert_ne. congruence.
Qed.

Lemma merge_kb_entry_elem existing entry k f x :
  (∃ e', merge_kb_entry existing entry !! k = Some e' ∧ x ∈ record_field f e')
  ↔ (∃ e, existing !! k = Some e ∧ x ∈ record_field f e)
    ∨ (entry_id entry = Some k ∧ truthy x = true ∧ x ∈ incoming_field f entry).
Proof.
  destruct (decide (entry_id entry = Some k)) as [Hid|Hid].
  - destruct (merge_kb_entry_lookup existing entry k Hid) as (e1 & He1 & _ & _ & Hf).
    rewrite He1. specialize (Hf f).
    assert (Hin : x ∈ record_field f e1
                  ↔ x ∈ record_field f (default (fresh k) (existing !! k))
                    ∨ (x ∈ incoming_field f entry ∧ truthy x = true)).
    { rewrite Hf. apply elem_of_foldl_append_new. }
    split.
    + intros (e' & [= <-] & Hx). apply Hin in Hx as [Hx|[? ?]]; [|by right].
      destruct (existing !! k) as [e|]; simpl in Hx; [left; eauto|].
      destruct f; simpl in Hx; by apply elem_of_nil in Hx.
    + intros [(e & He & Hx)|(_ & ? & ?)]; exists e1; (split; [done|]); apply Hin.
      * left. by rewrite He.
      * by right.
  - rewrite merge_kb_entry_lookup_ne by done. naive_solver.
Qed.

Lemma merge_kb_entries_elem incoming existing k f x :
  (∃ e', merge_kb_entries existing incoming !! k = Some e' ∧ x ∈ record_field f e')
  ↔ (∃ e, existing !! k = Some e ∧ x ∈ record_field f e)
    ∨ (truthy x = true
       ∧ ∃ entry, entry ∈ incoming ∧ entry_id entry = Some k
                  ∧ x ∈ incoming_field f entry).
Proof.
  revert existing. induction incoming as [|entry rest IH]; intros existing.
  - simpl. split; [by left|]. intros [?|(_ & entry & H%elem_of_nil & _)]; done.
  - change (merge_kb_entries existing (entry :: rest))
      with (merge_kb_entries (merge_kb_entry existing entry) rest).
    rewrite IH, merge_kb_entry_elem. setoid_rewrite elem_of_cons. naive_solver.
Qed.

Lemma merge_kb_entry_keeps existing entry k e :
  existing !! k = Some e →
  ∃ e', merge_kb_entry existing entry !! k = Some e'
        ∧ KB e' = KB e
        ∧ ∀ f, record_field f e `prefix_of` record_field f e'.
Proof.
  intros He. destruct (decide (entry_id entry = Some k)) as [Hid|Hid].
  - destruct (merge_kb_entry_lookup existing entry k Hid) as (e1 & He1 & HKB & _ & Hf).
    rewrite He in HKB, Hf. simpl in HKB, Hf.
    exists e1. split_and!; [done..|]. intros f. rewrite Hf.
    apply (merge_field_prefix _ (Some (incoming_field f entry))).
  - rewrite merge_kb_entry_lookup_ne by done. eauto.
Qed.

Lemma merge_kb_entries_keeps incoming existing k e :
  existing !! k = Some e →
  ∃ e', merge_kb_entries existing incoming !! k = Some e'
        ∧ KB e' = KB e
        ∧ ∀ f, record_field f e `prefix_of` record_field f e'.
Proof.
  revert existing e. induction incoming as [|entry rest IH]; intros existing e He.
  - exists e. eauto.
  - change (merge_kb_entries existing (entry :: rest))
      with (merge_kb_entries (merge_kb_entry existing entry) rest).
    destruct (merge_kb_entry_keeps existing entry k e He) as (e1 & He1 & HKB1 & Hp1).
    destruct (IH _ _ He1) as (e2 & He2 & HKB2 & Hp2).
    exists e2. split_and!; [done|congruence|].
    intros f. etrans; [apply Hp1|apply Hp2].
Qed.

Lemma merge_kb_entry_duplicate_free existing entry :
  duplicate_free existing → duplicate_free (merge_kb_entry existing entry).
Proof.
  intros Hnd k e f.
  destruct (decide (entry_id entry = Some k)) as [Hid|Hid].
  - destruct (merge_kb_entry_lookup existing entry k Hid) as (e1 & He1 & _ & _ & Hf).
    rewrite He1. intros [= <-]. rewrite Hf.
    apply (NoDup_merge_field _ (Some (incoming_field f entry))).
    destruct (existing !! k) as [e0|] eqn:He0; simpl; [by eapply Hnd|].
    destruct f; apply NoDup_nil_2.
  - rewrite merge_kb_entry_lookup_ne by done. apply Hnd.
Qed.

Lemma merge_kb_entries_duplicate_free incoming existing :
  duplicate_free existing → duplicate_free (merge_kb_entries existing incoming).
Proof.
  revert existing. induction incoming as [|entry rest IH]; intros existing Hnd;
    [done|].
  apply IH. by apply merge_kb_entry_duplicate_free.
Qed.

Lemma merge_kb_entries_is_Some incoming existing k :
  is_Some (merge_kb_entries existing incoming !! k)
  ↔ is_Some (existing !! k)
    ∨ ∃ entry, entry ∈ incoming ∧ entry_id entry = Some k.
Proof.
  revert existing. induction incoming as [|entry rest IH]; intros existing.
  - simpl. split; [by left|]. intros [?|(entry & H%elem_of_nil & _)]; done.
  - change (merge_kb_entries existing (entry :: rest))
      with (merge_kb_entries (merge_kb_entry existing entry) rest).
    rewrite IH. setoid_rewrite elem_of_cons.
    destruct (decide (entry_id entry = Some k)) as [Hid|Hid].
    + destruct (merge_kb_entry_lookup existing entry k Hid) as (e1 & He1 & _).
      rewrite He1. naive_solver.
    + rewrite merge_kb_entry_lookup_ne by done. naive_solver.
Qed.

Lemma elem_of_sorted_set l x : x ∈ sorted_set l ↔ x ∈ l.
Proof.
  unfold sorted_set, sorted_str.
  rewrite (sorted_perm String.leb), elem_of_elements. apply elem_of_list_to_set.
Qed.

Lemma NoDup_sorted_set l : NoDup (sorted_set l).
Proof.
  unfold sorted_set, sorted_str.
  rewrite (sorted_perm String.leb). apply NoDup_elements.
Qed.

Lemma sorted_set_nil l : sorted_set l = [] ↔ l = [].
Proof.
  split.
  - intros H. destruct l as [|x l]; [done|].
    assert (Hx : x ∈ sorted_set (x :: l)) by (apply elem_of_sorted_set; left).
    rewrite H in Hx. by apply elem_of_nil in Hx.
  - intros ->. reflexivity.
Qed.

Lemma finalize_fields e :
  (∀ f x, x ∈ record_field f (finalize e) ↔ x ∈ record_field f e)
  ∧ (∀ f, NoDup (record_field f (finalize e)))
  ∧ KB (finalize e) = KB e.
Proof.
  split_and!; [intros [] x; apply elem_of_sorted_set
              |intros []; apply NoDup_sorted_set
              |done].
Qed.

Lemma finalize_classification e :
  UpdateType (finalize e)
  = Some (if bool_decide (Supersedes (finalize e) = [])
          then "Standalone" else "Superseding")
  ∧ (Supersedes (finalize e) = [] ↔ Supersedes e = []).
Proof.
  split; [|apply sorted_set_nil].
  unfold finalize. simpl. by destruct (sorted_set (Supersedes e)).
Qed.

(** C6: merging a batch makes each array field of a record the union of
    what the accumulator held and of the values that the batch brings for
    this identifier (the empty values left out, as C10 says): nothing is
    removed, what was there stays in front in its order, and a field
    without duplicates stays without duplicates. Closing a record keeps
    the values of its fields, without duplicates, and classifies it as
    Superseding exactly when its superseded field is not empty, and as
    Standalone otherwise. The two partial records of X merge into X with
    periods 2024-Feb and 2024-Jan, vulnerability V1, superseded Y and the
    classification Superseding. *)
Theorem merge_kb_entries_union existing incoming :
  let merged := merge_kb_entries existing incoming in
  (∀ k f x,
     (∃ e', merged !! k = Some e' ∧ x ∈ record_field f e')
     ↔ (∃ e, existing !! k = Some e ∧ x ∈ record_field f e)
       ∨ (truthy x = true
          ∧ ∃ entry, entry ∈ incoming ∧ entry_id entry = Some k
                     ∧ x ∈ incoming_field f entry))
  ∧ (∀ k, is_Some (merged !! k)
          ↔ is_Some (existing !! k)
            ∨ ∃ entry, entry ∈ incoming ∧ entry_id entry = Some k)
  ∧ (∀ k e, existing !! k = Some e →
            ∃ e', merged !! k = Some e'
                  ∧ ∀ f, record_field f e `prefix_of` record_field f e')
  ∧ (duplicate_free existing → duplicate_free merged)
  ∧ duplicate_free (merge_kb_entries ∅ incoming)
  ∧ (∀ e,
       (∀ f x, x ∈ record_field f (finalize e) ↔ x ∈ record_field f e)
       ∧ (∀ f, NoDup (record_field f (finalize e)))
       ∧ UpdateType (finalize e)
         = Some (if bool_decide (Supersedes (finalize e) = [])
                 then "Standalone" else "Superseding")
       ∧ (Supersedes (finalize e) = [] ↔ Supersedes e = []))
  ∧ finalize <$> merge_kb_entries ∅ [partial_X_jan; partial_X_feb]
    = {[ "X" := {| KB := "X"; Months := ["2024-Feb"; "2024-Jan"];
                   Cves := ["V1"]; Supersedes := ["Y"];
                   UpdateType := Some "Superseding" |} ]}.
Proof.
  cbv zeta. split_and!.
  - intros k f x. apply merge_kb_entries_elem.
  - intros k. apply merge_kb_entries_is_Some.
  - intros k e He.
    destruct (merge_kb_entries_keeps incoming existing k e He) as (e' & ? & _ & ?).
    eauto.
  - apply merge_kb_entries_duplicate_free.
  - apply merge_kb_entries_duplicate_free. intros k e f H.
    by rewrite lookup_empty in H.
  - intros e. destruct (finalize_fields e) as (? & ? & _).
    destruct (finalize_classification e). done.
  - vm_compute. reflexivity.
Qed.

Lemma merge_kb_entries_union_witness :
  ∃ e', merge_kb_entries
          {[ "X" := {| KB := "X"; Months := ["2024-Jan"]; Cves := ["V1"];
                       Supersedes := []; UpdateType := None |} ]}
          [partial_X_feb] !! "X" = Some e'
        ∧ ∀ f, record_field f {| KB := "X"; Months := ["2024-Jan"];
                                 Cves := ["V1"]; Supersedes := [];
                                 UpdateType := None |}
               `prefix_of` record_field f e'.
Proof.
  apply (proj1 (proj2 (proj2
           (merge_kb_entries_union
              {[ "X" := {| KB := "X"; Months := ["2024-Jan"]; Cves := ["V1"];
                           Supersedes := []; UpdateType := None |} ]}
              [partial_X_feb]))) "X").
  vm_compute. reflexivity.
Defined.

Lemma entry_id_None entry :
  entry_id entry = None ↔ entry_KB entry = None ∨ entry_KB entry = Some "".
Proof.
  unfold entry_id. destruct (entry_KB entry) as [[|a k]|]; simpl; naive_solver.
Qed.

Lemma merge_kb_entry_drop_empty existing entry :
  merge_kb_entry existing (drop_empty_values entry) = merge_kb_entry existing entry.
Proof.
  unfold merge_kb_entry, drop_empty_values. simpl.
  destruct (entry_KB entry) as [k|]; [|done].
  destruct (truthy k); simpl; [|done].
  by rewrite !merge_field_drop_empty.
Qed.

(** C10: an incoming record whose identifier is absent or empty leaves
    the accumulator as it is, so that a batch merges as the batch without
    these records does; an empty value in a periods, vulnerability or
    supersedes array adds nothing, so that a batch merges as the batch
    without its empty values does. The merger is a total function: no
    batch makes it fail. *)
Theorem merge_kb_entries_skips existing incoming :
  (∀ entry, entry_KB entry = None ∨ entry_KB entry = Some "" →
            merge_kb_entry existing entry = existing)
  ∧ merge_kb_entries existing incoming
    = merge_kb_entries existing
        (filter (λ entry, entry_KB entry ≠ None ∧ entry_KB entry ≠ Some "")
                incoming)
  ∧ (∀ target, append_new target "" = target)
  ∧ merge_kb_entries existing incoming
    = merge_kb_entries existing (map drop_empty_values incoming).
Proof.
  split_and!.
  - intros entry H. by apply merge_kb_entry_skip, entry_id_None.
  - revert existing. induction incoming as [|entry rest IH]; intros existing;
      [done|].
    rewrite filter_cons. destruct (decide _) as [Hk|Hk].
    + simpl. apply IH.
    + simpl. rewrite merge_kb_entry_skip; [apply IH|].
      apply entry_id_None.
      destruct (entry_KB entry) as [k|]; [|by left].
      right. f_equal. destruct (decide (k = "")) as [->|]; [done|].
      destruct Hk. split; congruence.
  - done.
  - revert existing. induction incoming as [|entry rest IH]; intros existing;
      [done|].
    simpl. rewrite merge_kb_entry_drop_empty. apply IH.
Qed.

Lemma merge_kb_entries_skips_witness :
  merge_kb_entry
    {[ "X" := {| KB := "X"; Months := ["2024-Jan"]; Cves := ["V1"];
                 Supersedes := []; UpdateType := None |} ]}
    {| entry_KB := Some ""; entry_Months := Some ["2024-Mar"];
       entry_Cves := None; entry_Supersedes := Some ["Z"] |}
  = {[ "X" := {| KB := "X"; Months := ["2024-Jan"]; Cves := ["V1"];
                 Supersedes := []; UpdateType := None |} ]}.
Proof.
  apply (proj1 (merge_kb_entries_skips
                  {[ "X" := {| KB := "X"; Months := ["2024-Jan"]; Cves := ["V1"];
                               Supersedes := []; UpdateType := None |} ]} [])).
  right. reflexivity.
Defined.

End MergeProofs.

(** ** The supersedence resolver *)

Module SupersedenceProofs.
Import Scanner SupersedenceRules Py PyProofs.

(** *** The map of the relation *)

Lemma add_supersedes_lookup m entry k x :
  x ∈ default ∅ (add_supersedes m entry !! k)
  ↔ x ∈ default ∅ (m !! k) ∨ (KB entry = k ∧ x ∈ Supersedes entry).
Proof.
  unfold add_supersedes. revert m.
  induction (Supersedes entry) as [|old olds IH]; intros m; simpl.
  - rewrite elem_of_nil. naive_solver.
  - rewrite IH, elem_of_cons.
    destruct (decide (KB entry = k)) as [->|Hne].
    + rewrite lookup_insert_eq. simpl. set_solver.
    + rewrite lookup_insert_ne by done. naive_solver.
Qed.

Lemma foldl_add_supersedes_lookup kb_entries m k x :
  x ∈ default ∅ (foldl add_supersedes m kb_entries !! k)
  ↔ x ∈ default ∅ (m !! k) ∨ supersedes kb_entries k x.
Proof.
  unfold supersedes. revert m.
  induction kb_entries as [|e l IH]; intros m; simpl.
  - setoid_rewrite elem_of_nil. naive_solver.
  - rewrite IH, add_supersedes_lookup. setoid_rewrite elem_of_cons. naive_solver.
Qed.

Lemma build_supersedes_map_lookup kb_entries k x :
  x ∈ default ∅ (build_supersedes_map kb_entries !! k) ↔ supersedes kb_entries k x.
Proof.
  unfold build_supersedes_map. rewrite foldl_add_supersedes_lookup.
  rewrite lookup_empty. simpl. set_solver.
Qed.

Lemma elem_of_superseded_ids (m : gmap string (gset string)) x :
  x ∈ superseded_ids m ↔ ∃ k olds, m !! k = Some olds ∧ x ∈ olds.
Proof.
  unfold superseded_ids.
  apply (map_fold_weak_ind
           (λ (acc : gset string) (m : gmap string (gset string)),
              x ∈ acc ↔ ∃ k olds, m !! k = Some olds ∧ x ∈ olds)).
  - setoid_rewrite lookup_empty. set_solver.
  - intros k olds m' acc Hfresh IH. rewrite elem_of_union, IH. split.
    + intros [Hx|(k' & olds' & Hk' & Hx)].
      * exists k, olds. by rewrite lookup_insert_eq.
      * exists k', olds'. rewrite lookup_insert_ne by congruence. done.
    + intros (k' & olds' & Hk' & Hx).
      destruct (decide (k = k')) as [->|Hne].
      * rewrite lookup_insert_eq in Hk'. left. congruence.
      * rewrite lookup_insert_ne in Hk' by done. right. eauto.
Qed.

Lemma olds_in_superseded_ids (m : gmap string (gset string)) current x :
  x ∈ elements (default ∅ (m !! current)) → x ∈ superseded_ids m.
Proof.
  rewrite elem_of_elements, elem_of_superseded_ids.
  destruct (m !! current) as [olds|] eqn:Hm; simpl; [eauto|set_solver].
Qed.

(** *** One turn of the loop *)

Lemma visit_spec root w old :
  logical_present (visit root w old) = {[old]} ∪ logical_present w
  ∧ ((old ∈ seen w
      ∧ stack (visit root w old) = stack w
      ∧ seen (visit root w old) = seen w)
     ∨ ((old ∉ seen w)
        ∧ stack (visit root w old) = old :: stack w
        ∧ seen (visit root w old) = {[old]} ∪ seen w)).
Proof.
  unfold visit. destruct (bool_decide (old ∈ seen w)) eqn:Hin; simpl.
  - apply bool_decide_eq_true in Hin. split; [done|by left].
  - apply bool_decide_eq_false in Hin. split; [done|by right].
Qed.

Lemma foldl_visit_spec root olds w :
  ∃ new,
    stack (foldl (visit root) w olds) = new ++ stack w
    ∧ NoDup new
    ∧ (∀ x, x ∈ new → x ∈ olds ∧ x ∉ seen w)
    ∧ seen (foldl (visit root) w olds) = list_to_set new ∪ seen w
    ∧ logical_present (foldl (visit root) w olds)
      = list_to_set olds ∪ logical_present w.
Proof.
  revert w. induction olds as [|old olds IH]; intros w; simpl.
  - exists []. split_and!; [done|constructor|set_solver|set_solver|set_solver].
  - destruct (IH (visit root w old)) as (new & Hst & Hnd & Hnew & Hseen & Hlp).
    destruct (visit_spec root w old) as [Hlp1 [(Hin & Hst1 & Hseen1)|(Hin & Hst1 & Hseen1)]];
      rewrite Hst, Hseen, Hlp, Hlp1, Hst1, Hseen1; rewrite Hseen1 in Hnew.
    + exists new. split_and!; [done|done| |done|set_solver].
      intros x Hx. destruct (Hnew x Hx). split; [by right|done].
    + exists (new ++ [old]). split_and!.
      * by rewrite <- app_assoc.
      * apply NoDup_app. split_and!; [done| |apply NoDup_singleton].
        intros x Hx ->%list_elem_of_singleton.
        destruct (Hnew _ Hx) as [_ Hn]. set_solver.
      * intros x [Hx| ->%list_elem_of_singleton]%elem_of_app.
        -- destruct (Hnew x Hx). split; [by right|set_solver].
        -- split; [by left|done].
      * rewrite list_to_set_app_L. set_solver.
      * set_solver.
Qed.

Lemma expand_spec supersedes_map root w current rest :
  ∃ new,
    stack (expand supersedes_map root w current rest) = new ++ rest
    ∧ NoDup new
    ∧ (∀ x, x ∈ new → x ∈ default ∅ (supersedes_map !! current) ∧ x ∉ seen w)
    ∧ seen (expand supersedes_map root w current rest) = list_to_set new ∪ seen w
    ∧ logical_present (expand supersedes_map root w current rest)
      = default ∅ (supersedes_map !! current) ∪ logical_present w.
Proof.
  unfold expand.
  destruct (foldl_visit_spec root
              (elements (default ∅ (supersedes_map !! current)))
              {| stack := rest; seen := seen w;
                 logical_present := logical_present w;
                 superseded_by := superseded_by w |})
    as (new & Hst & Hnd & Hnew & Hseen & Hlp).
  simpl in *. exists new. split_and!; [done|done| |done|].
  - intros x Hx. destruct (Hnew x Hx) as [Ho ?]. split; [|done].
    by apply elem_of_elements in Ho.
  - rewrite Hlp. by rewrite list_to_set_elements_L.
Qed.

Lemma expand_measure supersedes_map root w current rest :
  stack w = current :: rest →
  S (walk_measure supersedes_map (expand supersedes_map root w current rest))
  = walk_measure supersedes_map w.
Proof.
  intros Hw. unfold walk_measure.
  destruct (expand_spec supersedes_map root w current rest)
    as (new & Hst & Hnd & Hnew & Hseen & _).
  rewrite Hst, Hseen, Hw, length_app. simpl.
  assert (Hsub : list_to_set new ⊆ superseded_ids supersedes_map ∖ seen w).
  { intros x Hx%elem_of_list_to_set. destruct (Hnew x Hx) as [Ho Hs].
    apply elem_of_difference. split; [|done].
    apply (olds_in_superseded_ids _ current). by apply elem_of_elements. }
  assert (Hsize : size (superseded_ids supersedes_map ∖ (list_to_set new ∪ seen w))
                  = (size (superseded_ids supersedes_map ∖ seen w) - length new)%nat).
  { rewrite <- (size_list_to_set (C := gset string) new) by done.
    rewrite <- size_difference by done. f_equal. set_solver. }
  rewrite Hsize.
  pose proof (subseteq_size _ _ Hsub) as Hle.
  rewrite size_list_to_set in Hle by done. lia.
Qed.

(** *** The walk of one root *)

Lemma walk_terminates supersedes_map root fuel w :
  (walk_measure supersedes_map w ≤ fuel)%nat →
  ∃ w' order,
    walk fuel supersedes_map root w = Some w'
    ∧ walk_order fuel supersedes_map root w = Some order.
Proof.
  revert w. induction fuel as [|fuel IH]; intros w Hm.
  - destruct (stack w) as [|current rest] eqn:Hw.
    + exists w, []. simpl. by rewrite Hw.
    + unfold walk_measure in Hm. rewrite Hw in Hm. simpl in Hm. lia.
  - destruct (stack w) as [|current rest] eqn:Hw.
    + exists w, []. simpl. by rewrite Hw.
    + pose proof (expand_measure supersedes_map root w current rest Hw) as He.
      destruct (IH (expand supersedes_map root w current rest)) as (w' & order & Hw' & Ho);
        [lia|].
      exists w', (current :: order). simpl. rewrite Hw, Hw', Ho. done.
Qed.

Lemma walk_grows supersedes_map root fuel w w' :
  walk fuel supersedes_map root w = Some w' →
  logical_present w ⊆ logical_present w'
  ∧ ∀ x, x ∈ stack w → default ∅ (supersedes_map !! x) ⊆ logical_present w'.
Proof.
  revert w. induction fuel as [|fuel IH]; intros w; simpl.
  - destruct (stack w) as [|current rest] eqn:Hw; [|done].
    intros [= <-]. split; [done|]. intros x Hx. by apply elem_of_nil in Hx.
  - destruct (stack w) as [|current rest] eqn:Hw.
    + intros [= <-]. split; [done|]. intros x Hx. by apply elem_of_nil in Hx.
    + intros H. apply IH in H as [Hlp Hst].
      destruct (expand_spec supersedes_map root w current rest)
        as (new & Hst1 & _ & _ & _ & Hlp1).
      rewrite Hlp1 in Hlp. rewrite Hst1 in Hst.
      split; [set_solver|].
      intros x [->|Hx]%elem_of_cons; [set_solver|].
      apply Hst. apply elem_of_app. by right.
Qed.

(** A walk pops no node twice: a node is pushed only when it is not in
    [seen], and it is put in [seen] when it is pushed. *)
Lemma walk_order_NoDup supersedes_map root fuel w order :
  NoDup (stack w) →
  (∀ x, x ∈ stack w → x ∈ seen w) →
  walk_order fuel supersedes_map root w = Some order →
  NoDup order ∧ ∀ x, x ∈ order → x ∈ stack w ∨ x ∉ seen w.
Proof.
  revert w order. induction fuel as [|fuel IH]; intros w order Hnd Hsub; simpl.
  - destruct (stack w) as [|current rest] eqn:Hw; [|done].
    intros [= <-]. split; [constructor|]. intros x Hx. by apply elem_of_nil in Hx.
  - destruct (stack w) as [|current rest] eqn:Hw.
    { intros [= <-]. split; [constructor|]. intros x Hx. by apply elem_of_nil in Hx. }
    destruct (walk_order fuel supersedes_map root _) as [order'|] eqn:Ho; [|done].
    simpl. intros [= <-].
    destruct (expand_spec supersedes_map root w current rest)
      as (new & Hst1 & Hnd1 & Hnew & Hseen1 & _).
    apply NoDup_cons in Hnd as [Hcur Hrest].
    assert (Hcs : current ∈ seen w) by (apply Hsub; left).
    apply IH in Ho as [Hndo Hin].
    + split.
      * apply NoDup_cons. split; [|done]. intros Hc.
        apply Hin in Hc as [Hc|Hc].
        -- rewrite Hst1 in Hc. apply elem_of_app in Hc as [Hc|Hc]; [|done].
           by destruct (Hnew _ Hc).
        -- rewrite Hseen1 in Hc. set_solver.
      * intros x [->|Hx]%elem_of_cons; [left; left|].
        apply Hin in Hx as [Hx|Hx].
        -- rewrite Hst1 in Hx. apply elem_of_app in Hx as [Hx|Hx].
           ++ right. by destruct (Hnew _ Hx).
           ++ left. by right.
        -- right. rewrite Hseen1 in Hx. set_solver.
    + rewrite Hst1. apply NoDup_app. split_and!; [done| |done].
      intros x Hx Hr. destruct (Hnew _ Hx) as [_ Hn]. apply Hn, Hsub. by right.
    + intros x. rewrite Hst1, Hseen1.
      intros [Hx|Hx]%elem_of_app; [set_solver|].
      apply elem_of_union. right. apply Hsub. by right.
Qed.

Lemma start_walk_measure kb_entries root logical_present superseded_by :
  (walk_measure (build_supersedes_map kb_entries)
                (start_walk root logical_present superseded_by)
   ≤ walk_budget kb_entries)%nat.
Proof.
  unfold walk_measure, walk_budget, start_walk. simpl.
  apply le_n_S, subseteq_size. set_solver.
Qed.

(** *** What a walk reaches *)

Lemma foldl_walk_root_None fuel supersedes_map roots :
  foldl (walk_root fuel supersedes_map) None roots = None.
Proof. induction roots as [|r roots IH]; [done|]. simpl. exact IH. Qed.


Section Reach.
Context (supersedes_map : gmap string (gset string)) (R : relation string).
Hypothesis R_map : ∀ x y, y ∈ default ∅ (supersedes_map !! x) ↔ R x y.

Lemma start_walk_inv root lp0 sb0 :
  walk_inv R root lp0 (start_walk root lp0 sb0).
Proof.
  split; simpl.
  - set_solver.
  - set_solver.
  - intros x ->%elem_of_singleton. apply rtc_refl.
  - intros x ->%elem_of_singleton. left. by left.
  - by left.
  - done.
Qed.

Lemma foldl_visit_seen root olds w x :
  x ∈ olds ∨ x ∈ seen w → x ∈ seen (foldl (visit root) w olds).
Proof.
  revert w. induction olds as [|old olds IH]; intros w; simpl.
  - intros [H%elem_of_nil|H]; done.
  - intros H. apply IH.
    destruct (visit_spec root w old) as [_ [(Hin & _ & ->)|(_ & _ & ->)]];
      set_solver.
Qed.

Lemma expand_inv root lp0 w current rest :
  stack w = current :: rest →
  walk_inv R root lp0 w →
  walk_inv R root lp0 (expand supersedes_map root w current rest).
Proof.
  intros Hw [Hroot Hss Hreach Hdone Hsound Hgrow].
  destruct (expand_spec supersedes_map root w current rest)
    as (new & Hst & _ & Hnew & Hseen & Hlp).
  assert (Hcur : rtc R root current) by (apply Hreach, Hss; rewrite Hw; left).
  assert (Hchild : ∀ y, R current y →
            y ∈ seen (expand supersedes_map root w current rest)).
  { intros y Hy. unfold expand. apply foldl_visit_seen. left.
    apply elem_of_elements. by apply R_map. }
  split.
  - rewrite Hseen. set_solver.
  - intros x. rewrite Hst, Hseen. intros [Hx|Hx]%elem_of_app; [set_solver|].
    apply elem_of_union. right. apply Hss. rewrite Hw. by right.
  - intros x. rewrite Hseen. intros [Hx%elem_of_list_to_set|Hx]%elem_of_union;
      [|by apply Hreach].
    destruct (Hnew x Hx) as [Hc _]. eapply rtc_r; [exact Hcur|]. by apply R_map.
  - intros x. rewrite Hseen, Hst, Hlp.
    intros [Hx%elem_of_list_to_set|Hx]%elem_of_union.
    { left. apply elem_of_app. by left. }
    destruct (Hdone x Hx) as [Hx'|Hx'].
    + rewrite Hw in Hx'. apply elem_of_cons in Hx' as [->|Hx'].
      * right. intros y Hy. split.
        -- rewrite <- Hseen. by apply Hchild.
        -- apply elem_of_union. left. by apply R_map.
      * left. apply elem_of_app. by right.
    + right. intros y Hy. destruct (Hx' y Hy). set_solver.
  - intros x. rewrite Hlp. intros [Hx|Hx]%elem_of_union; [|by apply Hsound].
    right. eapply tc_rtc_l; [exact Hcur|]. apply tc_once. by apply R_map.
  - rewrite Hlp. set_solver.
Qed.

Lemma walk_inv_preserved root lp0 fuel w w' :
  walk_inv R root lp0 w →
  walk fuel supersedes_map root w = Some w' →
  walk_inv R root lp0 w' ∧ stack w' = [].
Proof.
  revert w. induction fuel as [|fuel IH]; intros w Hinv; simpl.
  - destruct (stack w) as [|current rest] eqn:Hw; [|done]. by intros [= <-].
  - destruct (stack w) as [|current rest] eqn:Hw; [by intros [= <-]|].
    apply IH. by apply expand_inv.
Qed.

Lemma tc_last_step x z : tc R x z → ∃ y, rtc R x y ∧ R y z.
Proof.
  induction 1 as [x y Hxy|x y z Hxy _ (y' & Hy' & Hz)].
  - exists x. split; [apply rtc_refl|done].
  - exists y'. split; [by eapply rtc_l|done].
Qed.

(** When the walk of [root] ends, the logical-presence set has gained
    exactly what [root] supersedes through a chain. *)
Lemma walk_result root lp0 sb0 fuel w' :
  walk fuel supersedes_map root (start_walk root lp0 sb0) = Some w' →
  ∀ x, x ∈ logical_present w' ↔ x ∈ lp0 ∨ tc R root x.
Proof.
  intros Hwalk.
  destruct (walk_inv_preserved root lp0 fuel _ w' (start_walk_inv root lp0 sb0) Hwalk)
    as [[Hroot Hss Hreach Hdone Hsound Hgrow] Hempty].
  assert (Hclosed : ∀ y, rtc R root y → y ∈ seen w').
  { apply rtc_ind_r; [done|]. intros y z _ Hyz Hy.
    destruct (Hdone y Hy) as [Hst|Hc]; [|by destruct (Hc z Hyz)].
    rewrite Hempty in Hst. by apply elem_of_nil in Hst. }
  intros x. split; [apply Hsound|].
  intros [Hx|Hx]; [by apply Hgrow|].
  apply tc_last_step in Hx as (y & Hy & Hyx).
  destruct (Hdone y (Hclosed y Hy)) as [Hst|Hc]; [|by destruct (Hc x Hyx)].
  rewrite Hempty in Hst. by apply elem_of_nil in Hst.
Qed.

Lemma foldl_walk_root_result fuel roots lp0 sb0 lp sb :
  foldl (walk_root fuel supersedes_map) (Some (lp0, sb0)) roots = Some (lp, sb) →
  ∀ x, x ∈ lp ↔ x ∈ lp0 ∨ ∃ r, r ∈ roots ∧ tc R r x.
Proof.
  revert lp0 sb0. induction roots as [|root roots IH]; intros lp0 sb0; simpl.
  - intros [= <- <-] x. setoid_rewrite elem_of_nil. naive_solver.
  - destruct (walk fuel supersedes_map root (start_walk root lp0 sb0))
      as [w'|] eqn:Hw.
    + intros H x. rewrite (IH _ _ H x), (walk_result root lp0 sb0 fuel w' Hw x).
      setoid_rewrite elem_of_cons. naive_solver.
    + intros H. by rewrite foldl_walk_root_None in H.
Qed.

End Reach.

(** *** The loop over the roots *)

Lemma foldl_walk_root_spec kb_entries fuel roots lp0 sb0 :
  (walk_budget kb_entries ≤ fuel)%nat →
  ∃ lp sb,
    foldl (walk_root fuel (build_supersedes_map kb_entries))
          (Some (lp0, sb0)) roots = Some (lp, sb)
    ∧ lp0 ⊆ lp
    ∧ ∀ r x, r ∈ roots → supersedes kb_entries r x → x ∈ lp.
Proof.
  intros Hfuel. revert lp0 sb0.
  induction roots as [|root roots IH]; intros lp0 sb0.
  - exists lp0, sb0. split_and!; [done..|]. intros r x Hr. by apply elem_of_nil in Hr.
  - simpl.
    destruct (walk_terminates (build_supersedes_map kb_entries) root fuel
                (start_walk root lp0 sb0)) as (w' & order & Hw' & _).
    { etrans; [apply start_walk_measure|done]. }
    rewrite Hw'.
    destruct (IH (logical_present w') (Scanner.superseded_by w'))
      as (lp & sb & Hfold & Hsub & Hroots).
    apply walk_grows in Hw' as [Hlp Hst]. simpl in Hlp, Hst.
    exists lp, sb. split_and!; [done|set_solver|].
    intros r x [->|Hr]%elem_of_cons Hedge; [|by eapply Hroots].
    apply Hsub, (Hst root); [by left|].
    by apply build_supersedes_map_lookup.
Qed.

Lemma compute_supersedence_spec kb_entries installed_kbs fuel :
  (walk_budget kb_entries ≤ fuel)%nat →
  ∃ lp sb,
    compute_supersedence fuel kb_entries installed_kbs = Some (lp, sb)
    ∧ installed_kbs ⊆ lp
    ∧ ∀ r x, r ∈ installed_kbs → supersedes kb_entries r x → x ∈ lp.
Proof.
  intros Hfuel. unfold compute_supersedence.
  destruct (foldl_walk_root_spec kb_entries fuel (elements installed_kbs)
              installed_kbs ∅ Hfuel) as (lp & sb & Hfold & Hsub & Hroots).
  rewrite Hfold. eexists _, _. split_and!; [done..|].
  intros r x Hr. apply Hroots. by apply elem_of_elements.
Qed.

Lemma elem_of_missing kb_entries lp x :
  x ∈ missing kb_entries lp ↔ x ∈ expected kb_entries ∧ x ∉ lp.
Proof.
  unfold missing, sorted_str.
  rewrite (sorted_perm String.leb), elem_of_elements. set_solver.
Qed.

(** C1: the supersedence computation returns, for every list of records
    and every installed set, a logical-presence set that includes the
    installed set; the missing list, made of the known identifiers that
    are not logically present, has no element in the installed set and
    none in the logical-presence set. *)
Theorem compute_supersedence_superset kb_entries installed_kbs fuel :
  (walk_budget kb_entries ≤ fuel)%nat →
  ∃ logical_present superseded_by,
    compute_supersedence fuel kb_entries installed_kbs
      = Some (logical_present, superseded_by)
    ∧ installed_kbs ⊆ logical_present
    ∧ (∀ x, x ∈ missing kb_entries logical_present
            ↔ x ∈ expected kb_entries ∧ x ∉ logical_present)
    ∧ (∀ x, x ∈ missing kb_entries logical_present → x ∉ installed_kbs)
    ∧ (∀ x, x ∈ missing kb_entries logical_present → x ∉ logical_present).
Proof.
  intros Hfuel.
  destruct (compute_supersedence_spec kb_entries installed_kbs fuel Hfuel)
    as (lp & sb & Hc & Hsub & _).
  exists lp, sb. split_and!; [done|done| | |].
  - intros x. apply elem_of_missing.
  - intros x [_ Hx]%elem_of_missing. set_solver.
  - by intros x [_ Hx]%elem_of_missing.
Qed.

Lemma compute_supersedence_superset_witness :
  ∃ logical_present superseded_by,
    compute_supersedence 4 cyclic_entries {["A"; "E"]}
      = Some (logical_present, superseded_by)
    ∧ {["A"; "E"]} ⊆ logical_present
    ∧ (∀ x, x ∈ missing cyclic_entries logical_present
            ↔ x ∈ expected cyclic_entries ∧ x ∉ logical_present)
    ∧ (∀ x, x ∈ missing cyclic_entries logical_present → x ∉ ({["A"; "E"]} : gset string))
    ∧ (∀ x, x ∈ missing cyclic_entries logical_present → x ∉ logical_present).
Proof.
  apply (compute_supersedence_superset cyclic_entries {["A"; "E"]} 4).
  vm_compute. lia.
Defined.

Lemma compute_supersedence_reach kb_entries installed_kbs fuel lp sb :
  compute_supersedence fuel kb_entries installed_kbs = Some (lp, sb) →
  ∀ x, x ∈ lp
       ↔ x ∈ installed_kbs
         ∨ ∃ r, r ∈ installed_kbs ∧ supersedes_chain kb_entries r x.
Proof.
  unfold compute_supersedence.
  destruct (foldl _ _ _) as [[lp' sb']|] eqn:Hfold; [|done].
  intros [= <- _] x.
  rewrite (foldl_walk_root_result (build_supersedes_map kb_entries)
             (supersedes kb_entries) (build_supersedes_map_lookup kb_entries)
             fuel _ _ _ _ _ Hfold x).
  by setoid_rewrite elem_of_elements.
Qed.

(** C2: whatever the supersedes relation, with or without cycles, the
    walk of every root ends, having popped no node twice, and the
    computation returns the installed identifiers together with all that
    they supersede through a chain of records; so when A and B supersede
    each other and A is installed, both A and B are logically present. *)
Theorem compute_supersedence_cycle_safe kb_entries installed_kbs fuel :
  (walk_budget kb_entries ≤ fuel)%nat →
  (∀ root lp0 sb0,
     ∃ w' order,
       walk fuel (build_supersedes_map kb_entries) root (start_walk root lp0 sb0)
         = Some w'
       ∧ walk_order fuel (build_supersedes_map kb_entries) root
                    (start_walk root lp0 sb0) = Some order
       ∧ NoDup order)
  ∧ ∃ logical_present superseded_by,
      compute_supersedence fuel kb_entries installed_kbs
        = Some (logical_present, superseded_by)
      ∧ (∀ x, x ∈ logical_present
              ↔ x ∈ installed_kbs
                ∨ ∃ r, r ∈ installed_kbs ∧ supersedes_chain kb_entries r x)
      ∧ (∀ A B, A ∈ installed_kbs →
                supersedes kb_entries A B → supersedes kb_entries B A →
                A ∈ logical_present ∧ B ∈ logical_present).
Proof.
  intros Hfuel. split.
  - intros root lp0 sb0.
    destruct (walk_terminates (build_supersedes_map kb_entries) root fuel
                (start_walk root lp0 sb0)) as (w' & order & Hw & Ho).
    { etrans; [apply start_walk_measure|done]. }
    exists w', order. split_and!; [done..|].
    eapply walk_order_NoDup; [| |exact Ho]; simpl.
    + apply NoDup_singleton.
    + set_solver.
  - destruct (compute_supersedence_spec kb_entries installed_kbs fuel Hfuel)
      as (lp & sb & Hc & Hsub & Hroots).
    exists lp, sb. split_and!; [done| |].
    + by apply (compute_supersedence_reach kb_entries installed_kbs fuel lp sb).
    + intros A B HA HAB HBA. split; [by apply Hsub|by eapply Hroots].
Qed.

Lemma compute_supersedence_cycle_safe_witness :
  (∀ root lp0 sb0,
     ∃ w' order,
       walk 4 (build_supersedes_map cyclic_entries) root (start_walk root lp0 sb0)
         = Some w'
       ∧ walk_order 4 (build_supersedes_map cyclic_entries) root
                    (start_walk root lp0 sb0) = Some order
       ∧ NoDup order)
  ∧ ∃ logical_present superseded_by,
      compute_supersedence 4 cyclic_entries {["A"]}
        = Some (logical_present, superseded_by)
      ∧ (∀ x, x ∈ logical_present
              ↔ x ∈ ({["A"]} : gset string)
                ∨ ∃ r, r ∈ ({["A"]} : gset string)
                       ∧ supersedes_chain cyclic_entries r x)
      ∧ (∀ A B, A ∈ ({["A"]} : gset string) →
                supersedes cyclic_entries A B → supersedes cyclic_entries B A →
                A ∈ logical_present ∧ B ∈ logical_present).
Proof.
  apply (compute_supersedence_cycle_safe cyclic_entries {["A"]} 4).
  vm_compute. lia.
Defined.

(** The cycle of A and B, evaluated: with A installed, the computation
    ends with A, B and C present, each superseded one put down to A, and
    D missing. *)
Example compute_supersedence_cycle_run :
  compute_supersedence 4 cyclic_entries {["A"]}
  = Some ({["A"; "B"; "C"]},
          {[ "A" := ["A"]; "B" := ["A"]; "C" := ["A"] ]})
  ∧ missing cyclic_entries {["A"; "B"; "C"]} = ["D"].
Proof. split; vm_compute; reflexivity. Qed.

End SupersedenceProofs.

(** ** The correlation reporter *)

Module ReportProofs.
Import Text Scanner Py PyProofs.

Lemma build_kb_index_lookup_None kb_entries k :
  (∀ e, e ∈ kb_entries → KB e ≠ k) → build_kb_index kb_entries !! k = None.
Proof.
  unfold build_kb_index.
  assert (H : ∀ index : gmap string KbEntry,
            index !! k = None →
            (∀ e, e ∈ kb_entries → KB e ≠ k) →
            foldl (λ index entry,
                     if truthy (KB entry) then <[KB entry := entry]> index
                     else index) index kb_entries !! k = None).
  { induction kb_entries as [|e l IH]; intros index Hi Hne; simpl; [done|].
    apply IH.
    - destruct (truthy (KB e)); [|done].
      rewrite lookup_insert_ne; [done|]. apply Hne. by left.
    - intros e' He'. apply Hne. by right. }
  intros Hne. by apply H.
Qed.

Lemma elem_of_all_kbs kb_index installed_kbs logical_present_kbs x :
  x ∈ all_kbs kb_index installed_kbs logical_present_kbs
  ↔ x ∈ dom kb_index ∨ x ∈ installed_kbs ∨ x ∈ logical_present_kbs.
Proof.
  unfold all_kbs, sorted_str.
  rewrite (sorted_perm String.leb), elem_of_elements. set_solver.
Qed.

Lemma or_blank_length l : (1 ≤ length (or_blank l))%nat.
Proof. destruct l; simpl; lia. Qed.

Lemma kb_lines_first kb_index installed_kbs logical_present_kbs superseded_by kb_id :
  ∃ first rest,
    kb_lines kb_index installed_kbs logical_present_kbs superseded_by kb_id
      = first :: rest
    ∧ kb_cell first = kb_id
    ∧ status_cell first
      = kb_status kb_id installed_kbs logical_present_kbs superseded_by
    ∧ type_cell first
      = default "" (UpdateType (default (unmapped_entry kb_id) (kb_index !! kb_id)))
    ∧ ∀ l, l ∈ rest → kb_cell l = "" ∧ status_cell l = "" ∧ type_cell l = "".
Proof.
  unfold kb_lines. cbv zeta.
  set (months := or_blank _). set (cves := or_blank _).
  assert (Hh : ∃ h, (length months `max` length cves)%nat = S h).
  { exists (Nat.pred (length months `max` length cves)).
    pose proof (or_blank_length
                  (Months (default (unmapped_entry kb_id) (kb_index !! kb_id)))).
    fold months in H. lia. }
  destruct Hh as [h ->]. simpl.
  eexists _, _. split_and!; [reflexivity|done..|].
  intros l (i & -> & Hi)%list_elem_of_fmap.
  apply elem_of_seq in Hi. destruct i as [|i]; [lia|]. done.
Qed.

(** C7, as stated, fails: an identifier without a record gets Unmapped in
    its type column only; its period and vulnerability columns are
    blank. *)
Lemma kb_lines_unmapped_columns_blank :
  let lines :=
    kb_lines (build_kb_index []) {["KB5034122"]} {["KB5034122"]} ∅ "KB5034122" in
  build_kb_index [] !! "KB5034122" = None
  ∧ lines = [ {| kb_cell := "KB5034122"; type_cell := "Unmapped";
                 status_cell := "Installed"; month_cell := ""; cve_cell := "" |} ]
  ∧ ¬ (∀ l, l ∈ lines →
            type_cell l = "Unmapped" ∧ month_cell l = "Unmapped"
            ∧ cve_cell l = "Unmapped").
Proof.
  cbv zeta. split_and!; [reflexivity|reflexivity|].
  intros H. specialize (H _ (list_elem_of_here _ _)).
  destruct H as (_ & H & _). vm_compute in H. discriminate.
Qed.

(** C7, amended: the table has a block for every identifier that has a
    record, is installed or is logically present; the status of an
    identifier is Installed when it is installed, otherwise Superseded
    when it is logically present, followed by the list of the roots that
    satisfy it when this list is not empty, and otherwise Missing; an
    identifier without a record has the single line that shows Unmapped
    in the type column and nothing in the period and vulnerability
    columns. *)
Theorem kb_lines_status_precedence
    kb_entries installed_kbs logical_present_kbs superseded_by kb_id :
  let kb_index := build_kb_index kb_entries in
  let status := kb_status kb_id installed_kbs logical_present_kbs superseded_by in
  let lines :=
    kb_lines kb_index installed_kbs logical_present_kbs superseded_by kb_id in
  (∀ x, x ∈ all_kbs kb_index installed_kbs logical_present_kbs
        ↔ x ∈ dom kb_index ∨ x ∈ installed_kbs ∨ x ∈ logical_present_kbs)
  ∧ (∃ first rest,
       lines = first :: rest
       ∧ kb_cell first = kb_id
       ∧ status_cell first = status
       ∧ ∀ l, l ∈ rest → kb_cell l = "" ∧ status_cell l = "" ∧ type_cell l = "")
  ∧ (kb_id ∈ installed_kbs → status = "Installed")
  ∧ (kb_id ∉ installed_kbs → kb_id ∈ logical_present_kbs →
     status = match default [] (superseded_by !! kb_id) with
              | [] => "Superseded"
              | by_ => "Superseded (" +:+ join ", " by_ +:+ ")"
              end)
  ∧ (kb_id ∉ installed_kbs → kb_id ∉ logical_present_kbs → status = "Missing")
  ∧ ((∀ e, e ∈ kb_entries → KB e ≠ kb_id) →
     lines = [ {| kb_cell := kb_id; type_cell := "Unmapped";
                  status_cell := status; month_cell := ""; cve_cell := "" |} ]).
Proof.
  cbv zeta. split_and!.
  - intros x. apply elem_of_all_kbs.
  - destruct (kb_lines_first (build_kb_index kb_entries) installed_kbs
                logical_present_kbs superseded_by kb_id)
      as (first & rest & ? & ? & ? & _ & ?).
    by exists first, rest.
  - intros Hi. unfold kb_status. by rewrite bool_decide_eq_true_2.
  - intros Hi Hl. unfold kb_status.
    by rewrite bool_decide_eq_false_2, bool_decide_eq_true_2.
  - intros Hi Hl. unfold kb_status. by rewrite !bool_decide_eq_false_2.
  - intros Hne. unfold kb_lines.
    by rewrite build_kb_index_lookup_None.
Qed.

Lemma kb_lines_status_precedence_witness :
  kb_status "KB5034122" {["KB5034123"]} {["KB5034123"; "KB5034122"]}
            {[ "KB5034122" := ["KB5034123"] ]}
  = "Superseded (KB5034123)".
Proof.
  etrans.
  - apply (proj1 (proj2 (proj2 (proj2
             (kb_lines_status_precedence [] {["KB5034123"]}
                {["KB5034123"; "KB5034122"]}
                {[ "KB5034122" := ["KB5034123"] ]} "KB5034122")))));
      set_solver.
  - vm_compute. reflexivity.
Defined.

End ReportProofs.

(** ** Chunks of months *)

Module ChunkProofs.
Import Window ScanPipeline.

Section Chunks.
Context {A : Type} (items : list A) (size : nat).
Hypothesis size_pos : (0 < size)%nat.

Lemma range_up_concat fuel i :
  (length items - i ≤ fuel)%nat →
  concat (map (λ i, take size (drop i items)) (range_up fuel i (length items) size)) = drop i items.
Proof.
  revert i. induction fuel as [|fuel IH]; intros i Hfuel; simpl.
  - symmetry. apply drop_ge. lia.
  - destruct (i <? length items)%nat eqn:Hi.
    + apply Nat.ltb_lt in Hi. simpl. rewrite IH by lia.
      rewrite <- (drop_drop items size i).
      apply take_drop.
    + apply Nat.ltb_ge in Hi. simpl. symmetry. by apply drop_ge.
Qed.

Lemma range_up_chunks fuel i chunk :
  chunk ∈ map (λ i, take size (drop i items)) (range_up fuel i (length items) size) →
  (1 ≤ length chunk ≤ size)%nat.
Proof.
  revert i. induction fuel as [|fuel IH]; intros i; simpl.
  - intros H. by apply elem_of_nil in H.
  - destruct (i <? length items)%nat eqn:Hi; simpl.
    + apply Nat.ltb_lt in Hi. intros [->|H]%elem_of_cons; [|by eapply IH].
      rewrite length_take, length_drop. lia.
    + intros H. by apply elem_of_nil in H.
Qed.

(** Every chunk that has a successor is full. *)
Lemma range_up_full fuel i k chunk :
  map (λ i, take size (drop i items)) (range_up fuel i (length items) size) !! k = Some chunk →
  is_Some (map (λ i, take size (drop i items)) (range_up fuel i (length items) size) !! S k) →
  length chunk = size.
Proof.
  revert i k. induction fuel as [|fuel IH]; intros i k; simpl; [done|].
  destruct (i <? length items)%nat eqn:Hi; simpl; [|done].
  destruct k as [|k]; simpl.
  - intros [= <-] [next Hnext].
    destruct fuel as [|fuel]; simpl in Hnext; [done|].
    destruct (i + size <? length items)%nat eqn:Hi'; simpl in Hnext; [|done].
    apply Nat.ltb_lt in Hi'.
    rewrite length_take, length_drop. lia.
  - apply IH.
Qed.

Lemma range_up_nil fuel i stop : (stop ≤ i)%nat → range_up fuel i stop size = [].
Proof.
  intros Hi. destruct fuel as [|fuel]; simpl; [done|].
  by rewrite (proj2 (Nat.ltb_ge i stop) Hi).
Qed.

Lemma range_up_length fuel i :
  (length items - i ≤ fuel)%nat →
  (length (range_up fuel i (length items) size) * size
   < length items - i + size)%nat
  ∧ (length items - i
     ≤ length (range_up fuel i (length items) size) * size)%nat.
Proof.
  revert i. induction fuel as [|fuel IH]; intros i Hfuel; simpl; [lia|].
  destruct (i <? length items)%nat eqn:Hi; simpl.
  - apply Nat.ltb_lt in Hi.
    destruct (decide (length items ≤ i + size)%nat) as [Hlast|Hmore].
    + rewrite range_up_nil by done. simpl. lia.
    + destruct (IH (i + size)%nat) as [H1 H2]; lia.
  - apply Nat.ltb_ge in Hi. lia.
Qed.
End Chunks.

Lemma chunk_list_concat {A} (items : list A) (size : Z) chunks :
  0 < size → chunk_list items size = inr chunks → concat chunks = items.
Proof.
  intros Hsize. unfold chunk_list.
  destruct (size =? 0) eqn:H0; [apply Z.eqb_eq in H0; lia|].
  destruct (size <? 0) eqn:Hneg; [apply Z.ltb_lt in Hneg; lia|].
  intros [= <-].
  rewrite (range_up_concat items (Z.to_nat size)) by lia. reflexivity.
Qed.

(** X1: for a positive size, [chunk_list] cuts the list into consecutive
    pieces: put end to end the chunks give the list back, no chunk is
    empty or longer than the size, every chunk but the last is full, and
    there are as many chunks as the length divided by the size, rounded
    up. *)
Theorem chunk_list_partition {A} (items : list A) (size : Z) :
  0 < size →
  ∃ chunks,
    chunk_list items size = inr chunks
    ∧ concat chunks = items
    ∧ (∀ chunk, chunk ∈ chunks → 1 ≤ Z.of_nat (length chunk) ≤ size)
    ∧ (∀ k chunk, chunks !! k = Some chunk → is_Some (chunks !! S k) →
                  Z.of_nat (length chunk) = size)
    ∧ Z.of_nat (length chunks) = (Z.of_nat (length items) + size - 1) / size.
Proof.
  intros Hsize. unfold chunk_list.
  destruct (size =? 0) eqn:H0; [apply Z.eqb_eq in H0; lia|].
  destruct (size <? 0) eqn:Hneg; [apply Z.ltb_lt in Hneg; lia|].
  assert (Hpos : (0 < Z.to_nat size)%nat) by lia.
  eexists. split; [reflexivity|]. split_and!.
  - rewrite (range_up_concat items (Z.to_nat size) Hpos) by lia. reflexivity.
  - intros chunk Hc.
    apply (range_up_chunks items (Z.to_nat size) Hpos) in Hc. lia.
  - intros k chunk Hk Hnext.
    pose proof (range_up_full items (Z.to_nat size) Hpos _ _ _ _ Hk Hnext). lia.
  - rewrite length_map.
    destruct (range_up_length items (Z.to_nat size) Hpos (length items) 0)
      as [H1 H2]; [lia|].
    remember (Z.to_nat size) as s eqn:Es.
    revert H1 H2.
    generalize (length (range_up (length items) 0 (length items) s)).
    intros n H1 H2.
    assert (Hs : size = Z.of_nat s) by lia.
    clear Es H0 Hneg. subst size.
    apply Z.div_unique_pos
      with (r := Z.of_nat (length items) + Z.of_nat s - 1 - Z.of_nat n * Z.of_nat s);
      nia.
Qed.

Lemma chunk_list_partition_witness :
  ∃ chunks,
    chunk_list ["2023-Jan"; "2023-Feb"; "2023-Mar"; "2023-Apr"] 3 = inr chunks
    ∧ concat chunks = ["2023-Jan"; "2023-Feb"; "2023-Mar"; "2023-Apr"]
    ∧ (∀ chunk, chunk ∈ chunks → 1 ≤ Z.of_nat (length chunk) ≤ 3)
    ∧ (∀ k chunk, chunks !! k = Some chunk → is_Some (chunks !! S k) →
                  Z.of_nat (length chunk) = 3)
    ∧ Z.of_nat (length chunks)
      = (Z.of_nat (length ["2023-Jan"; "2023-Feb"; "2023-Mar"; "2023-Apr"])
         + 3 - 1) / 3.
Proof.
  apply (chunk_list_partition ["2023-Jan"; "2023-Feb"; "2023-Mar"; "2023-Apr"] 3).
  lia.
Defined.

End ChunkProofs.

(** ** The order of strings *)

Module StringOrder.

Lemma ascii_compare_trans_le (a b c : ascii) :
  Ascii.compare a b ≠ Gt → Ascii.compare b c ≠ Gt → Ascii.compare a c ≠ Gt.
Proof.
  unfold Ascii.compare. rewrite !N.compare_gt_iff. lia.
Qed.

Lemma ascii_compare_Eq (a b : ascii) : Ascii.compare a b = Eq ↔ a = b.
Proof.
  split; [apply Ascii.compare_eq_iff|]. intros ->.
  unfold Ascii.compare. apply N.compare_refl.
Qed.

Lemma string_compare_trans_le (a b c : string) :
  String.compare a b ≠ Gt → String.compare b c ≠ Gt → String.compare a c ≠ Gt.
Proof.
  revert b c. induction a as [|x a IH]; intros [|y b] [|z c]; simpl; try done.
  destruct (Ascii.compare x y) eqn:Hxy; [|clear IH|done];
    destruct (Ascii.compare y z) eqn:Hyz; try done.
  - apply ascii_compare_Eq in Hxy, Hyz. subst.
    rewrite (proj2 (ascii_compare_Eq z z) eq_refl). apply IH.
  - apply ascii_compare_Eq in Hxy. subst. by rewrite Hyz.
  - apply ascii_compare_Eq in Hyz. subst. by rewrite Hxy.
  - intros _ _.
    assert (H : Ascii.compare x z = Lt).
    { unfold Ascii.compare in *. rewrite N.compare_lt_iff in *. lia. }
    by rewrite H.
Qed.

Lemma leb_not_Gt (a b : string) : String.leb a b = true ↔ String.compare a b ≠ Gt.
Proof. unfold String.leb. by destruct (String.compare a b). Qed.

Lemma leb_trans (a b c : string) :
  String.leb a b = true → String.leb b c = true → String.leb a c = true.
Proof. rewrite !leb_not_Gt. apply string_compare_trans_le. Qed.

Lemma leb_false_flip (a b : string) : String.leb a b = false → String.leb b a = true.
Proof. destruct (String.leb_total a b); congruence. Qed.

(** [sorted(l)] on strings is in order. *)
Lemma sorted_str_ordered l :
  StronglySorted (λ a b, String.leb a b = true) (Py.sorted_str l).
Proof.
  apply PyProofs.sorted_ordered; [apply leb_false_flip|apply leb_trans].
Qed.

Lemma sorted_str_perm l : Py.sorted_str l ≡ₚ l.
Proof. apply PyProofs.sorted_perm. Qed.

(** Two lists in order with the same elements, none of them twice, are
    the same list. *)
Lemma ordered_unique (l1 l2 : list string) :
  StronglySorted (λ a b, String.leb a b = true) l1 →
  StronglySorted (λ a b, String.leb a b = true) l2 →
  NoDup l1 → NoDup l2 →
  (∀ x, x ∈ l1 ↔ x ∈ l2) → l1 = l2.
Proof.
  intros H1. revert l2. induction H1 as [|x l1 Hs1 IH Hx]; intros l2 H2 N1 N2 Hel.
  - destruct l2 as [|y l2]; [done|]. specialize (Hel y).
    destruct Hel as [_ Hel]. specialize (Hel (list_elem_of_here _ _)).
    by apply elem_of_nil in Hel.
  - destruct H2 as [|y l2 Hs2 Hy].
    { specialize (Hel x). destruct Hel as [Hel _].
      specialize (Hel (list_elem_of_here _ _)). by apply elem_of_nil in Hel. }
    apply NoDup_cons in N1 as [Nx N1]. apply NoDup_cons in N2 as [Ny N2].
    assert (Hxy : x = y).
    { assert (Hxl : x ∈ y :: l2) by (apply Hel; left).
      assert (Hyl : y ∈ x :: l1) by (apply Hel; left).
      apply elem_of_cons in Hxl as [?|Hxl]; [done|].
      apply elem_of_cons in Hyl as [?|Hyl]; [done|].
      rewrite Forall_forall in Hx, Hy.
      apply String.leb_antisym; [by apply Hx|by apply Hy]. }
    subst y. f_equal. apply IH; [done..|].
    intros z. specialize (Hel z). rewrite !elem_of_cons in Hel.
    split; intros Hz.
    + destruct Hel as [Hel _]. destruct (Hel (or_intror Hz)) as [->|?]; done.
    + destruct Hel as [_ Hel]. destruct (Hel (or_intror Hz)) as [->|?]; done.
Qed.

End StringOrder.

(** ** The roots that the resolver records *)

Module SupersededByProofs.
Import Scanner SupersedenceRules SupersededByRules SupersedenceProofs Py PyProofs.

Lemma visit_superseded_by root w old :
  superseded_by (visit root w old)
  = <[old := {[root]} ∪ roots_of (superseded_by w) old]> (superseded_by w).
Proof. unfold visit. by destruct (bool_decide _). Qed.

Lemma foldl_visit_superseded_by root olds w x :
  superseded_by (foldl (visit root) w olds) !! x
  = if decide (x ∈ olds)
    then Some ({[root]} ∪ roots_of (superseded_by w) x)
    else superseded_by w !! x.
Proof.
  revert w. induction olds as [|old olds IH]; intros w.
  - rewrite decide_False; [done|]. apply not_elem_of_nil.
  - change (foldl (visit root) w (old :: olds))
      with (foldl (visit root) (visit root w old) olds).
    rewrite IH, visit_superseded_by. unfold roots_of.
    destruct (decide (x = old)) as [->|Hne].
    + rewrite lookup_insert_eq. simpl.
      rewrite (decide_True (P := old ∈ old :: olds)) by (by left).
      destruct (decide (old ∈ olds)); f_equal; set_solver.
    + rewrite lookup_insert_ne by done.
      destruct (decide (x ∈ olds)) as [Hin|Hin].
      * rewrite decide_True; [done|]. by right.
      * rewrite decide_False; [done|]. rewrite elem_of_cons. naive_solver.
Qed.

Lemma expand_superseded_by supersedes_map root w current rest x :
  superseded_by (expand supersedes_map root w current rest) !! x
  = if decide (x ∈ default ∅ (supersedes_map !! current))
    then Some ({[root]} ∪ roots_of (superseded_by w) x)
    else superseded_by w !! x.
Proof.
  unfold expand. rewrite foldl_visit_superseded_by. simpl.
  destruct (decide (x ∈ elements _)) as [Hin|Hin];
    [rewrite decide_True|rewrite decide_False]; try done;
    by rewrite <- elem_of_elements.
Qed.

Section Roots.
Context (supersedes_map : gmap string (gset string)) (R : relation string).
Hypothesis R_map : ∀ x y, y ∈ default ∅ (supersedes_map !! x) ↔ R x y.

Lemma start_walk_by_inv root lp0 sb0 :
  walk_by_inv R root sb0 (start_walk root lp0 sb0).
Proof.
  exists ∅. split_and!; simpl.
  - set_solver.
  - intros x. by rewrite decide_False by set_solver.
  - intros x ->%elem_of_singleton. left. by left.
Qed.

Lemma expand_by_inv root lp0 sb0 w current rest :
  stack w = current :: rest →
  walk_inv R root lp0 w →
  walk_by_inv R root sb0 w →
  walk_by_inv R root sb0 (expand supersedes_map root w current rest).
Proof.
  intros Hw [_ Hss Hreach _ _ _] (reached & Htc & Hsb & Hdone).
  destruct (expand_spec supersedes_map root w current rest)
    as (new & Hst & _ & _ & Hseen & _).
  assert (Hcur : rtc R root current) by (apply Hreach, Hss; rewrite Hw; left).
  exists (reached ∪ default ∅ (supersedes_map !! current)). split_and!.
  - intros x [Hx|Hx]%elem_of_union; [by apply Htc|].
    eapply tc_rtc_l; [exact Hcur|]. apply tc_once. by apply R_map.
  - intros x. rewrite expand_superseded_by. unfold roots_of. rewrite Hsb.
    destruct (decide (x ∈ default ∅ (supersedes_map !! current))) as [Hc|Hc];
      destruct (decide (x ∈ reached)) as [Hr|Hr]; simpl.
    + rewrite decide_True by set_solver. f_equal. set_solver.
    + rewrite decide_True by set_solver. done.
    + rewrite decide_True by set_solver. done.
    + rewrite decide_False by set_solver. done.
  - intros x. rewrite Hseen, Hst.
    intros [Hx%elem_of_list_to_set|Hx]%elem_of_union.
    { left. apply elem_of_app. by left. }
    destruct (Hdone x Hx) as [Hx'|Hx'].
    + rewrite Hw in Hx'. apply elem_of_cons in Hx' as [->|Hx'].
      * right. intros y Hy. apply elem_of_union. right. by apply R_map.
      * left. apply elem_of_app. by right.
    + right. intros y Hy. apply elem_of_union. left. by apply Hx'.
Qed.

Lemma walk_by_inv_preserved root lp0 sb0 fuel w w' :
  walk_inv R root lp0 w →
  walk_by_inv R root sb0 w →
  walk fuel supersedes_map root w = Some w' →
  walk_inv R root lp0 w' ∧ walk_by_inv R root sb0 w' ∧ stack w' = [].
Proof.
  revert w. induction fuel as [|fuel IH]; intros w Hinv Hby; simpl.
  - destruct (stack w) as [|current rest] eqn:Hw; [|done]. by intros [= <-].
  - destruct (stack w) as [|current rest] eqn:Hw; [by intros [= <-]|].
    apply IH.
    + by apply (expand_inv supersedes_map R R_map).
    + by eapply expand_by_inv.
Qed.

(** When the walk of [root] ends, [root] has been added to the roots of
    exactly the identifiers that it supersedes through a chain. *)
Lemma walk_roots root lp0 sb0 fuel w' :
  walk fuel supersedes_map root (start_walk root lp0 sb0) = Some w' →
  ∃ reached : gset string,
    (∀ x, x ∈ reached ↔ tc R root x)
    ∧ ∀ x, superseded_by w' !! x
           = if decide (x ∈ reached) then Some ({[root]} ∪ roots_of sb0 x)
             else sb0 !! x.
Proof.
  intros Hwalk.
  destruct (walk_by_inv_preserved root lp0 sb0 fuel _ w'
              (start_walk_inv supersedes_map R R_map root lp0 sb0)
              (start_walk_by_inv root lp0 sb0) Hwalk)
    as ([Hroot _ _ Hdone _ _] & (reached & Htc & Hsb & Hdone') & Hempty).
  assert (Hclosed : ∀ y, rtc R root y → y ∈ seen w').
  { apply rtc_ind_r; [done|]. intros y z _ Hyz Hy.
    destruct (Hdone y Hy) as [Hst|Hc]; [|by destruct (Hc z Hyz)].
    rewrite Hempty in Hst. by apply elem_of_nil in Hst. }
  assert (Hall : ∀ x, tc R root x → x ∈ reached).
  { intros x (y & Hy & Hyx)%(tc_last_step R).
    destruct (Hdone' y (Hclosed y Hy)) as [Hst|Hc]; [|by apply Hc].
    rewrite Hempty in Hst. by apply elem_of_nil in Hst. }
  exists reached. split; [|done]. intros x. split; [apply Htc|apply Hall].
Qed.

Lemma foldl_walk_root_roots fuel roots lp0 sb0 lp sb :
  foldl (walk_root fuel supersedes_map) (Some (lp0, sb0)) roots = Some (lp, sb) →
  (∀ x r, r ∈ roots_of sb x
          ↔ r ∈ roots_of sb0 x ∨ (r ∈ roots ∧ tc R r x))
  ∧ (no_empty_value sb0 → no_empty_value sb).
Proof.
  revert lp0 sb0. induction roots as [|root roots IH]; intros lp0 sb0; simpl.
  - intros [= <- <-]. split; [|done]. intros x r.
    setoid_rewrite elem_of_nil. naive_solver.
  - destruct (walk fuel supersedes_map root (start_walk root lp0 sb0))
      as [w'|] eqn:Hw; [|intros H; by rewrite foldl_walk_root_None in H].
    intros H. destruct (IH _ _ H) as [IH1 IH2].
    destruct (walk_roots root lp0 sb0 fuel w' Hw) as (reached & Hreached & Hr).
    split.
    + intros x r. rewrite IH1. unfold roots_of at 1. rewrite Hr.
      setoid_rewrite elem_of_cons. specialize (Hreached x).
      destruct (decide (x ∈ reached)) as [Ht|Ht]; simpl.
      * rewrite elem_of_union, elem_of_singleton. naive_solver.
      * fold (roots_of sb0 x). naive_solver.
    + intros Hne. apply IH2. intros x S. rewrite Hr.
      destruct (decide (x ∈ reached)); [|apply Hne].
      intros [= <-]. set_solver.
Qed.

End Roots.

Lemma elem_of_sorted_roots (m : gmap string (gset string)) x r :
  r ∈ default [] (((λ v : gset string, sorted_str (elements v)) <$> m) !! x)
  ↔ r ∈ roots_of m x.
Proof.
  rewrite lookup_fmap. unfold roots_of.
  destruct (m !! x) as [S|]; simpl.
  - unfold sorted_str. by rewrite (sorted_perm String.leb), elem_of_elements.
  - by rewrite elem_of_nil, elem_of_empty.
Qed.

Lemma compute_supersedence_roots_spec kb_entries installed_kbs fuel :
  (walk_budget kb_entries ≤ fuel)%nat →
  ∃ logical_present superseded_by,
    compute_supersedence fuel kb_entries installed_kbs
      = Some (logical_present, superseded_by)
    ∧ (∀ x r, r ∈ default [] (superseded_by !! x)
              ↔ r ∈ installed_kbs ∧ supersedes_chain kb_entries r x)
    ∧ (∀ x by_, superseded_by !! x = Some by_ →
                by_ ≠ [] ∧ NoDup by_
                ∧ StronglySorted (λ a b, String.leb a b = true) by_)
    ∧ (∀ x, x ∈ logical_present
            ↔ x ∈ installed_kbs ∨ is_Some (superseded_by !! x)).
Proof.
  intros Hfuel. unfold compute_supersedence.
  destruct (foldl_walk_root_spec kb_entries fuel (elements installed_kbs)
              installed_kbs ∅ Hfuel) as (lp & sbs & Hfold & _ & _).
  rewrite Hfold. eexists _, _. split; [reflexivity|].
  destruct (foldl_walk_root_roots (build_supersedes_map kb_entries)
              (supersedes kb_entries) (build_supersedes_map_lookup kb_entries)
              fuel _ _ _ _ _ Hfold) as [Hroots Hne].
  assert (Hne' : no_empty_value sbs).
  { apply Hne. intros x S H. by rewrite lookup_empty in H. }
  assert (Hchar : ∀ x r, r ∈ roots_of sbs x
                         ↔ r ∈ installed_kbs ∧ supersedes_chain kb_entries r x).
  { intros x r. rewrite Hroots. unfold roots_of at 1. rewrite lookup_empty. simpl.
    rewrite elem_of_elements. unfold supersedes_chain. set_solver. }
  split_and!.
  - intros x r. by rewrite elem_of_sorted_roots.
  - intros x by_. rewrite lookup_fmap.
    destruct (sbs !! x) as [S|] eqn:HS; simpl; [|done]. intros [= <-].
    split_and!.
    + intros Hnil. apply (Hne' x S HS).
      apply leibniz_equiv, elements_empty_inv. apply Permutation_nil_r.
      rewrite <- Hnil. symmetry. apply (sorted_perm String.leb).
    + unfold sorted_str. rewrite (sorted_perm String.leb). apply NoDup_elements.
    + apply StringOrder.sorted_str_ordered.
  - intros x.
    rewrite (foldl_walk_root_result (build_supersedes_map kb_entries)
               (supersedes kb_entries) (build_supersedes_map_lookup kb_entries)
               fuel _ _ _ _ _ Hfold x).
    rewrite lookup_fmap, fmap_is_Some.
    setoid_rewrite elem_of_elements. split.
    + intros [?|(r & Hr & Ht)]; [by left|]. right.
      assert (Hx : r ∈ roots_of sbs x) by (by apply Hchar).
      unfold roots_of in Hx. destruct (sbs !! x); [done|]. set_solver.
    + intros [?|[S HS]]; [by left|]. right.
      destruct (set_choose_L S (Hne' x S HS)) as [r Hr].
      assert (Hx : r ∈ roots_of sbs x) by (unfold roots_of; by rewrite HS).
      apply Hchar in Hx as [? ?]. eauto.
Qed.

(** X2: in the map that the resolver returns beside the logical-presence
    set, the list of an identifier holds exactly the installed
    identifiers that supersede it through a chain of records; a list that
    is there is never empty, has no duplicate and is in order; and the
    logically present identifiers are the installed ones and the keys of
    this map. *)
Theorem compute_supersedence_roots kb_entries installed_kbs fuel :
  (walk_budget kb_entries ≤ fuel)%nat →
  ∃ logical_present superseded_by,
    compute_supersedence fuel kb_entries installed_kbs
      = Some (logical_present, superseded_by)
    ∧ (∀ x r, r ∈ default [] (superseded_by !! x)
              ↔ r ∈ installed_kbs ∧ supersedes_chain kb_entries r x)
    ∧ (∀ x by_, superseded_by !! x = Some by_ →
                by_ ≠ [] ∧ NoDup by_
                ∧ StronglySorted (λ a b, String.leb a b = true) by_)
    ∧ (∀ x, x ∈ logical_present
            ↔ x ∈ installed_kbs ∨ is_Some (superseded_by !! x)).
Proof. apply compute_supersedence_roots_spec. Qed.

Lemma compute_supersedence_roots_witness :
  ∃ logical_present superseded_by,
    compute_supersedence 4 cyclic_entries {["A"; "D"]}
      = Some (logical_present, superseded_by)
    ∧ (∀ x r, r ∈ default [] (superseded_by !! x)
              ↔ r ∈ ({["A"; "D"]} : gset string)
                ∧ supersedes_chain cyclic_entries r x)
    ∧ (∀ x by_, superseded_by !! x = Some by_ →
                by_ ≠ [] ∧ NoDup by_
                ∧ StronglySorted (λ a b, String.leb a b = true) by_)
    ∧ (∀ x, x ∈ logical_present
            ↔ x ∈ ({["A"; "D"]} : gset string) ∨ is_Some (superseded_by !! x)).
Proof.
  apply (compute_supersedence_roots cyclic_entries {["A"; "D"]} 4).
  vm_compute. lia.
Defined.

(** X3: in a table that [print_kb_table] prints from what the resolver
    returned, an identifier that is logically present and not installed
    always has the status Superseded followed by the list of its roots,
    which are installed identifiers; the status Superseded without a list
    does not occur. *)
Theorem kb_status_after_compute kb_entries installed_kbs fuel kb_id :
  (walk_budget kb_entries ≤ fuel)%nat →
  ∃ logical_present superseded_by,
    compute_supersedence fuel kb_entries installed_kbs
      = Some (logical_present, superseded_by)
    ∧ (kb_id ∈ logical_present → kb_id ∉ installed_kbs →
       ∃ r by_,
         superseded_by !! kb_id = Some (r :: by_)
         ∧ (∀ r', r' ∈ r :: by_ →
                  r' ∈ installed_kbs ∧ supersedes_chain kb_entries r' kb_id)
         ∧ kb_status kb_id installed_kbs logical_present superseded_by
           = "Superseded (" +:+ Text.join ", " (r :: by_) +:+ ")")
    ∧ (kb_status kb_id installed_kbs logical_present superseded_by = "Missing"
       ↔ kb_id ∉ logical_present).
Proof.
  intros Hfuel.
  destruct (compute_supersedence_roots_spec kb_entries installed_kbs fuel Hfuel)
    as (lp & sb & Hc & Hroots & Hlists & Hlp).
  exists lp, sb. split_and!; [done| |].
  - intros Hin Hni. apply Hlp in Hin as [?|[by_ Hby]]; [done|].
    destruct (Hlists _ _ Hby) as (Hne & _ & _).
    destruct by_ as [|r by_]; [done|]. exists r, by_. split_and!; [done| |].
    + intros r' Hr'. apply Hroots. by rewrite Hby.
    + unfold kb_status.
      rewrite bool_decide_eq_false_2 by done.
      rewrite bool_decide_eq_true_2 by (apply Hlp; right; eauto).
      by rewrite Hby.
  - unfold kb_status.
    destruct (bool_decide (kb_id ∈ installed_kbs)) eqn:Hi.
    + apply bool_decide_eq_true in Hi. split; [done|].
      intros Hn. destruct Hn. apply Hlp. by left.
    + destruct (bool_decide (kb_id ∈ lp)) eqn:Hl.
      * apply bool_decide_eq_true in Hl. split; [|done].
        destruct (default [] (sb !! kb_id)); simpl; discriminate.
      * apply bool_decide_eq_false in Hl. done.
Qed.

Lemma kb_status_after_compute_witness :
  ∃ logical_present superseded_by,
    compute_supersedence 4 cyclic_entries {["A"]}
      = Some (logical_present, superseded_by)
    ∧ ("C" ∈ logical_present → "C" ∉ ({["A"]} : gset string) →
       ∃ r by_,
         superseded_by !! "C" = Some (r :: by_)
         ∧ (∀ r', r' ∈ r :: by_ →
                  r' ∈ ({["A"]} : gset string)
                  ∧ supersedes_chain cyclic_entries r' "C")
         ∧ kb_status "C" {["A"]} logical_present superseded_by
           = "Superseded (" +:+ Text.join ", " (r :: by_) +:+ ")")
    ∧ (kb_status "C" {["A"]} logical_present superseded_by = "Missing"
       ↔ "C" ∉ logical_present).
Proof.
  apply (kb_status_after_compute cyclic_entries {["A"]} 4 "C").
  vm_compute. lia.
Defined.

Lemma add_supersedes_no_empty m entry :
  no_empty_value m → no_empty_value (add_supersedes m entry).
Proof.
  unfold add_supersedes. revert m.
  induction (Supersedes entry) as [|old olds IH]; intros m Hm; simpl; [done|].
  apply IH. intros x S.
  destruct (decide (KB entry = x)) as [->|Hne].
  - rewrite lookup_insert_eq. intros [= <-]. set_solver.
  - rewrite lookup_insert_ne by done. apply Hm.
Qed.

Lemma build_supersedes_map_no_empty kb_entries :
  no_empty_value (build_supersedes_map kb_entries).
Proof.
  unfold build_supersedes_map.
  assert (H : ∀ m, no_empty_value m → no_empty_value (foldl add_supersedes m kb_entries)).
  { induction kb_entries as [|e l IH]; intros m Hm; simpl; [done|].
    by apply IH, add_supersedes_no_empty. }
  apply H. intros x S Hx. by rewrite lookup_empty in Hx.
Qed.

Lemma build_supersedes_map_ext kb_entries1 kb_entries2 :
  (∀ a b, supersedes kb_entries1 a b ↔ supersedes kb_entries2 a b) →
  build_supersedes_map kb_entries1 = build_supersedes_map kb_entries2.
Proof.
  intros Hrel. apply map_eq. intros k.
  pose proof (build_supersedes_map_no_empty kb_entries1) as N1.
  pose proof (build_supersedes_map_no_empty kb_entries2) as N2.
  assert (Hk : ∀ x, x ∈ default ∅ (build_supersedes_map kb_entries1 !! k)
                    ↔ x ∈ default ∅ (build_supersedes_map kb_entries2 !! k)).
  { intros x. by rewrite !build_supersedes_map_lookup. }
  destruct (build_supersedes_map kb_entries1 !! k) as [S1|] eqn:H1;
    destruct (build_supersedes_map kb_entries2 !! k) as [S2|] eqn:H2;
    simpl in Hk.
  - f_equal. set_solver.
  - destruct (set_choose_L S1 (N1 _ _ H1)) as [x Hx]. set_solver.
  - destruct (set_choose_L S2 (N2 _ _ H2)) as [x Hx]. set_solver.
  - done.
Qed.

(** X4: the resolver sees the records only through the relation that
    they describe: two lists of records in which the same identifiers
    supersede the same identifiers, for instance the same records in
    another order or with some of them repeated, give the same result. *)
Theorem compute_supersedence_relation_only
    kb_entries1 kb_entries2 installed_kbs fuel :
  (∀ a b, supersedes kb_entries1 a b ↔ supersedes kb_entries2 a b) →
  compute_supersedence fuel kb_entries1 installed_kbs
  = compute_supersedence fuel kb_entries2 installed_kbs
  ∧ walk_budget kb_entries1 = walk_budget kb_entries2.
Proof.
  intros Hrel. unfold compute_supersedence, walk_budget.
  by rewrite (build_supersedes_map_ext kb_entries1 kb_entries2 Hrel).
Qed.

Lemma supersedes_perm kb_entries1 kb_entries2 :
  kb_entries1 ≡ₚ kb_entries2 →
  ∀ a b, supersedes kb_entries1 a b ↔ supersedes kb_entries2 a b.
Proof.
  intros Hp a b. unfold supersedes. by setoid_rewrite Hp.
Qed.

Lemma compute_supersedence_relation_only_witness :
  compute_supersedence 4 cyclic_entries {["A"]}
  = compute_supersedence 4 (reverse cyclic_entries ++ cyclic_entries) {["A"]}
  ∧ walk_budget cyclic_entries
    = walk_budget (reverse cyclic_entries ++ cyclic_entries).
Proof.
  apply (compute_supersedence_relation_only cyclic_entries
           (reverse cyclic_entries ++ cyclic_entries) {["A"]} 4).
  intros a b. unfold supersedes. split.
  - intros (e & He & H). exists e. split; [|done].
    apply elem_of_app. by right.
  - intros (e & He & H). exists e. split; [|done].
    apply elem_of_app in He as [He|He]; [|done].
    by apply elem_of_reverse in He.
Defined.

End SupersededByProofs.

(** ** From the batches of partial records to the scan result *)

Module ScanProofs.
Import Text Window Scanner MergeRules SupersedenceRules ScanPipeline.
Import Py PyProofs MergeProofs SupersedenceProofs.

Lemma merge_kb_entry_keyed existing entry :
  keyed existing → keyed (merge_kb_entry existing entry).
Proof.
  intros Hk k e.
  destruct (decide (entry_id entry = Some k)) as [Hid|Hid].
  - destruct (merge_kb_entry_lookup existing entry k Hid) as (e1 & He1 & HKB & HUT & _).
    rewrite He1. intros [= <-]. rewrite HKB, HUT.
    destruct (existing !! k) as [e0|] eqn:He0; simpl; [by apply Hk|done].
  - rewrite merge_kb_entry_lookup_ne by done. apply Hk.
Qed.

Lemma merge_kb_entries_keyed incoming existing :
  keyed existing → keyed (merge_kb_entries existing incoming).
Proof.
  revert existing. induction incoming as [|entry rest IH]; intros existing Hk;
    [done|].
  apply IH. by apply merge_kb_entry_keyed.
Qed.

Lemma keyed_empty : keyed ∅.
Proof. intros k e H. by rewrite lookup_empty in H. Qed.

Lemma sorted_set_ext l1 l2 :
  (∀ x, x ∈ l1 ↔ x ∈ l2) → sorted_set l1 = sorted_set l2.
Proof.
  intros H. unfold sorted_set.
  assert (list_to_set l1 = (list_to_set l2 : gset string)) as -> by set_solver.
  done.
Qed.

Lemma finalize_ext e1 e2 :
  KB e1 = KB e2 →
  (∀ f x, x ∈ record_field f e1 ↔ x ∈ record_field f e2) →
  finalize e1 = finalize e2.
Proof.
  intros HKB Hf. unfold finalize. rewrite HKB.
  rewrite (sorted_set_ext (Months e1) (Months e2)) by apply (Hf FMonths).
  rewrite (sorted_set_ext (Cves e1) (Cves e2)) by apply (Hf FCves).
  rewrite (sorted_set_ext (Supersedes e1) (Supersedes e2)) by apply (Hf FSupersedes).
  done.
Qed.

(** X5: the closed records do not depend on the order in which the
    partial records arrive, nor on how often one of them arrives: two
    batches with the same partial records merge, from the empty
    accumulator, into the same closed records. *)
Theorem closed_records_order_free incoming1 incoming2 :
  (∀ entry, entry ∈ incoming1 ↔ entry ∈ incoming2) →
  finalize <$> merge_kb_entries ∅ incoming1
  = finalize <$> merge_kb_entries ∅ incoming2.
Proof.
  intros Hsame. apply map_eq. intros k. rewrite !lookup_fmap.
  pose proof (merge_kb_entries_keyed incoming1 ∅ keyed_empty) as K1.
  pose proof (merge_kb_entries_keyed incoming2 ∅ keyed_empty) as K2.
  pose proof (merge_kb_entries_is_Some incoming1 ∅ k) as S1.
  pose proof (merge_kb_entries_is_Some incoming2 ∅ k) as S2.
  assert (Hel : ∀ f x,
            (∃ e', merge_kb_entries ∅ incoming1 !! k = Some e' ∧ x ∈ record_field f e')
            ↔ (∃ e', merge_kb_entries ∅ incoming2 !! k = Some e' ∧ x ∈ record_field f e')).
  { intros f x. rewrite !merge_kb_entries_elem.
    by setoid_rewrite Hsame. }
  assert (HS : is_Some (merge_kb_entries ∅ incoming1 !! k)
               ↔ is_Some (merge_kb_entries ∅ incoming2 !! k)).
  { rewrite S1, S2. by setoid_rewrite Hsame. }
  destruct (merge_kb_entries ∅ incoming1 !! k) as [e1|] eqn:H1;
    destruct (merge_kb_entries ∅ incoming2 !! k) as [e2|] eqn:H2; simpl.
  - f_equal. apply finalize_ext.
    + destruct (K1 _ _ H1), (K2 _ _ H2). congruence.
    + intros f x. specialize (Hel f x). split; intros Hx.
      * destruct Hel as [Hel _]. destruct Hel as (e' & [= <-] & ?); eauto.
      * destruct Hel as [_ Hel]. destruct Hel as (e' & [= <-] & ?); eauto.
  - destruct HS as [HS _]. destruct HS as [? ?]; [eauto|done].
  - destruct HS as [_ HS]. destruct HS as [? ?]; [eauto|done].
  - done.
Qed.

Lemma closed_records_order_free_witness :
  finalize <$> merge_kb_entries ∅ [partial_X_jan; partial_X_feb]
  = finalize <$> merge_kb_entries ∅ [partial_X_feb; partial_X_jan; partial_X_feb].
Proof.
  apply (closed_records_order_free [partial_X_jan; partial_X_feb]
           [partial_X_feb; partial_X_jan; partial_X_feb]).
  intros entry. rewrite !elem_of_cons, !elem_of_nil. tauto.
Defined.

Lemma tc_ext {A} (R1 R2 : relation A) x y :
  (∀ a b, R1 a b ↔ R2 a b) → tc R1 x y ↔ tc R2 x y.
Proof.
  intros H. split; induction 1 as [a b Hab|a b c Hab _ IH].
  - apply tc_once. by apply H.
  - eapply tc_l; [by apply H|done].
  - apply tc_once. by apply H.
  - eapply tc_l; [by apply H|done].
Qed.

Lemma elem_of_closed_entries merged e :
  e ∈ closed_entries merged ↔ ∃ k e0, merged !! k = Some e0 ∧ e = finalize e0.
Proof.
  unfold closed_entries. rewrite list_elem_of_fmap. split.
  - intros (e0 & -> & He0). apply list_elem_of_fmap in He0 as ([k e0'] & -> & Hk).
    apply elem_of_map_to_list in Hk. eauto.
  - intros (k & e0 & Hk & ->). exists e0. split; [done|].
    apply list_elem_of_fmap. exists (k, e0). split; [done|].
    by apply elem_of_map_to_list.
Qed.

Lemma supersedes_closed_entries incoming a b :
  supersedes (closed_entries (merge_kb_entries ∅ incoming)) a b
  ↔ batch_supersedes incoming a b.
Proof.
  pose proof (merge_kb_entries_keyed incoming ∅ keyed_empty) as K.
  pose proof (merge_kb_entries_elem incoming ∅ a FSupersedes b) as Hel.
  unfold supersedes, batch_supersedes. split.
  - intros (e & (k & e0 & Hk & ->)%elem_of_closed_entries & HKB & Hb).
    destruct (K _ _ Hk) as [HK _]. simpl in HKB. rewrite HK in HKB. subst k.
    apply (elem_of_sorted_set (Supersedes e0)) in Hb.
    destruct Hel as [Hel _].
    destruct Hel as [(? & H & _)|(Ht & entry & ? & ? & ?)]; [by eauto| |by eauto].
    by rewrite lookup_empty in H.
  - intros (entry & He & Hid & Hb & Ht).
    destruct Hel as [_ Hel]. destruct Hel as (e0 & Hk & Hin); [right; eauto|].
    exists (finalize e0). split_and!.
    + apply elem_of_closed_entries. eauto.
    + simpl. by destruct (K _ _ Hk).
    + by apply (elem_of_sorted_set (Supersedes e0)).
Qed.

Lemma expected_closed_entries incoming x :
  x ∈ expected (closed_entries (merge_kb_entries ∅ incoming))
  ↔ ∃ entry, entry ∈ incoming ∧ entry_id entry = Some x.
Proof.
  pose proof (merge_kb_entries_keyed incoming ∅ keyed_empty) as K.
  pose proof (merge_kb_entries_is_Some incoming ∅ x) as HS.
  rewrite lookup_empty in HS.
  unfold expected. rewrite elem_of_list_to_set, list_elem_of_fmap. split.
  - intros (e & Hx & (k & e0 & Hk & ->)%elem_of_closed_entries).
    simpl in Hx. destruct (K _ _ Hk) as [HK _]. rewrite HK in Hx. subst k.
    destruct HS as [HS _]. destruct HS as [[? ?]|?]; [eauto|done|done].
  - intros Hx. destruct HS as [_ HS]. destruct HS as [e0 Hk]; [by right|].
    exists (finalize e0). split; [simpl; by destruct (K _ _ Hk)|].
    apply elem_of_closed_entries. eauto.
Qed.

(** X6: what [main] reports as missing, told from its inputs: when some
    partial record has an identifier, the analysis of the records merged
    from the batches ends, and an identifier is in [MissingKbs] exactly
    when some partial record bears it, it is not installed, and no
    installed identifier supersedes it through a chain of partial
    records; the list is in order and without duplicates, and every saved
    record is classified. When no partial record has an identifier there
    is nothing to analyse. *)
Theorem analyse_missing installed_kbs month_ids months_with_entries incoming :
  match analyse installed_kbs month_ids (merge_kb_entries ∅ incoming)
                months_with_entries with
  | None => ∀ entry, entry ∈ incoming → entry_id entry = None
  | Some (logical_present, superseded_by, result) =>
      (∃ entry, entry ∈ incoming ∧ is_Some (entry_id entry))
      ∧ (∀ x, x ∈ MissingKbs result
              ↔ (∃ entry, entry ∈ incoming ∧ entry_id entry = Some x)
                ∧ (x ∉ installed_kbs)
                ∧ ¬ ∃ r, r ∈ installed_kbs ∧ tc (batch_supersedes incoming) r x)
      ∧ NoDup (MissingKbs result)
      ∧ StronglySorted (λ a b, String.leb a b = true) (MissingKbs result)
      ∧ (∀ e, e ∈ KbEntries result →
              UpdateType e = Some "Superseding" ∧ Supersedes e ≠ []
              ∨ UpdateType e = Some "Standalone" ∧ Supersedes e = [])
      ∧ MonthsRequested result = month_ids
  end.
Proof.
  unfold analyse.
  set (merged := merge_kb_entries ∅ incoming).
  destruct (bool_decide (merged = ∅)) eqn:Hempty.
  - apply bool_decide_eq_true in Hempty. intros entry He.
    destruct (entry_id entry) as [k|] eqn:Hid; [|done].
    assert (HS : is_Some (merged !! k)).
    { apply merge_kb_entries_is_Some. right. eauto. }
    rewrite Hempty, lookup_empty in HS. by destruct HS.
  - apply bool_decide_eq_false in Hempty.
    destruct (compute_supersedence_spec (closed_entries merged) installed_kbs
                (walk_budget (closed_entries merged)) (le_n _))
      as (lp & sb & Hc & _ & _).
    rewrite Hc. simpl.
    pose proof (compute_supersedence_reach _ _ _ _ _ Hc) as Hlp.
    split_and!.
    + apply map_choose in Hempty as (k & e & Hk).
      assert (HS : is_Some (merged !! k)) by eauto.
      apply merge_kb_entries_is_Some in HS as [HS|(entry & ? & Hid)].
      * rewrite lookup_empty in HS. by destruct HS.
      * exists entry. split; [done|]. by rewrite Hid.
    + intros x. rewrite elem_of_missing, Hlp.
      unfold merged. rewrite expected_closed_entries.
      unfold supersedes_chain.
      assert (Htc : ∀ r, tc (supersedes (closed_entries (merge_kb_entries ∅ incoming))) r x
                         ↔ tc (batch_supersedes incoming) r x).
      { intros r. apply tc_ext. intros a b. apply supersedes_closed_entries. }
      setoid_rewrite Htc. tauto.
    + unfold missing, sorted_str. rewrite (sorted_perm String.leb).
      apply NoDup_elements.
    + apply StringOrder.sorted_str_ordered.
    + intros e. unfold sorted_by_KB. rewrite (sorted_perm _).
      intros (k & e0 & _ & ->)%elem_of_closed_entries.
      unfold finalize. simpl.
      destruct (sorted_set (Supersedes e0)); [by right|by left].
    + done.
Qed.

Lemma query_msrc_spec adapter hint chunks merged months merged' months' :
  query_msrc adapter hint chunks merged months = inr (merged', months') →
  ∃ batches,
    Forall2 (answered adapter hint) chunks batches
    ∧ merged' = merge_kb_entries merged (concat batches)
    ∧ months' = months ++ months_of_answers chunks batches.
Proof.
  revert merged months.
  induction chunks as [|chunk chunks IH]; intros merged months; simpl.
  - intros [= <- <-]. exists []. split_and!; [constructor|done|].
    unfold months_of_answers. simpl. by rewrite app_nil_r.
  - destruct (adapter (join "," chunk) hint) as [err|msrc_data] eqn:Ha; [done|].
    destruct (default [] msrc_data) as [|entry entries] eqn:Hd.
    + intros H. apply IH in H as (batches & HF & -> & ->).
      exists ([] :: batches). split_and!; [|done|done].
      constructor; [|done]. exists msrc_data. by rewrite Hd.
    + intros H. apply IH in H as (batches & HF & -> & ->).
      exists ((entry :: entries) :: batches). split_and!.
      * constructor; [|done]. exists msrc_data. by rewrite Hd.
      * unfold merge_kb_entries.
        change (concat ((entry :: entries) :: batches))
          with ((entry :: entries) ++ concat batches).
        by rewrite foldl_app.
      * unfold months_of_answers. simpl. by rewrite <- app_assoc.
Qed.

Lemma months_of_answers_sublist chunks batches :
  months_of_answers chunks batches `sublist_of` concat chunks.
Proof.
  unfold months_of_answers. revert batches.
  induction chunks as [|chunk chunks IH]; intros [|batch batches]; simpl;
    try apply sublist_nil_l.
  destruct (negb (bool_decide (batch = []))); simpl.
  - apply sublist_app; [done|apply IH].
  - apply sublist_inserts_l, IH.
Qed.

(** X7: when the loop over the chunks of months ends without an error of
    the adapter, each chunk was answered by the adapter, the records are
    those merged from all the answers in the order of the chunks, and the
    months with entries are months of the chunks, in their order: with
    the chunks that [main] cuts, three months at a time, they are a
    sublist of the months requested. *)
Theorem query_msrc_collects adapter hint (month_ids : list string) chunks
    merged' months' :
  chunk_list month_ids 3 = inr chunks →
  query_msrc adapter hint chunks ∅ [] = inr (merged', months') →
  ∃ batches,
    Forall2 (answered adapter hint) chunks batches
    ∧ concat chunks = month_ids
    ∧ merged' = merge_kb_entries ∅ (concat batches)
    ∧ months' = months_of_answers chunks batches
    ∧ months' `sublist_of` month_ids.
Proof.
  intros Hchunks Hq.
  pose proof (ChunkProofs.chunk_list_concat month_ids 3 chunks eq_refl Hchunks)
    as Hcat.
  apply query_msrc_spec in Hq as (batches & HF & -> & ->).
  exists batches. split_and!; [done..|].
  simpl. rewrite <- Hcat. apply months_of_answers_sublist.
Qed.

Lemma query_msrc_collects_witness :
  ∃ batches,
    Forall2 (answered january_adapter "Windows 10")
            [["2023-Nov"; "2023-Dec"; "2024-Jan"]; ["2024-Feb"]] batches
    ∧ concat [["2023-Nov"; "2023-Dec"; "2024-Jan"]; ["2024-Feb"]]
      = ["2023-Nov"; "2023-Dec"; "2024-Jan"; "2024-Feb"]
    ∧ merge_kb_entries ∅ [partial_X_jan] = merge_kb_entries ∅ (concat batches)
    ∧ ["2023-Nov"; "2023-Dec"; "2024-Jan"]
      = months_of_answers [["2023-Nov"; "2023-Dec"; "2024-Jan"]; ["2024-Feb"]]
                          batches
    ∧ ["2023-Nov"; "2023-Dec"; "2024-Jan"]
      `sublist_of` ["2023-Nov"; "2023-Dec"; "2024-Jan"; "2024-Feb"].
Proof.
  apply (query_msrc_collects january_adapter "Windows 10"
           ["2023-Nov"; "2023-Dec"; "2024-Jan"; "2024-Feb"]
           [["2023-Nov"; "2023-Dec"; "2024-Jan"]; ["2024-Feb"]]);
    vm_compute; reflexivity.
Defined.

End ScanProofs.

(** ** The lines of the correlation table *)

Module TableProofs.
Import Text Scanner Py PyProofs.

Lemma nth_seq_pad (l : list string) h :
  (length l ≤ h)%nat →
  map (λ i, nth i l "") (seq 0 h) = l ++ replicate (h - length l) "".
Proof.
  revert h. induction l as [|x l IH]; intros h Hh; simpl in *.
  - rewrite Nat.sub_0_r. clear Hh. generalize 0%nat.
    induction h as [|h IHh]; intros n; simpl; [done|].
    rewrite IHh. by destruct n.
  - destruct h as [|h]; [lia|]. simpl. f_equal.
    rewrite <- seq_shift, map_map. apply IH. lia.
Qed.

Lemma length_ljust w s :
  String.length (ljust w s) = (w `max` String.length s)%nat.
Proof.
  unfold ljust.
  assert (Happ : ∀ a b, String.length (a +:+ b)
                        = (String.length a + String.length b)%nat).
  { intros a b. induction a as [|c a IH]; simpl; [done|]. by rewrite IH. }
  assert (Hrep : ∀ n, String.length (string_of_list_ascii (repeat " "%char n)) = n).
  { intros n. induction n as [|n IH]; simpl; [done|]. by rewrite IH. }
  rewrite Happ, Hrep. lia.
Qed.

Lemma build_kb_index_lookup_Some kb_entries k e :
  build_kb_index kb_entries !! k = Some e → e ∈ kb_entries ∧ KB e = k.
Proof.
  unfold build_kb_index.
  assert (H : ∀ index : gmap string KbEntry,
            (∀ k e, index !! k = Some e → e ∈ kb_entries ∧ KB e = k) →
            ∀ l, (∀ e, e ∈ l → e ∈ kb_entries) →
            ∀ k e,
              foldl (λ index entry,
                       if truthy (KB entry) then <[KB entry := entry]> index
                       else index) index l !! k = Some e →
              e ∈ kb_entries ∧ KB e = k).
  { intros index Hi l. revert index Hi.
    induction l as [|e0 l IH]; intros index Hi Hl k' e'; simpl; [apply Hi|].
    apply IH; [|intros e1 He1; apply Hl; by right].
    intros k1 e1. destruct (truthy (KB e0)); [|apply Hi].
    destruct (decide (KB e0 = k1)) as [<-|Hne].
    - rewrite lookup_insert_eq. intros [= <-]. split; [|done]. apply Hl. by left.
    - rewrite lookup_insert_ne by done. apply Hi. }
  apply (H ∅); [|done].
  intros k' e' Hk. by rewrite lookup_empty in Hk.
Qed.

(** X8: the table has one block for each identifier that has a record,
    is installed or is logically present, and the blocks come in the
    order of the identifiers, none of them twice. The block of an
    identifier has as many lines as the longer of its lists of periods
    and of vulnerabilities, and at least one; its period cells are the
    periods of the record in their order, followed by blank cells, and
    its vulnerability cells are the vulnerabilities in their order,
    followed by blank cells: nothing of the record is left out. The
    record shown is a record of the list that bears this identifier. *)
Theorem kb_lines_block kb_entries installed_kbs logical_present_kbs
    superseded_by kb_id :
  let kb_index := build_kb_index kb_entries in
  let ids := all_kbs kb_index installed_kbs logical_present_kbs in
  let entry := default (unmapped_entry kb_id) (kb_index !! kb_id) in
  let lines :=
    kb_lines kb_index installed_kbs logical_present_kbs superseded_by kb_id in
  NoDup ids
  ∧ StronglySorted (λ a b, String.leb a b = true) ids
  ∧ (entry = unmapped_entry kb_id ∨ entry ∈ kb_entries ∧ KB entry = kb_id)
  ∧ length lines
    = ((1 `max` length (Months entry)) `max` length (Cves entry))%nat
  ∧ map month_cell lines
    = or_blank (Months entry)
      ++ replicate (length lines - length (or_blank (Months entry))) ""
  ∧ map cve_cell lines
    = or_blank (Cves entry)
      ++ replicate (length lines - length (or_blank (Cves entry))) ""
  ∧ ∀ l, l ∈ lines →
         String.length (format_line l)
         = ((11 `max` String.length (kb_cell l))
            + (12 `max` String.length (type_cell l))
            + (40 `max` String.length (status_cell l))
            + (20 `max` String.length (month_cell l))
            + String.length (cve_cell l) + 4)%nat.
Proof.
  cbv zeta.
  assert (Hlen : ∀ m c : list string,
            (length (or_blank m) `max` length (or_blank c))%nat
            = ((1 `max` length m) `max` length c)%nat).
  { intros [|? ?] [|? ?]; simpl; lia. }
  split_and!.
  - unfold all_kbs, sorted_str. rewrite (sorted_perm String.leb).
    apply NoDup_elements.
  - apply StringOrder.sorted_str_ordered.
  - destruct (build_kb_index kb_entries !! kb_id) as [e|] eqn:He; simpl;
      [right|by left].
    by apply build_kb_index_lookup_Some.
  - unfold kb_lines. cbv zeta. rewrite length_map, length_seq. apply Hlen.
  - unfold kb_lines. cbv zeta. rewrite length_map, length_seq, map_map. simpl.
    apply nth_seq_pad. lia.
  - unfold kb_lines. cbv zeta. rewrite length_map, length_seq, map_map. simpl.
    apply nth_seq_pad. lia.
  - intros l _. unfold format_line.
    assert (Happ : ∀ a b, String.length (a +:+ b)
                          = (String.length a + String.length b)%nat).
    { intros a b. induction a as [|c a IH]; simpl; [done|]. by rewrite IH. }
    rewrite !Happ, !length_ljust. simpl. lia.
Qed.

End TableProofs.

(** ** Month identifiers and the failures of the window builder *)

Module WindowMoreProofs.
Import Text Window Calendar WindowProofs.

Lemma digit_char_ok d :
  0 ≤ d ≤ 9 → is_digit (digit_char d) = true ∧ digit_value (digit_char d) = d.
Proof.
  intros Hd.
  assert (H : d = 0 ∨ d = 1 ∨ d = 2 ∨ d = 3 ∨ d = 4 ∨ d = 5 ∨ d = 6 ∨ d = 7
              ∨ d = 8 ∨ d = 9) by lia.
  destruct H as [->|[->|[->|[->|[->|[->|[->|[->|[->| ->]]]]]]]]];
    split; reflexivity.
Qed.

(** X9: a month written as [%Y-%b] reads back as the same month: for a
    year from 1000 to 9999 and a month from 1 to 12, [strptime] of
    [strftime] gives the month back. *)
Theorem strptime_strftime p :
  1000 ≤ p.1 ≤ 9999 → 1 ≤ p.2 ≤ 12 → strptime (strftime p) = Some p.
Proof.
  destruct p as [y m]. simpl. intros Hy Hm.
  unfold strftime, year_text. cbn [fst snd].
  cbn [String.append]. unfold strptime.
  destruct (digit_char_ok (y / 1000 mod 10)) as [D1 V1];
    [pose proof (Z.mod_pos_bound (y / 1000) 10); lia|].
  destruct (digit_char_ok (y / 100 mod 10)) as [D2 V2];
    [pose proof (Z.mod_pos_bound (y / 100) 10); lia|].
  destruct (digit_char_ok (y / 10 mod 10)) as [D3 V3];
    [pose proof (Z.mod_pos_bound (y / 10) 10); lia|].
  destruct (digit_char_ok (y mod 10)) as [D4 V4];
    [pose proof (Z.mod_pos_bound y 10); lia|].
  rewrite D1, D2, D3, D4, V1, V2, V3, V4.
  change (Ascii.eqb "-" "-") with true. cbn [andb].
  assert (Hyear : 1000 * (y / 1000 mod 10) + 100 * (y / 100 mod 10)
                  + 10 * (y / 10 mod 10) + y mod 10 = y).
  { Z.div_mod_to_equations. lia. }
  rewrite Hyear.
  destruct (y =? 0) eqn:H0; [apply Z.eqb_eq in H0; lia|].
  clear -Hm.
  assert (H : m = 1 ∨ m = 2 ∨ m = 3 ∨ m = 4 ∨ m = 5 ∨ m = 6 ∨ m = 7 ∨ m = 8
              ∨ m = 9 ∨ m = 10 ∨ m = 11 ∨ m = 12) by lia.
  destruct H as [->|[->|[->|[->|[->|[->|[->|[->|[->|[->|[->| ->]]]]]]]]]]];
    reflexivity.
Qed.

Lemma strptime_strftime_witness : strptime (strftime (2024, 2)) = Some (2024, 2).
Proof. apply (strptime_strftime (2024, 2)); simpl; lia. Defined.

(** X10: what the window builder answers, for any baseline: without
    elevation a RuntimeError, whatever the anchors; else without a start
    anchor, absent or empty, a RuntimeError; else, when the start anchor
    or a given end anchor does not read as a month, a ValueError; else
    the months from the start, or from the end when the start is after
    it, to the end, where the end is the current month when no end anchor
    is given, cut after [max_months] entries. The list is never longer
    than [max_months], and not empty when [max_months] is at least 1. *)
Theorem build_month_ids_from_lcu_outcome fuel now baseline max_months :
  valid_month now →
  (Z.to_nat max_months < fuel)%nat →
  let start_id := default "" (LcuMonthId baseline) in
  let end_id := default "" (MsrcLatestMonthId baseline) in
  let end_ := if truthy end_id then strptime end_id else Some now in
  build_month_ids_from_lcu fuel now baseline max_months
  = Some
      (if negb (IsAdmin baseline)
       then inl (RuntimeError "Baseline collected without administrative privileges")
       else if negb (truthy start_id)
       then inl (RuntimeError "Baseline did not provide LcuMonthId")
       else match end_, strptime start_id with
            | Some end_, Some start =>
                inr (map strftime
                         (take (Z.to_nat max_months)
                               (month_span
                                  (if period_lt end_ start then end_ else start)
                                  end_)))
            | _, _ => inl ValueError
            end)
  ∧ ∀ ids, build_month_ids_from_lcu fuel now baseline max_months = Some (inr ids) →
           Z.of_nat (length ids) ≤ Z.max 0 max_months
           ∧ (0 < max_months → ids ≠ []).
Proof.
  intros Hnow Hfuel. cbv zeta.
  assert (Hmain :
    build_month_ids_from_lcu fuel now baseline max_months
    = Some
        (if negb (IsAdmin baseline)
         then inl (RuntimeError "Baseline collected without administrative privileges")
         else if negb (truthy (default "" (LcuMonthId baseline)))
         then inl (RuntimeError "Baseline did not provide LcuMonthId")
         else match (if truthy (default "" (MsrcLatestMonthId baseline))
                     then strptime (default "" (MsrcLatestMonthId baseline))
                     else Some now),
                    strptime (default "" (LcuMonthId baseline)) with
              | Some end_, Some start =>
                  inr (map strftime
                           (take (Z.to_nat max_months)
                                 (month_span
                                    (if period_lt end_ start then end_ else start)
                                    end_)))
              | _, _ => inl ValueError
              end)).
  { unfold build_month_ids_from_lcu.
    destruct (IsAdmin baseline); simpl; [|done].
    destruct (LcuMonthId baseline) as [start_id|]; simpl; [|done].
    destruct (truthy start_id); simpl; [|done].
    set (e := if truthy (default "" (MsrcLatestMonthId baseline))
              then strptime (default "" (MsrcLatestMonthId baseline))
              else Some now).
    assert (He : ∀ end_, e = Some end_ → valid_month end_).
    { unfold e. intros end_. destruct (truthy _); [|by intros [= <-]].
      intros H. by apply strptime_valid in H as [? _]. }
    destruct e as [end_|]; [|done]. specialize (He end_ eq_refl).
    destruct (strptime start_id) as [start|] eqn:Hs; [|done].
    apply strptime_valid in Hs as [Hvs _].
    set (first := if period_lt end_ start then end_ else start).
    assert (Hvf : valid_month first) by (unfold first; by destruct (period_lt _ _)).
    destruct first as [fy fm]. simpl.
    rewrite month_loop_spec by (done || simpl; lia).
    simpl. by rewrite Z.sub_0_r. }
  split; [exact Hmain|].
  intros ids. rewrite Hmain. intros [= Hids].
  destruct (negb (IsAdmin baseline)); [done|].
  destruct (negb (truthy _)); [done|].
  set (e := if truthy (default "" (MsrcLatestMonthId baseline))
            then strptime (default "" (MsrcLatestMonthId baseline))
            else Some now) in *.
  assert (He : ∀ end_, e = Some end_ → valid_month end_).
  { unfold e. intros end_. destruct (truthy _); [|by intros [= <-]].
    intros H. by apply strptime_valid in H as [? _]. }
  destruct e as [end_|]; [|done]. specialize (He end_ eq_refl).
  destruct (strptime _) as [start|] eqn:Hs; [|done].
  apply strptime_valid in Hs as [Hvs _].
  injection Hids as <-. rewrite length_map, length_take. split; [lia|].
  intros Hmax.
  set (first := if period_lt end_ start then end_ else start).
  assert (Hle : month_index first ≤ month_index end_).
  { unfold first. destruct (period_lt end_ start) eqn:Hlt; [lia|].
    by apply period_lt_index_false in Hlt. }
  unfold month_span.
  destruct (Z.to_nat (month_index end_ - month_index first + 1)) as [|n] eqn:Hn;
    [lia|].
  destruct (Z.to_nat max_months) as [|k] eqn:Hk; [lia|]. done.
Qed.

Lemma build_month_ids_from_lcu_outcome_witness :
  build_month_ids_from_lcu 49 (2024, 2)
    {| IsAdmin := true; LcuMonthId := Some "2023-Dec";
       MsrcLatestMonthId := None |} default_max_months
  = Some (inr ["2023-Dec"; "2024-Jan"; "2024-Feb"]).
Proof.
  apply (proj1 (build_month_ids_from_lcu_outcome 49 (2024, 2)
                  {| IsAdmin := true; LcuMonthId := Some "2023-Dec";
                     MsrcLatestMonthId := None |} default_max_months
                  ltac:(unfold valid_month; simpl; lia)
                  ltac:(vm_compute; lia))).
Defined.

End WindowMoreProofs.

(** ** Download addresses and file names *)

Module AddressProofs.
Import Text Catalog.

Lemma keep_first_seen_fold urls seen out :
  seen = list_to_set out → NoDup out →
  let r := foldl (fun '(seen, out) u =>
                    if bool_decide (u ∈ (seen : gset string)) then (seen, out)
                    else ({[u]} ∪ seen, out ++ [u]))
                 (seen, out) urls in
  r.1 = list_to_set r.2
  ∧ NoDup r.2
  ∧ (∀ x, x ∈ r.2 ↔ x ∈ out ∨ x ∈ urls)
  ∧ out `prefix_of` r.2
  ∧ ∃ new, r.2 = out ++ new ∧ new `sublist_of` urls.
Proof.
  revert seen out. induction urls as [|u urls IH]; intros seen out Hseen Hnd; simpl.
  - split_and!; [done|done|set_solver|done|].
    exists []. by rewrite app_nil_r.
  - destruct (bool_decide (u ∈ seen)) eqn:Hu.
    + apply bool_decide_eq_true in Hu.
      destruct (IH seen out Hseen Hnd) as (H1 & H2 & H3 & H4 & new & H5 & H6).
      split_and!; [done|done| |done|].
      * intros x. rewrite H3, elem_of_cons. set_solver.
      * exists new. split; [done|]. by apply sublist_cons.
    + apply bool_decide_eq_false in Hu.
      destruct (IH ({[u]} ∪ seen) (out ++ [u])) as (H1 & H2 & H3 & H4 & new & H5 & H6).
      { rewrite list_to_set_app_L. set_solver. }
      { apply NoDup_app. split_and!; [done| |apply NoDup_singleton].
        intros x Hx ->%list_elem_of_singleton. set_solver. }
      split_and!; [done|done| | |].
      * intros x. rewrite H3. set_solver.
      * etrans; [|exact H4]. by apply prefix_app_r.
      * exists (u :: new). split; [by rewrite H5, <- app_assoc|].
        by apply sublist_skip.
Qed.

Lemma sublist_same_length {A} (l1 l2 : list A) :
  l1 `sublist_of` l2 → (length l2 ≤ length l1)%nat → l1 = l2.
Proof.
  induction 1 as [|x l1 l2 Hs IH|x l1 l2 Hs IH]; simpl; intros Hlen.
  - done.
  - f_equal. apply IH. lia.
  - apply sublist_length in Hs. lia.
Qed.

(** X11: the addresses that [extract_download_urls] returns are the
    addresses found, each once, in the order in which they are first
    found: no address is twice in the result, an address is in the result
    exactly when it was found, the result is a sublist of what was found
    and starts with the first address found (the one that [main]
    downloads); on a list without duplicates the loop changes nothing. *)
Theorem keep_first_seen_spec urls :
  NoDup (keep_first_seen urls)
  ∧ (∀ x, x ∈ keep_first_seen urls ↔ x ∈ urls)
  ∧ keep_first_seen urls `sublist_of` urls
  ∧ head (keep_first_seen urls) = head urls
  ∧ keep_first_seen (keep_first_seen urls) = keep_first_seen urls
  ∧ (NoDup urls → keep_first_seen urls = urls).
Proof.
  assert (Hspec : ∀ l, NoDup (keep_first_seen l)
                       ∧ (∀ x, x ∈ keep_first_seen l ↔ x ∈ l)
                       ∧ keep_first_seen l `sublist_of` l
                       ∧ head (keep_first_seen l) = head l).
  { intros l. unfold keep_first_seen.
    destruct (keep_first_seen_fold l ∅ []) as (_ & H2 & H3 & _ & new & H5 & H6);
      [set_solver|constructor|].
    cbv zeta in *. split_and!; [done| |by rewrite H5|].
    - intros x. rewrite H3. set_solver.
    - destruct l as [|u l]; [done|]. simpl.
      rewrite bool_decide_eq_false_2 by set_solver.
      destruct (keep_first_seen_fold l ({[u]} ∪ ∅) [u])
        as (_ & _ & _ & [k Hk] & _); [set_solver|apply NoDup_singleton|].
      cbv zeta in Hk. simpl in Hk. simpl. by rewrite Hk. }
  assert (Hid : ∀ l, NoDup l → keep_first_seen l = l).
  { intros l Hnd. destruct (Hspec l) as (_ & Hel & Hsub & _).
    apply sublist_same_length; [done|].
    apply submseteq_length, NoDup_submseteq; [done|]. intros x. apply Hel. }
  destruct (Hspec urls) as (H1 & H2 & H3 & H4).
  split_and!; [done..| |apply Hid]. by apply Hid.
Qed.

Lemma keep_first_seen_spec_witness :
  keep_first_seen ["http://a/x.msu"; "http://a/y.cab"] 
  = ["http://a/x.msu"; "http://a/y.cab"].
Proof.
  apply (proj2 (proj2 (proj2 (proj2 (proj2
           (keep_first_seen_spec ["http://a/x.msu"; "http://a/y.cab"])))))).
  apply NoDup_cons. split; [|apply NoDup_singleton].
  intros H. apply list_elem_of_singleton in H. discriminate.
Defined.

End AddressProofs.

(** ** The name of a downloaded file *)

Module FilenameProofs.
Import Text Catalog Chars.

Lemma append_cons a s t : String a s +:+ t = String a (s +:+ t).
Proof. reflexivity. Qed.

Lemma append_nil t : "" +:+ t = t.
Proof. reflexivity. Qed.

Lemma has_char_cons c a s :
  has_char c (String a s) = Ascii.eqb c a || has_char c s.
Proof. reflexivity. Qed.

Lemma has_char_app c s t : has_char c (s +:+ t) = has_char c s || has_char c t.
Proof.
  induction s as [|a s IH]; [done|].
  change (String a s +:+ t) with (String a (s +:+ t)).
  by rewrite !has_char_cons, IH, orb_assoc.
Qed.

Lemma after_last_no_sep sep s : has_char sep (after_last sep s) = false.
Proof.
  induction s as [|a s IH]; [done|]. simpl.
  fold (has_char sep s).
  destruct (has_char sep s) eqn:Hs; [done|].
  destruct (Ascii.eqb a sep) eqn:Ha; [done|].
  rewrite has_char_cons, Hs, Ascii.eqb_sym, Ha. done.
Qed.

Lemma after_last_suffix sep s : ∃ p, s = p +:+ after_last sep s.
Proof.
  induction s as [|a s [p IH]]; [by exists ""|]. simpl.
  destruct (existsb _ _).
  - exists (String a p). rewrite append_cons. f_equal. exact IH.
  - destruct (Ascii.eqb a sep); [by exists (String a "")|by exists ""].
Qed.

Lemma after_last_app sep base t :
  has_char sep t = false →
  after_last sep (base +:+ String sep t) = t.
Proof.
  intros Ht. induction base as [|a base IH].
  - rewrite append_nil. simpl.
    fold (has_char sep t). rewrite Ht. by rewrite Ascii.eqb_refl.
  - rewrite append_cons. simpl.
    fold (has_char sep (base +:+ String sep t)).
    rewrite has_char_app, has_char_cons, Ascii.eqb_refl, orb_true_r. exact IH.
Qed.

Lemma before_char_no_sep sep s : has_char sep (before_char sep s) = false.
Proof.
  induction s as [|a s IH]; [done|]. simpl.
  destruct (Ascii.eqb a sep) eqn:Ha; [done|].
  by rewrite has_char_cons, IH, Ascii.eqb_sym, Ha.
Qed.

Lemma before_char_keeps c sep s :
  has_char c s = false → has_char c (before_char sep s) = false.
Proof.
  induction s as [|a s IH]; [done|]. simpl. rewrite has_char_cons.
  intros [Ha Hs]%orb_false_iff.
  destruct (Ascii.eqb a sep); [done|].
  by rewrite has_char_cons, Ha, IH.
Qed.

Lemma before_char_app sep name rest :
  has_char sep name = false →
  before_char sep (name +:+ String sep rest) = name.
Proof.
  induction name as [|a name IH].
  - intros _. rewrite append_nil. simpl. by rewrite Ascii.eqb_refl.
  - rewrite has_char_cons, append_cons. intros [Ha Hn]%orb_false_iff.
    simpl. rewrite Ascii.eqb_sym, Ha. by rewrite IH.
Qed.

Lemma before_char_id sep name :
  has_char sep name = false → before_char sep name = name.
Proof.
  induction name as [|a name IH]; simpl; [done|].
  rewrite has_char_cons. intros [Ha Hn]%orb_false_iff.
  rewrite Ascii.eqb_sym, Ha. by rewrite IH.
Qed.

(** X12: the name under which [download_file] saves an address never
    contains a slash or a question mark, and is cut out of the address.
    For an address that ends with a slash, a name without slash or
    question mark, and possibly a question mark and a query without
    slash, it is this name. *)
Theorem download_filename_spec url :
  has_char "/" (download_filename url) = false
  ∧ has_char "?" (download_filename url) = false
  ∧ contains (download_filename url) url = true
  ∧ ∀ base name query,
      has_char "/" name = false → has_char "?" name = false →
      has_char "/" query = false →
      (url = base +:+ "/" +:+ name
       ∨ url = base +:+ "/" +:+ name +:+ "?" +:+ query) →
      download_filename url = name.
Proof.
  unfold download_filename. split_and!.
  - apply before_char_keeps, after_last_no_sep.
  - apply before_char_no_sep.
  - destruct (after_last_suffix "/" url) as [p Hp].
    assert (Hpre : ∀ s, startswith (before_char "?" s) s = true).
    { induction s as [|a s IH]; [done|]. simpl.
      destruct (Ascii.eqb a "?"); [done|]. simpl.
      by rewrite Ascii.eqb_refl, IH. }
    rewrite Hp at 2. generalize (after_last "/" url). intros t. clear Hp.
    induction p as [|a p IH].
    + rewrite append_nil.
      assert (Hc : ∀ q s, startswith q s = true → contains q s = true).
      { intros q [|b s] Hq; cbn [contains]; by rewrite Hq. }
      apply Hc, Hpre.
    + rewrite append_cons. cbn [contains]. rewrite IH. apply orb_true_r.
  - intros base name query Hn1 Hn2 Hq [->| ->].
    + change (base +:+ "/" +:+ name) with (base +:+ String "/" name).
      rewrite after_last_app by done. by apply before_char_id.
    + change (base +:+ "/" +:+ name +:+ "?" +:+ query)
        with (base +:+ String "/" (name +:+ String "?" query)).
      rewrite after_last_app.
      * by apply before_char_app.
      * rewrite has_char_app, has_char_cons, Hn1, Hq. done.
Qed.

Lemma download_filename_spec_witness :
  download_filename
    "https://catalog.example/d/msdownload/windows10.0-kb5034122-x64.msu?x=1"
  = "windows10.0-kb5034122-x64.msu".
Proof.
  apply (proj2 (proj2 (proj2 (download_filename_spec _)))
           "https://catalog.example/d/msdownload"
           "windows10.0-kb5034122-x64.msu" "x=1");
    [reflexivity..|right; reflexivity].
Defined.

End FilenameProofs.

(** ** Catalog rows, the missing list and the selection *)

Module CatalogProofs.
Import Text Window Scanner Downloader Catalog Chars FilenameProofs.

Lemma startswith_app p s : startswith p s = true → ∃ r, s = p +:+ r.
Proof.
  revert s. induction p as [|a p IH]; intros s; [by exists s|].
  destruct s as [|b s]; simpl; [done|].
  intros [Hab Hp]%andb_true_iff. apply Ascii.eqb_eq in Hab as ->.
  destruct (IH s Hp) as [r ->]. by exists r.
Qed.

Lemma before_split sep s :
  contains sep s = true → ∃ rest, s = before sep s +:+ sep +:+ rest.
Proof.
  induction s as [|a s IH]; cbn [contains before].
  - destruct (startswith sep "") eqn:Hs; [|done]. intros _.
    apply startswith_app in Hs as [r Hr]. exists r. by rewrite append_nil.
  - destruct (startswith sep (String a s)) eqn:Hs.
    + intros _. apply startswith_app in Hs as [r Hr]. exists r.
      by rewrite append_nil.
    + simpl. intros H. destruct (IH H) as [rest Hrest]. exists rest.
      rewrite append_cons. by f_equal.
Qed.

Lemma parse_row_Some tr c :
  parse_row tr = Some c →
  is_update_id (update_id c) = true
  ∧ (∃ rest, strip (default "" (row_id tr)) = update_id c +:+ "_R" +:+ rest)
  ∧ (8 ≤ length (row_cells tr))%nat
  ∧ title c = nth 1 (row_cells tr) ""
  ∧ is_Some (row_cells tr !! 1%nat).
Proof.
  unfold parse_row. cbv zeta.
  destruct (contains "_R" _) eqn:Hc; simpl; [|done].
  destruct (is_update_id _) eqn:Hid; simpl; [|done].
  destruct (length (row_cells tr) <? 8)%nat eqn:Hlen; [done|].
  apply Nat.ltb_ge in Hlen. intros [= <-]. simpl.
  split_and!; [done|by apply before_split|done|done|].
  apply lookup_lt_is_Some. lia.
Qed.

(** X13: every candidate read from the rows of the result table has an
    identifier of exactly 36 characters, each a hexadecimal digit or a
    hyphen, which is what precedes the first [_R] in the [id] of its row,
    and its row has at least 8 cells, the second of which is its title; a
    row that fails one of these tests is left out, without an error, and
    the candidates keep the order of the rows. *)
Theorem parse_rows_spec rows :
  (∀ c, c ∈ parse_rows rows →
        String.length (update_id c) = 36%nat
        ∧ all_chars is_hex_or_hyphen (update_id c) = true
        ∧ ∃ tr rest,
            tr ∈ rows
            ∧ parse_row tr = Some c
            ∧ strip (default "" (row_id tr)) = update_id c +:+ "_R" +:+ rest
            ∧ (8 ≤ length (row_cells tr))%nat
            ∧ row_cells tr !! 1%nat = Some (title c))
  ∧ (length (parse_rows rows) ≤ length rows)%nat
  ∧ (∀ tr, tr ∈ rows → row_id tr = None → parse_row tr = None)
  ∧ (∀ rows', parse_rows (rows ++ rows') = parse_rows rows ++ parse_rows rows').
Proof.
  unfold parse_rows. split_and!.
  - intros c (tr & Htr & Hc)%list_elem_of_omap.
    destruct (parse_row_Some tr c Hc) as (Hid & [rest Hrest] & Hlen & Ht & [t Hcell]).
    unfold is_update_id in Hid. apply andb_true_iff in Hid as [H36 Hall].
    apply Nat.eqb_eq in H36. split_and!; [done..|].
    exists tr, rest. split_and!; [done..|].
    rewrite Ht, Hcell. f_equal. symmetry.
    by apply nth_lookup_Some.
  - induction rows as [|tr rows IH]; [done|].
    change (omap parse_row (tr :: rows))
      with (match parse_row tr with
            | Some c => c :: omap parse_row rows
            | None => omap parse_row rows
            end).
    destruct (parse_row tr); simpl; lia.
  - intros tr _ Hid. unfold parse_row. by rewrite Hid.
  - intros rows'. apply omap_app.
Qed.

(** *** The missing list *)

Lemma upper_index_lookup_Some kb_entries k e :
  upper_index kb_entries !! k = Some e →
  e ∈ kb_entries ∧ truthy (KB e) = true ∧ upper (KB e) = k.
Proof.
  unfold upper_index.
  assert (H : ∀ l (index : gmap string KbEntry),
            (∀ k e, index !! k = Some e →
                    e ∈ kb_entries ∧ truthy (KB e) = true ∧ upper (KB e) = k) →
            (∀ e, e ∈ l → e ∈ kb_entries) →
            ∀ k e,
              foldl (λ index e,
                       if truthy (KB e) then <[upper (KB e) := e]> index
                       else index) index l !! k = Some e →
              e ∈ kb_entries ∧ truthy (KB e) = true ∧ upper (KB e) = k).
  { induction l as [|e0 l IH]; intros index Hi Hl k' e'; simpl; [apply Hi|].
    apply IH; [|intros e1 He1; apply Hl; by right].
    intros k1 e1. destruct (truthy (KB e0)) eqn:Ht; [|apply Hi].
    destruct (decide (upper (KB e0) = k1)) as [<-|Hne].
    - rewrite lookup_insert_eq. intros [= <-]. split_and!; [|done..].
      apply Hl. by left.
    - rewrite lookup_insert_ne by done. apply Hi. }
  apply (H kb_entries ∅); [|done].
  intros k' e' Hk. by rewrite lookup_empty in Hk.
Qed.

Lemma upper_index_is_Some kb_entries k :
  (∃ e, e ∈ kb_entries ∧ truthy (KB e) = true ∧ upper (KB e) = k) →
  is_Some (upper_index kb_entries !! k).
Proof.
  unfold upper_index.
  assert (H : ∀ l (index : gmap string KbEntry),
            is_Some (index !! k)
            ∨ (∃ e, e ∈ l ∧ truthy (KB e) = true ∧ upper (KB e) = k) →
            is_Some (foldl (λ index e,
                              if truthy (KB e) then <[upper (KB e) := e]> index
                              else index) index l !! k)).
  { induction l as [|e0 l IH]; intros index; simpl.
    - intros [?|(e & He%elem_of_nil & _)]; done.
    - intros [Hi|(e & [->|He]%elem_of_cons & Ht & Hu)]; apply IH.
      + left. destruct (truthy (KB e0)); [|done].
        destruct (decide (upper (KB e0) = k)) as [<-|Hne].
        * rewrite lookup_insert_eq. eauto.
        * by rewrite lookup_insert_ne.
      + left. rewrite Ht, Hu, lookup_insert_eq. eauto.
      + right. eauto. }
  intros He. apply H. by right.
Qed.

Lemma build_missing_list_fold kb_index missing out :
  foldl (fun out kb =>
           let kb_id := upper (strip kb) in
           if negb (truthy kb_id) then out
           else
             let update_type :=
               or_unknown (match kb_index !! kb_id with
                           | Some e => UpdateType e
                           | None => None
                           end) in
             out ++ [{| kb_id := kb_id; update_type := update_type |}])
        out missing
  = out ++ omap (λ kb,
                   if truthy (upper (strip kb))
                   then Some {| kb_id := upper (strip kb);
                                update_type :=
                                  or_unknown
                                    (match (kb_index : gmap string KbEntry)
                                           !! upper (strip kb) with
                                     | Some e => UpdateType e
                                     | None => None
                                     end) |}
                   else None) missing.
Proof.
  revert out. induction missing as [|kb missing IH]; intros out; simpl.
  - by rewrite app_nil_r.
  - rewrite IH. destruct (truthy (upper (strip kb))); simpl; [|done].
    by rewrite <- app_assoc.
Qed.

(** X14: the items of [build_missing_list] follow the missing list: one
    item, in order, for each entry that is not blank, under the entry
    stripped and in upper case, never under an empty identifier. The type
    of an item is never empty: it is the type of a record whose
    identifier is the item's up to the case of the letters, or Unknown;
    it is Unknown when no record has this identifier up to case, and it
    is the type of some record when such a record exists and all records
    have a type. *)
Theorem build_missing_list_spec missing_kbs kb_entries :
  let items := build_missing_list missing_kbs kb_entries in
  map kb_id items
  = List.filter truthy (map (λ kb, upper (strip kb)) missing_kbs)
  ∧ (∀ item, item ∈ items →
       truthy (kb_id item) = true
       ∧ truthy (update_type item) = true
       ∧ (update_type item = "Unknown"
          ∨ ∃ e, e ∈ kb_entries ∧ truthy (KB e) = true
                 ∧ upper (KB e) = kb_id item
                 ∧ UpdateType e = Some (update_type item)))
  ∧ (∀ item, item ∈ items →
       (∀ e, e ∈ kb_entries → truthy (KB e) = true →
             upper (KB e) ≠ kb_id item) →
       update_type item = "Unknown")
  ∧ (∀ item, item ∈ items →
       (∀ e, e ∈ kb_entries → ∃ t, UpdateType e = Some t ∧ truthy t = true) →
       (∃ e, e ∈ kb_entries ∧ truthy (KB e) = true
             ∧ upper (KB e) = kb_id item) →
       ∃ e, e ∈ kb_entries ∧ upper (KB e) = kb_id item
            ∧ UpdateType e = Some (update_type item)).
Proof.
  cbv zeta. unfold build_missing_list. cbv zeta.
  rewrite build_missing_list_fold, app_nil_l.
  split_and!.
  - induction missing_kbs as [|kb l IH]; [done|].
    cbn [omap list_omap map List.filter].
    destruct (truthy (upper (strip kb))) eqn:Ht; cbn [map]; by rewrite IH.
  - intros item (kb & _ & Hkb)%list_elem_of_omap.
    destruct (truthy (upper (strip kb))) eqn:Ht; [|done].
    injection Hkb as <-. simpl. split; [done|].
    destruct (upper_index kb_entries !! upper (strip kb)) as [e|] eqn:He; simpl.
    + apply upper_index_lookup_Some in He as (He & Hte & Hue).
      destruct (UpdateType e) as [t|] eqn:HU; simpl; [|by split; [|left]].
      destruct (truthy t) eqn:Htt; [|by split; [|left]].
      split; [done|]. right. eauto.
    + by split; [|left].
  - intros item (kb & _ & Hkb)%list_elem_of_omap Hno.
    destruct (truthy (upper (strip kb))) eqn:Ht; [|done].
    injection Hkb as <-. simpl in *.
    destruct (upper_index kb_entries !! upper (strip kb)) as [e|] eqn:He; [|done].
    apply upper_index_lookup_Some in He as (He & Hte & Hue).
    by destruct (Hno e He Hte).
  - intros item (kb & _ & Hkb)%list_elem_of_omap Hall Hex.
    destruct (truthy (upper (strip kb))) eqn:Ht; [|done].
    injection Hkb as <-. simpl in *.
    apply upper_index_is_Some in Hex as [e He]. rewrite He.
    apply upper_index_lookup_Some in He as (He & Hte & Hue).
    destruct (Hall e He) as (t & HU & Htt). rewrite HU. simpl. rewrite Htt.
    eauto.
Qed.

Lemma build_missing_list_spec_witness :
  ∃ e, e ∈ [ {| KB := "kb5034122"; Months := []; Cves := []; Supersedes := [];
                UpdateType := Some "Standalone" |} ]
       ∧ upper (KB e) = "KB5034122"
       ∧ UpdateType e = Some "Standalone".
Proof.
  apply (proj2 (proj2 (proj2
           (build_missing_list_spec [" KB5034122 "]
              [ {| KB := "kb5034122"; Months := []; Cves := []; Supersedes := [];
                   UpdateType := Some "Standalone" |} ])))
           {| kb_id := "KB5034122"; update_type := "Standalone" |}).
  - vm_compute. left.
  - intros e ->%list_elem_of_singleton. by exists "Standalone".
  - eexists. split; [left|]. done.
Defined.

End CatalogProofs.

(** ** The number typed by the operator *)

Module SelectionProofs.
Import Text Window Catalog.

Lemma digits_of_uint_acc d p :
  fold_left (λ n a, 10 * n + digit_value a)
            (list_ascii_of_string (NilEmpty.string_of_uint d)) (Z.pos p)
  = Z.pos (Pos.of_uint_acc d p).
Proof.
  revert p. induction d as [|d IH|d IH|d IH|d IH|d IH|d IH|d IH|d IH|d IH|d IH];
    intros p; simpl; [done|..];
    match goal with
    | |- fold_left _ _ ?acc = _ =>
        match goal with
        | |- _ = Z.pos (Pos.of_uint_acc _ ?q) =>
            replace acc with (Z.pos q) by (unfold digit_value; simpl; lia)
        end
    end; apply IH.
Qed.

Lemma digits_of_uint d :
  fold_left (λ n a, 10 * n + digit_value a)
            (list_ascii_of_string (NilEmpty.string_of_uint d)) 0
  = Z.of_uint d.
Proof.
  unfold Z.of_uint.
  induction d as [|d IH|d IH|d IH|d IH|d IH|d IH|d IH|d IH|d IH|d IH];
    simpl; [done|exact IH|..];
    match goal with
    | |- fold_left _ _ ?acc = Z.pos (Pos.of_uint_acc _ ?q) =>
        replace acc with (Z.pos q) by (unfold digit_value; simpl; lia)
    end; apply digits_of_uint_acc.
Qed.

Lemma all_digits_of_uint d :
  all_chars is_digit (NilEmpty.string_of_uint d) = true.
Proof. induction d; simpl; try done. Qed.

Lemma str_of_int_digits k :
  0 ≤ k →
  fold_left (λ n a, 10 * n + digit_value a)
            (list_ascii_of_string (Py.str_of_int k)) 0 = k
  ∧ truthy (Py.str_of_int k) && all_chars is_digit (Py.str_of_int k) = true.
Proof.
  intros Hk. unfold Py.str_of_int.
  pose proof (DecimalZ.of_to k) as Hof.
  destruct (Z.to_int k) as [d|d] eqn:Hd.
  - simpl in Hof. unfold NilZero.string_of_int, NilZero.string_of_uint.
    destruct d as [|d|d|d|d|d|d|d|d|d|d];
      try (split; [by rewrite digits_of_uint|];
           simpl; apply all_digits_of_uint).
    simpl in *. split; [done|done].
  - destruct k; simpl in Hd; try discriminate. lia.
Qed.

Section Database.
Variable u : Unicode.
Hypothesis u_standard : standard u.

Lemma ascii_digit_decimal a :
  is_digit a = true →
  char_decimal u (N_of_ascii a) = Some (digit_value a)
  ∧ char_isdigit u (N_of_ascii a) = true.
Proof.
  intros Ha. destruct u_standard as [Hascii Hdec].
  assert (H : char_decimal u (N_of_ascii a) = Some (digit_value a)).
  { unfold digit_value, code. apply Hascii.
    unfold is_digit, between, code in Ha.
    apply andb_true_iff in Ha as [H1 H2].
    apply N.leb_le in H1, H2. lia. }
  split; [done|]. by apply Hdec in H as [? _].
Qed.

Lemma decimal_fold s acc :
  all_chars is_digit s = true →
  foldl (λ n c, match n, char_decimal u c with
                | Some n, Some v => Some (10 * n + v)
                | _, _ => None
                end) (Some acc) (codepoints s)
  = Some (fold_left (λ n a, 10 * n + digit_value a)
                    (list_ascii_of_string s) acc).
Proof.
  revert acc. induction s as [|a s IH]; intros acc; [done|].
  simpl. intros [Ha Hs]%andb_true_iff.
  destruct (ascii_digit_decimal a Ha) as [-> _]. by apply IH.
Qed.

Lemma forallb_codepoints s :
  all_chars is_digit s = true →
  forallb (char_isdigit u) (codepoints s) = true.
Proof.
  induction s as [|a s IH]; [done|].
  simpl. intros [Ha Hs]%andb_true_iff.
  destruct (ascii_digit_decimal a Ha) as [_ ->]. by apply IH.
Qed.

Lemma isdigit_codepoints s :
  truthy s && all_chars is_digit s = true → isdigit u (codepoints s) = true.
Proof.
  destruct s as [|a s]; [done|]. cbn [truthy andb]. intros H.
  apply forallb_codepoints in H. exact H.
Qed.

Lemma length_codepoints s : length (codepoints s) = String.length s.
Proof.
  unfold codepoints. rewrite length_map.
  induction s as [|a s IH]; [done|]. simpl. by rewrite IH.
Qed.

(** A text of decimal digits has the value of its digits. *)
Lemma decimal_fold_value raw acc :
  0 ≤ acc →
  ∀ v, foldl (λ n c, match n, char_decimal u c with
                     | Some n, Some v => Some (10 * n + v)
                     | _, _ => None
                     end) (Some acc) raw = Some v →
       0 ≤ v ∧ Forall (λ c, is_Some (char_decimal u c)) raw.
Proof.
  revert acc. induction raw as [|c raw IH]; intros acc Hacc v; simpl.
  - intros [= <-]. by split.
  - destruct (char_decimal u c) as [d|] eqn:Hd.
    + intros Hv. destruct u_standard as [_ Hdec].
      destruct (Hdec _ _ Hd) as [_ Hr].
      destruct (IH (10 * acc + d) ltac:(lia) v Hv) as [? ?].
      split; [done|]. constructor; [by rewrite Hd|done].
    + assert (Hn : ∀ l, foldl (λ n c, match n, char_decimal u c with
                                      | Some n, Some v => Some (10 * n + v)
                                      | _, _ => None
                                      end) None l = None).
      { induction l; [done|]. simpl. done. }
      by rewrite Hn.
Qed.

Lemma decimal_fold_None raw acc :
  Exists (λ c, char_decimal u c = None) raw →
  foldl (λ n c, match n, char_decimal u c with
                | Some n, Some v => Some (10 * n + v)
                | _, _ => None
                end) acc raw = None.
Proof.
  assert (Hn : ∀ l, foldl (λ n c, match n, char_decimal u c with
                                  | Some n, Some v => Some (10 * n + v)
                                  | _, _ => None
                                  end) None l = None).
  { induction l; [done|]. simpl. done. }
  intros H. revert acc. induction H as [c raw Hc|c raw H IH]; intros acc; simpl.
  - rewrite Hc. destruct acc; apply Hn.
  - apply IH.
Qed.

End Database.

Lemma select_index_lt u raw count i :
  select u raw count = Selected_index i → (i < count)%nat.
Proof.
  unfold select. destruct (negb (isdigit u raw)); [done|].
  destruct (int_of_digits u raw) as [idx|]; [|done].
  destruct (_ || _) eqn:Hr; [done|].
  apply orb_false_iff in Hr as [H1 H2]. apply Z.ltb_ge in H1, H2.
  intros [= <-]. lia.
Qed.

(** X15: how the number typed selects an item, for any Unicode database
    in which the ASCII digits are decimal digits with their value and
    every decimal digit is a digit. An item is selected only when the
    text is not empty, all its characters are digits, [int] reads it,
    and its value is between 1 and the number of items; it is then the
    item of that rank, which exists. The empty text and a text with a
    character that is no digit are invalid selections; a text of digits
    one of which is no decimal digit, or of more than 4300 digits, makes
    [int] raise a ValueError; a text of decimal digits of value 0 is out
    of range. The rank that the menu shows for an item, written in
    decimal, selects this item. *)
Theorem select_spec {A} (u : Unicode) (items : list A) raw :
  standard u →
  (∀ i, select u raw (length items) = Selected_index i →
        isdigit u raw = true
        ∧ Forall (λ c, is_Some (char_decimal u c)) raw
        ∧ int_of_digits u raw = Some (Z.of_nat i + 1)
        ∧ is_Some (items !! i))
  ∧ (isdigit u raw = false → select u raw (length items) = InvalidSelection)
  ∧ isdigit u [] = false
  ∧ (Exists (λ c, char_isdigit u c = false) raw → isdigit u raw = false)
  ∧ (isdigit u raw = true →
     Exists (λ c, char_decimal u c = None) raw
     ∨ (max_str_digits < length raw)%nat →
     select u raw (length items) = SelectionValueError)
  ∧ (isdigit u raw = true → int_of_digits u raw = Some 0 →
     select u raw (length items) = SelectionOutOfRange)
  ∧ (∀ i, is_Some (items !! i) →
          (String.length (Py.str_of_int (Z.of_nat i + 1)) ≤ max_str_digits)%nat →
          select u (codepoints (Py.str_of_int (Z.of_nat i + 1))) (length items)
          = Selected_index i).
Proof.
  intros Hu. unfold select. split_and!.
  - intros i. destruct (isdigit u raw); simpl; [|done].
    destruct (int_of_digits u raw) as [idx|] eqn:Hint; [|done].
    destruct (_ || _) eqn:Hr; [done|].
    apply orb_false_iff in Hr as [H1 H2].
    apply Z.ltb_ge in H1, H2. intros [= <-]. split_and!; [done| | |].
    + unfold int_of_digits in Hint.
      destruct (max_str_digits <? length raw)%nat; [done|].
      by apply (decimal_fold_value u Hu) in Hint as [_ ?].
    + f_equal. lia.
    + apply lookup_lt_is_Some. lia.
  - by intros ->.
  - done.
  - intros Hex. destruct raw as [|c raw]; [done|]. unfold isdigit.
    apply not_true_is_false. intros Hall.
    rewrite forallb_forall in Hall. apply Exists_exists in Hex as (x & Hx & Hd).
    rewrite (Hall x) in Hd; [done|]. by apply list_elem_of_In.
  - intros -> Hbad. simpl.
    assert (int_of_digits u raw = None) as ->; [|done].
    unfold int_of_digits.
    destruct (max_str_digits <? length raw)%nat eqn:Hlen; [done|].
    apply Nat.ltb_ge in Hlen. destruct Hbad as [Hbad|Hbad]; [|lia].
    by apply decimal_fold_None.
  - intros -> ->. done.
  - intros i Hi Hlen.
    apply lookup_lt_is_Some in Hi.
    destruct (str_of_int_digits (Z.of_nat i + 1)) as [Hval Hdig]; [lia|].
    rewrite (isdigit_codepoints u Hu _ Hdig). simpl.
    unfold int_of_digits. rewrite length_codepoints.
    rewrite (proj2 (Nat.ltb_ge _ _) Hlen).
    apply andb_true_iff in Hdig as [_ Hdig].
    rewrite (decimal_fold u Hu _ 0 Hdig), Hval.
    rewrite (proj2 (Z.ltb_ge _ _)) by lia.
    rewrite (proj2 (Z.ltb_ge _ _)) by lia.
    simpl. f_equal. lia.
Qed.

(** With two items: the rank 2 typed in ASCII or as a fullwidth digit
    selects the second item, and a superscript two makes [int] raise. *)
Lemma select_spec_witness :
  select excerpt (codepoints (Py.str_of_int (Z.of_nat 1 + 1)))
         (length ["KB5034122"; "KB5034123"])
  = Selected_index 1
  ∧ select excerpt [65298%N] 2 = Selected_index 1
  ∧ select excerpt [178%N] 2 = SelectionValueError.
Proof.
  split; [|split; reflexivity].
  assert (Hstandard : standard excerpt).
  { split.
    - intros c Hc. simpl.
      rewrite (proj2 (N.leb_le _ _)) by lia.
      by rewrite (proj2 (N.leb_le _ _)) by lia.
    - intros c v. simpl.
      destruct ((48 <=? c) && (c <=? 57))%N eqn:H1.
      + intros [= <-]. apply andb_true_iff in H1 as [Ha Hb].
        apply N.leb_le in Ha, Hb. split; [done|lia].
      + destruct ((65296 <=? c) && (c <=? 65305))%N eqn:H2; [|done].
        intros [= <-]. rewrite ?orb_true_r.
        apply andb_true_iff in H2 as [Ha Hb].
        apply N.leb_le in Ha, Hb. split; [done|lia]. }
  apply (proj2 (proj2 (proj2 (proj2 (proj2 (proj2
           (select_spec excerpt ["KB5034122"; "KB5034123"] [50%N]
                        Hstandard)))))) 1%nat).
  - by exists "KB5034123".
  - vm_compute. lia.
Defined.

End SelectionProofs.

(** ** The constraints, the range of the scores and the choice *)

Module ConstraintProofs.
Import Text Pattern Downloader CandidateRules Chars.
Import DownloaderProofs SelectorProofs Py PyProofs.

Lemma rstrip_rstrip s : rstrip (rstrip s) = rstrip s.
Proof.
  induction s as [|a s IH]; [done|].
  change (rstrip (String a s))
    with (match rstrip s with
          | EmptyString => if is_space a then EmptyString else String a EmptyString
          | String b r => String a (String b r)
          end).
  destruct (rstrip s) as [|b r] eqn:Hr.
  - destruct (is_space a) eqn:Ha; [done|]. simpl. by rewrite Ha.
  - change (rstrip (String a (String b r)))
      with (match rstrip (String b r) with
            | EmptyString => if is_space a then EmptyString else String a EmptyString
            | String b' r' => String a (String b' r')
            end).
    by rewrite IH.
Qed.

Lemma lstrip_head s :
  lstrip s = "" ∨ ∃ a r, lstrip s = String a r ∧ is_space a = false.
Proof.
  induction s as [|a s IH]; [by left|]. simpl.
  destruct (is_space a) eqn:Ha; [done|]. right. eauto.
Qed.

Lemma lstrip_rstrip_head a r :
  is_space a = false → lstrip (rstrip (String a r)) = rstrip (String a r).
Proof.
  intros Ha.
  change (rstrip (String a r))
    with (match rstrip r with
          | EmptyString => if is_space a then EmptyString else String a EmptyString
          | String b r' => String a (String b r')
          end).
  destruct (rstrip r); rewrite ?Ha; simpl; by rewrite Ha.
Qed.

Lemma strip_strip s : strip (strip s) = strip s.
Proof.
  unfold strip. destruct (lstrip_head s) as [->|(a & r & -> & Ha)]; [done|].
  rewrite lstrip_rstrip_head by done. apply rstrip_rstrip.
Qed.

Lemma before_dot_no_dot s : has_char "." (before_dot s) = false.
Proof.
  induction s as [|a s IH]; [done|]. simpl.
  destruct (Ascii.eqb a ".") eqn:Ha; [done|].
  change (has_char "." (String a (before_dot s)))
    with (Ascii.eqb "." a || has_char "." (before_dot s)).
  by rewrite Ascii.eqb_sym, Ha, IH.
Qed.

(** X16: whatever the baseline, the constraints derived from it are well
    formed: the generation is empty, windows 10 or windows 11, and is
    windows 11 as soon as the name of the system contains it, in any
    case of the letters; the architecture is x64, arm64 or x86; the build
    number has no dot, being the text before the first dot of the build;
    and the display version has no white space left at its ends. *)
Theorem build_constraints_well_formed baseline :
  let c := build_constraints baseline in
  (windows_gen c = "" ∨ windows_gen c = "windows 10" ∨ windows_gen c = "windows 11")
  ∧ (contains "windows 11" (lower (str_or_empty (OsName baseline))) = true →
     windows_gen c = "windows 11")
  ∧ (catalog_arch c = "x64" ∨ catalog_arch c = "arm64" ∨ catalog_arch c = "x86")
  ∧ has_char "." (build_major c) = false
  ∧ (∃ rest, str_or_empty (Build baseline) = build_major c +:+ rest)
  ∧ strip (display_version c) = display_version c.
Proof.
  cbv zeta. unfold build_constraints. cbv zeta. simpl. split_and!.
  - destruct (contains "windows 11" _); [by right; right|].
    destruct (contains "windows 10" _); [by right; left|by left].
  - by intros ->.
  - destruct (_ || _); [by left|].
    destruct (contains "arm64" _); [by right; left|].
    destruct (_ || _); [by right; right|by left].
  - destruct (truthy _); [apply before_dot_no_dot|done].
  - destruct (truthy _) eqn:Ht; [|by eexists].
    generalize (str_or_empty (Build baseline)). intros s.
    induction s as [|a s [rest IH]]; [by exists ""|]. simpl.
    destruct (Ascii.eqb a "."); [by eexists|].
    exists rest. change (String a (before_dot s) +:+ rest)
      with (String a (before_dot s +:+ rest)). by f_equal.
  - apply strip_strip.
Qed.

Lemma build_constraints_well_formed_witness :
  windows_gen (build_constraints
                 {| OsName := Some "Microsoft Windows 11 Pro (upgraded from Windows 10)";
                    DisplayVersion := Some " 23H2 ";
                    Architecture := Some "AMD64";
                    Build := Some "22631.3007" |}) = "windows 11".
Proof.
  apply (proj1 (proj2 (build_constraints_well_formed _))). reflexivity.
Defined.

(** X17: a candidate that is not hard-excluded scores at most 150, and
    150 is the score of a title that shows the identifier, the
    generation, the matching architecture, the display version and the
    build of the host. The score reads the title and the identifier
    without regard to the case of the letters, and reads no other field
    of the candidate. *)
Theorem score_candidate_at_most_150 candidate kb_id c :
  score_candidate candidate kb_id c ≤ 150
  ∧ (∀ candidate' kb_id',
       lower (title candidate') = lower (title candidate) →
       lower kb_id' = lower kb_id →
       score_candidate candidate' kb_id' c = score_candidate candidate kb_id c)
  ∧ score_candidate
      (plain_candidate
         "2024-01 Cumulative Update for Windows 10 Version 22H2 for x64-based Systems (KB5034122) (19045.3930)")
      "kb5034122" host_22h2 = 150.
Proof.
  split_and!.
  - destruct (score_candidate_excluded_or_scored candidate kb_id c)
      as [[_ ->]|[_ ?]]; lia.
  - intros candidate' kb_id' Ht Hk. unfold score_candidate. cbv zeta.
    by rewrite Ht, Hk.
  - vm_compute. reflexivity.
Qed.

Lemma score_candidate_at_most_150_witness :
  score_candidate (plain_candidate "kb5034122 WINDOWS 10") "KB5034122" host_22h2
  = score_candidate (plain_candidate "KB5034122 Windows 10") "kb5034122" host_22h2.
Proof.
  apply (proj1 (proj2 (score_candidate_at_most_150
                         (plain_candidate "KB5034122 Windows 10")
                         "kb5034122" host_22h2))); reflexivity.
Defined.

Lemma elem_of_survivors candidates kb_id c (x : ScoredCandidate) :
  x ∈ filter (λ x : ScoredCandidate, 0 ≤ x.1)
             (map (λ y, (score_candidate y kb_id c, y)) candidates)
  ↔ x.2 ∈ candidates ∧ x.1 = score_candidate x.2 kb_id c ∧ 0 ≤ x.1.
Proof.
  rewrite list_elem_of_filter, list_elem_of_fmap. split.
  - intros (H0 & y & -> & Hy). done.
  - intros (Hy & Hs & H0). split; [done|]. exists x.2. split; [|done].
    destruct x as [s y]. simpl in *. by subst.
Qed.

Lemma choose_best_candidate_cases candidates kb_id c :
  match choose_best_candidate candidates kb_id c with
  | (Some best, reason) =>
      reason = None
      ∧ best ∈ candidates
      ∧ 90 ≤ score_candidate best kb_id c
      ∧ ∀ x, x ∈ candidates →
             score_candidate x kb_id c ≤ score_candidate best kb_id c
  | (None, reason) =>
      (reason = NoMatch.2
       ∧ ∀ x, x ∈ candidates → hard_excluded x kb_id c = true)
      ∨ ∃ s, reason = (AmbiguousMatch s).2
             ∧ 30 ≤ s < 90
             ∧ (∃ x, x ∈ candidates ∧ score_candidate x kb_id c = s)
             ∧ ∀ x, x ∈ candidates → score_candidate x kb_id c ≤ s
  end.
Proof.
  unfold choose_best_candidate. rewrite choose_scored_unfold. cbv zeta.
  set (survivors := filter _ _).
  destruct (sort_by_score_desc survivors) as [|[s best] rest] eqn:Hs.
  - apply sorted_nil_inv in Hs. simpl. left. split; [done|].
    intros x Hx.
    destruct (score_candidate_excluded_or_scored x kb_id c) as [[? _]|[_ Hsc]];
      [done|].
    assert (Hin : (score_candidate x kb_id c, x) ∈ survivors).
    { apply elem_of_survivors. simpl. split_and!; [done|done|lia]. }
    rewrite Hs in Hin. by apply elem_of_nil in Hin.
  - destruct (sort_by_score_desc_head _ _ _ Hs) as (before & after & Hsplit & Hb & Ha).
    assert (Htop : (s, best) ∈ survivors).
    { rewrite Hsplit. apply elem_of_app. right. left. }
    apply elem_of_survivors in Htop as (Hbest & Hscore & H0). simpl in *.
    assert (Hmax : ∀ x, x ∈ candidates → score_candidate x kb_id c ≤ s).
    { intros x Hx.
      destruct (score_candidate_excluded_or_scored x kb_id c) as [[_ ->]|[_ Hsc]];
        [lia|].
      assert (Hin : (score_candidate x kb_id c, x) ∈ survivors).
      { apply elem_of_survivors. simpl. split_and!; [done|done|lia]. }
      rewrite Hsplit in Hin.
      apply elem_of_app in Hin as [Hin|[Hin|Hin]%elem_of_cons].
      - specialize (Hb _ Hin). simpl in Hb. lia.
      - injection Hin as -> _. lia.
      - specialize (Ha _ Hin). simpl in Ha. lia. }
    destruct (s <? 90) eqn:H90; simpl.
    + apply Z.ltb_lt in H90. right. exists s. split_and!; [done| |done|by eauto|done].
      destruct (score_candidate_excluded_or_scored best kb_id c) as [[_ ?]|[_ ?]];
        lia.
    + apply Z.ltb_ge in H90. subst s. done.
Qed.

(** X18: what [choose_best_candidate] answers. When it gives a candidate
    it gives no reason, and the candidate is one of the list, scores at
    least 90, and no candidate of the list scores more. When it gives no
    candidate it always gives a reason: the one of NoMatch exactly when
    every candidate is hard-excluded, and otherwise the one of
    AmbiguousMatch with the highest score of the list, which is then at
    least 30 and below 90. *)
Theorem choose_best_candidate_answer candidates kb_id c :
  match choose_best_candidate candidates kb_id c with
  | (Some best, reason) =>
      reason = None
      ∧ best ∈ candidates
      ∧ 90 ≤ score_candidate best kb_id c
      ∧ ∀ x, x ∈ candidates →
             score_candidate x kb_id c ≤ score_candidate best kb_id c
  | (None, reason) =>
      (reason = NoMatch.2
       ∧ ∀ x, x ∈ candidates → hard_excluded x kb_id c = true)
      ∨ ∃ s, reason = (AmbiguousMatch s).2
             ∧ 30 ≤ s < 90
             ∧ (∃ x, x ∈ candidates ∧ score_candidate x kb_id c = s)
             ∧ ∀ x, x ∈ candidates → score_candidate x kb_id c ≤ s
  end.
Proof. apply choose_best_candidate_cases. Qed.

End ConstraintProofs.

(** ** The packages that the installer lists, and their labels *)

Module InstallerProofs.
Import Text Window Catalog Chars Installer LabelRules.
Import FilenameProofs Py PyProofs StringOrder SelectionProofs.

Lemma split_last_dot_no_dot s :
  has_char "." s = false → split_last_dot s = None.
Proof.
  induction s as [|a s IH]; [done|].
  rewrite has_char_cons. intros [Ha Hs]%orb_false_iff.
  simpl. rewrite (IH Hs). rewrite Ascii.eqb_sym. by rewrite Ha.
Qed.

Lemma split_last_dot_app root ext :
  has_char "." ext = false →
  split_last_dot (root +:+ String "." ext) = Some (root, String "." ext).
Proof.
  intros Hext. induction root as [|a root IH].
  - rewrite append_nil. simpl. by rewrite (split_last_dot_no_dot _ Hext).
  - rewrite append_cons. simpl. by rewrite IH.
Qed.

Lemma splitext_ext_app root ext :
  has_char "." ext = false →
  splitext_ext (root +:+ String "." ext)
  = if all_chars (Ascii.eqb ".") root then EmptyString else String "." ext.
Proof.
  intros Hext. unfold splitext_ext. by rewrite split_last_dot_app.
Qed.

Lemma find_packages_fold listing acc :
  foldl (fun packages e =>
           if negb (entry_isfile e) then packages
           else if is_package_name (entry_name e)
                then packages ++ [entry_name e]
                else packages)
        acc listing
  = acc ++ map entry_name
             (List.filter (fun e => entry_isfile e
                                    && is_package_name (entry_name e))
                          listing).
Proof.
  revert acc. induction listing as [|e listing IH]; intros acc; simpl.
  - by rewrite app_nil_r.
  - rewrite IH. destruct (entry_isfile e); simpl; [|done].
    destruct (is_package_name (entry_name e)); simpl; [|done].
    by rewrite <- app_assoc.
Qed.

Lemma leb_lower_total (a b : string) :
  String.leb (lower a) (lower b) = false →
  String.leb (lower b) (lower a) = true.
Proof. apply leb_false_flip. Qed.

Lemma leb_lower_trans (a b c : string) :
  String.leb (lower a) (lower b) = true →
  String.leb (lower b) (lower c) = true →
  String.leb (lower a) (lower c) = true.
Proof. apply leb_trans. Qed.

Lemma find_packages_perm listing :
  find_packages listing
    ≡ₚ map entry_name
         (List.filter (fun e => entry_isfile e
                                && is_package_name (entry_name e)) listing).
Proof.
  unfold find_packages. rewrite sorted_perm, find_packages_fold.
  by rewrite app_nil_l.
Qed.

Lemma elem_of_find_packages listing name :
  name ∈ find_packages listing ↔
  ∃ e, e ∈ listing ∧ entry_name e = name ∧ entry_isfile e = true
       ∧ is_package_name name = true.
Proof.
  rewrite find_packages_perm. rewrite list_elem_of_In, in_map_iff. split.
  - intros (e & <- & [He Hf%andb_true_iff]%filter_In).
    exists e. by rewrite list_elem_of_In.
  - intros (e & He & <- & Hf & Hp). exists e. split; [done|].
    apply filter_In. rewrite <- list_elem_of_In. by rewrite Hf, Hp.
Qed.

(** X19: the packages listed are the names of the directory, as often
    as they are listed, that are files and whose extension is .msu or
    .cab in any case, in the order of their names in lower case. The
    extension of a name is what follows its last dot, with the dot, and
    a name made of dots up to its last dot has none: such a name is not
    a package. *)
Theorem find_packages_spec (listing : list DirEntry) :
  find_packages listing
    ≡ₚ map entry_name
         (List.filter (fun e => entry_isfile e
                                && is_package_name (entry_name e)) listing)
  ∧ StronglySorted (λ a b, String.leb (lower a) (lower b) = true)
      (find_packages listing)
  ∧ (∀ name, name ∈ find_packages listing ↔
       ∃ e, e ∈ listing ∧ entry_name e = name ∧ entry_isfile e = true
            ∧ is_package_name name = true)
  ∧ (∀ name, has_char "." name = false → is_package_name name = false)
  ∧ (∀ root ext, has_char "." ext = false →
       is_package_name (root +:+ String "." ext)
       = negb (all_chars (Ascii.eqb ".") root)
         && (String.eqb (lower ext) "msu" || String.eqb (lower ext) "cab")).
Proof.
  split_and!.
  - apply find_packages_perm.
  - unfold find_packages.
    apply (sorted_ordered (fun a b => String.leb (lower a) (lower b))).
    + intros x y. apply leb_lower_total.
    + intros x y z. apply leb_lower_trans.
  - apply elem_of_find_packages.
  - intros name Hn. unfold is_package_name, splitext_ext.
    by rewrite split_last_dot_no_dot.
  - intros root ext Hext. unfold is_package_name.
    rewrite splitext_ext_app by done.
    destruct (all_chars (Ascii.eqb ".") root); [done|]. simpl.
    done.
Qed.


Lemma length_append (s t : string) :
  String.length (s +:+ t) = (String.length s + String.length t)%nat.
Proof.
  induction s as [|a s IH]; [by rewrite append_nil|].
  rewrite append_cons. simpl. by rewrite IH.
Qed.

Lemma append_assoc (s t u : string) : (s +:+ t) +:+ u = s +:+ (t +:+ u).
Proof.
  induction s as [|a s IH]; [by rewrite !append_nil|].
  rewrite !append_cons. by rewrite IH.
Qed.

Lemma append_nil_r (s : string) : s +:+ "" = s.
Proof.
  induction s as [|a s IH]; [done|]. rewrite append_cons. by rewrite IH.
Qed.

Lemma take_digits_spec n s :
  ∃ rest, s = take_digits n s +:+ rest
          ∧ all_chars is_digit (take_digits n s) = true
          ∧ (String.length (take_digits n s) ≤ n)%nat
          ∧ ((String.length (take_digits n s) < n)%nat → no_digit_ahead rest).
Proof.
  revert s. induction n as [|n IH]; intros s.
  - exists s. destruct s; simpl; rewrite ?append_nil; split_and!; (done || lia).
  - destruct s as [|a s].
    { exists EmptyString. simpl. split_and!; (done || lia). }
    simpl. destruct (is_digit a) eqn:Ha.
    + destruct (IH s) as (rest & Hs & Hd & Hl & Hn).
      exists rest. rewrite append_cons, <- Hs. simpl. rewrite Ha, Hd.
      split_and!; [done|done|lia|]. intros ?. apply Hn. lia.
    + exists (String a s). rewrite append_nil. simpl.
      split_and!; (done || lia).
Qed.

Lemma take_digits_app n ds post :
  all_chars is_digit ds = true →
  (Nat.min n (String.length ds)
   ≤ String.length (take_digits n (ds +:+ post)))%nat.
Proof.
  revert ds. induction n as [|n IH]; intros ds Hd; [simpl; lia|].
  destruct ds as [|a ds]; [simpl; lia|].
  simpl in Hd. apply andb_true_iff in Hd as [Ha Hd].
  rewrite append_cons. simpl. rewrite Ha. simpl.
  specialize (IH ds Hd). lia.
Qed.

Lemma take_digits_all n ds :
  all_chars is_digit ds = true → (String.length ds ≤ n)%nat →
  take_digits n ds = ds.
Proof.
  revert ds. induction n as [|n IH]; intros ds Hd Hl.
  - destruct ds; [done|]. simpl in Hl. lia.
  - destruct ds as [|a ds]; [done|].
    simpl in Hd. apply andb_true_iff in Hd as [Ha Hd].
    simpl in *. rewrite Ha. f_equal. apply IH; [done|lia].
Qed.

Lemma lower_char_k a : lower_char a = "k"%char → upper_char a = "K"%char.
Proof.
  destruct a as [[] [] [] [] [] [] [] []]; vm_compute; congruence.
Qed.

Lemma lower_char_b a : lower_char a = "b"%char → upper_char a = "B"%char.
Proof.
  destruct a as [[] [] [] [] [] [] [] []]; vm_compute; congruence.
Qed.

Lemma upper_char_digit a : is_digit a = true → upper_char a = a.
Proof.
  destruct a as [[] [] [] [] [] [] [] []]; vm_compute; congruence.
Qed.

Lemma upper_digits ds : all_chars is_digit ds = true → upper ds = ds.
Proof.
  induction ds as [|a ds IH]; [done|].
  simpl. intros [Ha Hd]%andb_true_iff.
  by rewrite upper_char_digit, IH.
Qed.

Lemma kb_at_Some s g :
  kb_at s = Some g →
  ∃ k b ds post, s = String k (String b ds) +:+ post
                 ∧ g = String k (String b ds) ∧ kb_head k b ds post.
Proof.
  destruct s as [|k [|b r]]; [done|done|].
  unfold kb_at.
  destruct (Ascii.eqb (lower_char k) "k") eqn:Hk; [|done].
  destruct (Ascii.eqb (lower_char b) "b") eqn:Hb; [|done].
  destruct (4 <=? String.length (take_digits 8 r))%nat eqn:Hl; [|done].
  simpl. intros [= <-].
  apply Ascii.eqb_eq in Hk, Hb. apply Nat.leb_le in Hl.
  destruct (take_digits_spec 8 r) as (post & Hr & Hd & Hle & Hn).
  exists k, b, (take_digits 8 r), post.
  rewrite !append_cons, <- Hr. split_and!; try done. 
Qed.

Lemma kb_at_None k b ds post :
  kb_at (String k (String b ds) +:+ post) = None →
  lower_char k = "k"%char → lower_char b = "b"%char →
  all_chars is_digit ds = true → (String.length ds < 4)%nat.
Proof.
  rewrite !append_cons. unfold kb_at. intros H Hk Hb Hd.
  rewrite Hk, Hb, !Ascii.eqb_refl in H. cbn [andb] in H.
  destruct (4 <=? String.length (take_digits 8 (ds +:+ post)))%nat eqn:Hl;
    [done|].
  apply Nat.leb_gt in Hl.
  pose proof (take_digits_app 8 ds post Hd). lia.
Qed.

Lemma search_kb_cons a s :
  search_kb (String a s)
  = match kb_at (String a s) with
    | Some g => Some g
    | None => search_kb s
    end.
Proof. done. Qed.

Lemma search_kb_None s :
  search_kb s = None → ∀ pre rest, s = pre +:+ rest → kb_at rest = None.
Proof.
  induction s as [|a s IH]; intros H pre rest Hs.
  - destruct pre; [|by rewrite append_cons in Hs].
    rewrite append_nil in Hs. by subst rest.
  - rewrite search_kb_cons in H.
    destruct (kb_at (String a s)) eqn:Hat; [done|].
    destruct pre as [|a' pre].
    + rewrite append_nil in Hs. by subst rest.
    + rewrite append_cons in Hs. injection Hs as -> ->.
      by apply (IH H pre).
Qed.

Lemma search_kb_Some s g :
  search_kb s = Some g →
  ∃ pre rest, s = pre +:+ rest ∧ kb_at rest = Some g
    ∧ ∀ pre1 pre2, pre = pre1 +:+ pre2 → pre2 ≠ EmptyString →
                   kb_at (pre2 +:+ rest) = None.
Proof.
  induction s as [|a s IH]; intros H; [done|].
  rewrite search_kb_cons in H.
  destruct (kb_at (String a s)) as [g'|] eqn:Hat.
  - injection H as ->. exists EmptyString, (String a s).
    rewrite append_nil. split_and!; [done|done|].
    intros pre1 pre2 Hp Hne. destruct pre1, pre2; try done.
    all: by rewrite ?append_nil, ?append_cons in Hp.
  - destruct (IH H) as (pre & rest & -> & Hr & Hleft).
    exists (String a pre), rest. rewrite append_cons.
    split_and!; [done|done|].
    intros pre1 pre2 Hp Hne. destruct pre1 as [|a' pre1].
    + rewrite append_nil in Hp. subst pre2. by rewrite append_cons.
    + rewrite append_cons in Hp. injection Hp as -> Hp.
      by apply (Hleft pre1).
Qed.

Lemma search_kb_label ds :
  all_chars is_digit ds = true → (4 ≤ String.length ds ≤ 8)%nat →
  search_kb (String "K" (String "B" ds)) = Some (String "K" (String "B" ds)).
Proof.
  intros Hd Hlen. rewrite search_kb_cons. unfold kb_at.
  change (lower_char "K") with "k"%char.
  change (lower_char "B") with "b"%char.
  rewrite !Ascii.eqb_refl. cbn [andb].
  rewrite (take_digits_all 8 ds Hd) by lia.
  by rewrite (proj2 (Nat.leb_le _ _)) by lia.
Qed.

(** X20: the label of a file name. When the name has an occurrence of
    the letters K and B, in any case, followed by four digits, the
    label is KB and the digits of the leftmost occurrence, eight of them
    at most. When it has none, the label is the name itself. The label of
    a label is this label. *)
Theorem extract_kb_label_spec (filename : string) :
  ((∀ pre k b ds post,
      filename = pre +:+ String k (String b ds) +:+ post →
      lower_char k = "k"%char → lower_char b = "b"%char →
      all_chars is_digit ds = true → (String.length ds < 4)%nat)
   ∧ extract_kb_label filename = filename
   ∨ ∃ pre k b ds post,
       filename = pre +:+ String k (String b ds) +:+ post
       ∧ kb_head k b ds post
       ∧ (∀ pre1 pre2, pre = pre1 +:+ pre2 → pre2 ≠ EmptyString →
            kb_at (pre2 +:+ String k (String b ds) +:+ post) = None)
       ∧ extract_kb_label filename = String "K" (String "B" ds))
  ∧ extract_kb_label (extract_kb_label filename) = extract_kb_label filename.
Proof.
  assert (Hcases :
    search_kb filename = None ∧ extract_kb_label filename = filename
    ∨ ∃ pre k b ds post,
       filename = pre +:+ String k (String b ds) +:+ post
       ∧ kb_head k b ds post
       ∧ (∀ pre1 pre2, pre = pre1 +:+ pre2 → pre2 ≠ EmptyString →
            kb_at (pre2 +:+ String k (String b ds) +:+ post) = None)
       ∧ extract_kb_label filename = String "K" (String "B" ds)).
  { unfold extract_kb_label.
    destruct (search_kb filename) as [g|] eqn:Hs; [right|by left].
    apply search_kb_Some in Hs as (pre & rest & -> & Hat & Hleft).
    apply kb_at_Some in Hat as (k & b & ds & post & -> & -> & Hh).
    exists pre, k, b, ds, post. split_and!; [done|done|done|].
    destruct Hh as (Hk & Hb & Hd & _). simpl.
    by rewrite (lower_char_k _ Hk), (lower_char_b _ Hb), (upper_digits _ Hd). }
  split.
  - destruct Hcases as [[Hs Hl]|Hr]; [left|by right].
    split; [|done]. intros pre k b ds post Hf Hk Hb Hd.
    apply (kb_at_None k b ds post); try done.
    by apply (search_kb_None _ Hs pre).
  - destruct Hcases as [[Hs Hl]|(pre & k & b & ds & post & _ & Hh & _ & ->)].
    + by rewrite Hl.
    + destruct Hh as (_ & _ & Hd & Hlen & _).
      unfold extract_kb_label. rewrite search_kb_label by done.
      simpl. by rewrite (upper_digits _ Hd).
Qed.


(** X21: what the installer runs. It hands one command at most to
    [subprocess.run]. A command is run only with administrative rights,
    on a package that the operator selected by its rank: a file of the
    directory, for which the command is wusa.exe on the path of the
    package when its extension is .msu and dism.exe when it is .cab. A
    run ends with an exception that nothing catches only when the input
    ends or is interrupted at the prompt, when [int] refuses the number
    typed, or when [subprocess.run] raises on the command; in the first
    three cases no command was run. The installer returns 0 exactly
    when, with administrative rights, there is no package, or the
    command that it ran returned 0, 3010 or no code; without
    administrative rights it returns 1 and runs nothing. *)
Theorem main_runs_selected_package u in_downloads_dir admin listing typed
    run_command :
  let r := main u in_downloads_dir admin listing typed run_command in
  (length (commands r) ≤ 1)%nat
  ∧ (∀ argv, argv ∈ commands r →
       admin = true
       ∧ ∃ e text i,
           e ∈ listing ∧ entry_isfile e = true
           ∧ typed = Typed_line text
           ∧ select u (strip_typed u text) (length (find_packages listing))
             = Selected_index i
           ∧ find_packages listing !! i = Some (entry_name e)
           ∧ (lower (splitext_ext (entry_name e)) = ".msu"
              ∧ argv = ["wusa.exe"; in_downloads_dir (entry_name e);
                        "/quiet"; "/norestart"]
              ∨ lower (splitext_ext (entry_name e)) = ".cab"
                ∧ argv = ["dism.exe"; "/online"; "/add-package";
                          "/packagepath:" +:+ in_downloads_dir (entry_name e);
                          "/quiet"; "/norestart"]))
  ∧ (∀ exception, ending r = Uncaught exception →
       admin = true ∧ find_packages listing ≠ []
       ∧ (commands r = []
          ∧ (typed = EndOfInput ∧ exception = "EOFError"
             ∨ typed = InputInterrupted ∧ exception = "KeyboardInterrupt"
             ∨ ∃ text,
                 typed = Typed_line text
                 ∧ select u (strip_typed u text)
                          (length (find_packages listing))
                   = SelectionValueError
                 ∧ exception = "ValueError")
          ∨ ∃ argv, commands r = [argv]
                    ∧ run_command argv = CommandRaised exception))
  ∧ (admin = false → ending r = Exit 1 ∧ commands r = [])
  ∧ (ending r = Exit 0 ↔
       admin = true
       ∧ (find_packages listing = []
          ∨ ∃ argv, commands r = [argv]
                    ∧ run_command argv
                      ∈ [Returned None; Returned (Some 0);
                         Returned (Some 3010)])).
Proof.
  unfold main. destruct admin; simpl.
  2:{ split_and!; try done.
      - lia.
      - intros argv H. by apply elem_of_nil in H.
      - split; [done|]. by intros [? _]. }
  destruct (find_packages listing) as [|p ps] eqn:Hp.
  { simpl. split_and!; try done.
    - lia.
    - intros argv H. by apply elem_of_nil in H.
    - split; [|done]. intros _. split; [done|by left]. }
  destruct typed as [text| |].
  2,3: simpl; split_and!; try done; try lia;
       [intros argv H; by apply elem_of_nil in H
       |intros exception [= <-]; split_and!; [done|done|]; left;
        split; [done|]; eauto
       |split; [done|]; intros [_ [?|(argv & ? & _)]]; done].
  destruct (select u (strip_typed u text) (length (p :: ps)))
    as [| | |i] eqn:Hsel.
  1-3: simpl; split_and!; try done; try lia;
       try (intros argv H; by apply elem_of_nil in H);
       try (intros exception [= <-]; split_and!; [done|done|]; left;
            split; [done|]; right; right; by exists text);
       split; [done|]; intros [_ [?|(argv & ? & _)]]; done.
  pose proof (select_index_lt _ _ _ _ Hsel) as Hi.
  destruct (lookup_lt_is_Some_2 (p :: ps) i Hi) as [chosen Hc].
  assert (Hnth : nth i (p :: ps) "" = chosen).
  { by apply nth_lookup_Some with (d := EmptyString) in Hc. }
  rewrite Hnth.
  assert (Hin : chosen ∈ find_packages listing).
  { rewrite Hp. by apply list_elem_of_lookup_2 in Hc. }
  apply elem_of_find_packages in Hin as (e & He & <- & Hf & Hn).
  set (argv := if String.eqb (lower (splitext_ext (entry_name e))) ".msu"
               then _ else _).
  assert (Hargv : ∀ argv', argv' ∈ [argv] →
            true = true
            ∧ ∃ e0 text0 i0,
                e0 ∈ listing ∧ entry_isfile e0 = true
                ∧ Typed_line text = Typed_line text0
                ∧ select u (strip_typed u text0) (length (p :: ps))
                  = Selected_index i0
                ∧ (p :: ps) !! i0 = Some (entry_name e0)
                ∧ (lower (splitext_ext (entry_name e0)) = ".msu"
                   ∧ argv' = ["wusa.exe"; in_downloads_dir (entry_name e0);
                              "/quiet"; "/norestart"]
                   ∨ lower (splitext_ext (entry_name e0)) = ".cab"
                     ∧ argv' = ["dism.exe"; "/online"; "/add-package";
                                "/packagepath:"
                                +:+ in_downloads_dir (entry_name e0);
                                "/quiet"; "/norestart"])).
  { intros argv' ->%list_elem_of_singleton. split; [done|].
    exists e, text, i. split_and!; try done.
    unfold argv. unfold is_package_name in Hn.
    destruct (String.eqb (lower (splitext_ext (entry_name e))) ".msu") eqn:Hm.
    + left. by apply String.eqb_eq in Hm.
    + right. simpl in Hn. by apply String.eqb_eq in Hn. }
  destruct (run_command argv) as [returncode|exception] eqn:Hrun;
    cbn [commands ending].
  - split_and!.
    + simpl. lia.
    + exact Hargv.
    + done.
    + done.
    + destruct returncode as [code|]; simpl.
      * destruct (code =? 0) eqn:H0; simpl.
        -- apply Z.eqb_eq in H0. subst code. split; [|done]. intros _.
           split; [done|]. right. exists argv. split; [done|].
           rewrite Hrun. set_solver.
        -- destruct (code =? 3010) eqn:H1.
           ++ apply Z.eqb_eq in H1. subst code. split; [|done]. intros _.
              split; [done|]. right. exists argv. split; [done|].
              rewrite Hrun. set_solver.
           ++ apply Z.eqb_neq in H0, H1. split; [done|].
              intros [_ [?|(argv' & [= <-] & Hr)]]; [done|].
              rewrite Hrun in Hr. set_solver.
      * split; [|done]. intros _. split; [done|]. right. exists argv.
        split; [done|]. rewrite Hrun. set_solver.
  - split_and!.
    + simpl. lia.
    + exact Hargv.
    + intros exception' [= <-]. split_and!; [done|done|].
      right. by exists argv.
    + done.
    + split; [done|]. intros [_ [?|(argv' & [= <-] & Hr)]]; [done|].
      rewrite Hrun in Hr. set_solver.
Qed.

End InstallerProofs.
(** ** The menu *)

Module MasterProofs.
Import Text Master SessionRules.

Lemma read_choice_spec events :
  ∀ choice prompts rest, read_choice events = (choice, prompts, rest) →
    (length rest ≤ length events)%nat
    ∧ last prompts ≠ None
    ∧ (choice = "4" ∧ choices events = []
       ∨ choice ≠ "4" ∧ choices events = choice :: choices rest
         ∧ (length rest < length events)%nat).
Proof.
  induction events as [|[text|] events IH]; intros choice prompts rest.
  - intros [= <- <- <-]. split_and!; [done|done|by left].
  - cbn [read_choice choices].
    destruct (truthy (strip text)) eqn:Ht.
    + intros [= <- <- <-]. split_and!; [simpl; lia|done|].
      destruct (String.eqb (strip text) "4") eqn:H4.
      * left. by apply String.eqb_eq in H4.
      * right. apply String.eqb_neq in H4. split_and!; [done|done|simpl; lia].
    + destruct (read_choice events) as [[c p] r].
      intros [= <- <- <-]. destruct (IH c p r eq_refl) as (Hl & Hp & Hc).
      split_and!; [simpl; lia| |].
      * destruct p; [done|]. by rewrite last_cons_cons.
      * destruct Hc as [[-> Hc]|(Hn & Hc & Hlt)]; [by left|right].
        split_and!; [done|done|simpl; lia].
  - intros [= <- <- <-]. split_and!; [simpl; lia|done|by left].
Qed.

Lemma found_scripts_cons world calls path paths :
  found_scripts world calls (path :: paths)
  = (if fst (world calls path) then [path] else [])
    ++ found_scripts world (S calls) paths.
Proof.
  unfold found_scripts. cbn [imap concat]. rewrite Nat.add_0_r.
  f_equal. f_equal. apply imap_ext. intros n p _. simpl.
  by rewrite Nat.add_succ_r.
Qed.

Lemma last_app_Some {A} (l1 l2 : list A) x :
  last l2 = Some x → last (l1 ++ l2) = Some x.
Proof.
  intros H. destruct l2 as [|y l2] using rev_ind; [done|].
  rewrite last_snoc in H. rewrite app_assoc. by rewrite last_snoc.
Qed.

Lemma main_loop_spec in_script_dir world fuel events calls :
  (length events < fuel)%nat →
  ∃ s, main_loop in_script_dir world fuel events calls = Some s
       ∧ exit_code s = 0
       ∧ launched s
         = found_scripts world calls (requested in_script_dir events)
       ∧ length (stage_codes s)
         = length (requested in_script_dir events)
       ∧ last (shown s) = Some "Exiting WinShield.".
Proof.
  revert events calls. induction fuel as [|fuel IH]; intros events calls Hf;
    [lia|].
  cbn [main_loop].
  destruct (read_choice events) as [[choice prompts] rest] eqn:Hr.
  apply read_choice_spec in Hr as (Hl & _ & Hc).
  unfold requested.
  destruct Hc as [[-> Hc]|(Hn & Hc & Hlt)]; rewrite Hc.
  - rewrite String.eqb_refl. eexists. split_and!; try done.
    cbn [shown]. by rewrite last_snoc.
  - apply String.eqb_neq in Hn. rewrite Hn.
    cbn [omap list_omap].
    destruct (IH rest calls ltac:(lia)) as (s0 & Hs0 & He0 & Hla0 & Hco0 & Hsh0).
    destruct (IH rest (S calls) ltac:(lia))
      as (s1 & Hs1 & He1 & Hla1 & Hco1 & Hsh1).
    destruct (STAGES in_script_dir !! choice) as [[label path]|];
      cbn [fmap option_fmap option_map snd].
    + destruct (world calls path) as [isfile launch] eqn:Hw.
      destruct (run_stage isfile launch label path) as [rc out].
      rewrite Hs1. eexists.
      split_and!; [done|done| | |];
        cbn [launched stage_codes shown exit_code].
      * rewrite found_scripts_cons, Hw. cbn [fst]. by rewrite Hla1.
      * cbn [length]. by rewrite Hco1.
      * by apply last_app_Some, last_app_Some.
    + rewrite Hs0. eexists.
      split_and!; [done|done|done|done|];
        cbn [launched stage_codes shown exit_code].
      by apply last_app_Some, last_app_Some.
Qed.


Lemma elem_of_requested in_script_dir events path :
  path ∈ requested in_script_dir events →
  path ∈ [in_script_dir "winshield_scanner.py";
          in_script_dir "winshield_downloader.py";
          in_script_dir "winshield_installer.py"].
Proof.
  unfold requested. rewrite list_elem_of_omap.
  intros (c & _ & Hc). unfold STAGES in Hc.
  destruct (decide (c = "1")) as [->|H1].
  { rewrite lookup_insert_eq in Hc. injection Hc as <-. set_solver. }
  rewrite lookup_insert_ne in Hc by done.
  destruct (decide (c = "2")) as [->|H2].
  { rewrite lookup_insert_eq in Hc. injection Hc as <-. set_solver. }
  rewrite lookup_insert_ne in Hc by done.
  destruct (decide (c = "3")) as [->|H3].
  { rewrite lookup_insert_eq in Hc. injection Hc as <-. set_solver. }
  rewrite lookup_insert_ne in Hc by done.
  by rewrite lookup_empty in Hc.
Qed.

(** X22: a session of the menu always ends, with the code 0, after the
    farewell: at the first choice 4, interrupt at the prompt or end of
    the input, whatever the stages return and however they end. Up to
    there it calls [run_stage] once for each choice 1, 2 or 3 typed, in
    order, and launches the script of the choice when its file exists;
    it launches nothing but the three stage scripts. *)
Theorem main_session in_script_dir world events :
  ∃ s, main in_script_dir world events = Some s
       ∧ exit_code s = 0
       ∧ last (shown s) = Some "Exiting WinShield."
       ∧ length (stage_codes s) = length (requested in_script_dir events)
       ∧ launched s
         = found_scripts world 0 (requested in_script_dir events)
       ∧ ∀ path, path ∈ launched s →
           path ∈ [in_script_dir "winshield_scanner.py";
                   in_script_dir "winshield_downloader.py";
                   in_script_dir "winshield_installer.py"].
Proof.
  destruct (main_loop_spec in_script_dir world (S (length events)) events 0)
    as (s & Hs & He & Hl & Hc & Hsh); [lia|].
  exists s. split_and!; try done.
  intros path. rewrite Hl. unfold found_scripts.
  rewrite list_elem_of_In, in_concat. intros (l & Hl' & Hp).
  apply list_elem_of_In in Hl', Hp.
  apply elem_of_lookup_imap in Hl' as (n & p & -> & Hn).
  destruct (fst _); [|by apply elem_of_nil in Hp].
  apply list_elem_of_singleton in Hp as ->.
  apply (elem_of_requested _ events).
  by apply list_elem_of_lookup_2 in Hn.
Qed.

End MasterProofs.

(** ** The addresses found in the download dialog *)

Module DialogProofs.
Import Text Catalog Chars Dialog Installer.
Import FilenameProofs InstallerProofs AddressProofs.

Lemma keep_first_seen_basic l :
  NoDup (keep_first_seen l)
  ∧ (∀ x, x ∈ keep_first_seen l ↔ x ∈ l)
  ∧ head (keep_first_seen l) = head l.
Proof.
  unfold keep_first_seen.
  destruct (keep_first_seen_fold l ∅ []) as (_ & H2 & H3 & _ & new & H5 & H6);
    [set_solver|constructor|].
  cbv zeta in *. split_and!; [done| |].
  - intros x. rewrite H3. set_solver.
  - destruct l as [|u l]; [done|]. simpl.
    rewrite bool_decide_eq_false_2 by set_solver.
    destruct (keep_first_seen_fold l ({[u]} ∪ ∅) [u])
      as (_ & _ & _ & [k Hk] & _); [set_solver|apply NoDup_singleton|].
    cbv zeta in Hk. simpl in Hk. simpl. by rewrite Hk.
Qed.

Lemma elem_of_keep_first_seen l x : x ∈ keep_first_seen l ↔ x ∈ l.
Proof. apply keep_first_seen_basic. Qed.

Lemma lower_cons a s : lower (String a s) = String (lower_char a) (lower s).
Proof. done. Qed.

Lemma lower_app s t : lower (s +:+ t) = lower s +:+ lower t.
Proof.
  induction s as [|a s IH]; [by rewrite !append_nil|].
  rewrite append_cons, !lower_cons, append_cons. by rewrite IH.
Qed.

Lemma take_ci_spec pat s m rest :
  take_ci pat s = Some (m, rest) → s = m +:+ rest ∧ lower m = pat.
Proof.
  revert s m rest. induction pat as [|p pat IH]; intros s m rest.
  - intros [= <- <-]. by rewrite append_nil.
  - destruct s as [|a r]; [done|]. cbn [take_ci].
    destruct (Ascii.eqb (lower_char a) p) eqn:Ha; [|done].
    destruct (take_ci pat r) as [[m' rest']|] eqn:Ht; [|done].
    intros [= <- <-]. apply IH in Ht as [-> <-].
    apply Ascii.eqb_eq in Ha. by rewrite append_cons, lower_cons, Ha.
Qed.

Lemma take_ci_app m rest : take_ci (lower m) (m +:+ rest) = Some (m, rest).
Proof.
  induction m as [|a m IH]; [by rewrite append_nil|].
  rewrite append_cons, lower_cons. cbn [take_ci].
  by rewrite Ascii.eqb_refl, IH.
Qed.

Lemma has_char_lower c s :
  lower_char c = c →
  has_char c (lower s) = false → has_char c s = false.
Proof.
  intros Hc. induction s as [|a s IH]; [done|].
  rewrite lower_cons, !has_char_cons.
  intros [Ha Hs]%orb_false_iff. rewrite (IH Hs), orb_false_r.
  apply Ascii.eqb_neq in Ha. apply Ascii.eqb_neq.
  intros ->. by apply Ha.
Qed.

Lemma unquoted_spec s :
  has_char quote (unquoted s) = false
  ∧ ∃ rest, s = unquoted s +:+ rest.
Proof.
  induction s as [|a s [IH1 [rest IH2]]].
  - split; [done|]. by exists EmptyString.
  - simpl. destruct (Ascii.eqb a quote) eqn:Ha.
    + split; [done|]. exists (String a s). by rewrite append_nil.
    + split.
      * rewrite has_char_cons, Ascii.eqb_sym, Ha. exact IH1.
      * exists rest. rewrite append_cons. by rewrite <- IH2.
Qed.

Lemma unquoted_app run post :
  has_char quote run = false →
  unquoted (run +:+ String quote post) = run.
Proof.
  induction run as [|a run IH].
  - intros _. by rewrite append_nil.
  - rewrite has_char_cons, append_cons. intros [Ha Hr]%orb_false_iff.
    simpl. rewrite Ascii.eqb_sym, Ha. by rewrite IH.
Qed.

Lemma unquoted_id run :
  has_char quote run = false → unquoted run = run.
Proof.
  induction run as [|a run IH]; [done|].
  rewrite has_char_cons. intros [Ha Hr]%orb_false_iff.
  simpl. rewrite Ascii.eqb_sym, Ha. by rewrite IH.
Qed.

Lemma scheme_at_spec s m rest :
  scheme_at s = Some (m, rest) →
  s = m +:+ rest ∧ (lower m = "http://" ∨ lower m = "https://").
Proof.
  unfold scheme_at. destruct (take_ci "https://" s) as [[m' r']|] eqn:H1.
  - intros [= <- <-]. apply take_ci_spec in H1 as [-> ?]. by split; [|right].
  - intros H2. apply take_ci_spec in H2 as [-> ?]. by split; [|left].
Qed.

Lemma ext_at_spec s e rest :
  ext_at s = Some (e, rest) →
  s = e +:+ rest ∧ (lower e = ".msu" ∨ lower e = ".cab").
Proof.
  unfold ext_at. destruct (take_ci ".msu" s) as [[m' r']|] eqn:H1.
  - intros [= <- <-]. apply take_ci_spec in H1 as [-> ?]. by split; [|left].
  - intros H2. apply take_ci_spec in H2 as [-> ?]. by split; [|right].
Qed.

Lemma upto_last_ext_spec run body tail :
  upto_last_ext run = Some (body, tail) →
  run = body +:+ tail
  ∧ ∃ b e, body = b +:+ e ∧ (lower e = ".msu" ∨ lower e = ".cab").
Proof.
  revert body tail. induction run as [|a run IH]; intros body tail; [done|].
  cbn [upto_last_ext].
  destruct (upto_last_ext run) as [[body' tail']|] eqn:Hu.
  - intros [= <- <-]. destruct (IH _ _ eq_refl) as (-> & b & e & -> & He).
    split; [by rewrite append_cons|].
    exists (String a b), e. by rewrite append_cons.
  - intros He. apply ext_at_spec in He as [-> He].
    split; [done|]. exists EmptyString, body. by rewrite append_nil.
Qed.

Lemma query_of_spec tail :
  query_of (query_of tail) = query_of tail
  ∧ ∃ post, tail = query_of tail +:+ post.
Proof.
  destruct tail as [|a tail]; [split; [done|by exists EmptyString]|].
  unfold query_of. destruct (Ascii.eqb a "?") eqn:Ha.
  - rewrite Ha. split; [done|]. exists EmptyString. by rewrite append_nil_r.
  - split; [done|]. exists (String a tail). by rewrite append_nil.
Qed.

Lemma url_at_spec s u :
  url_at s = Some u →
  ∃ addr post, u = text_of addr ∧ well_formed addr ∧ s = u +:+ post.
Proof.
  unfold url_at.
  destruct (scheme_at s) as [[m rest]|] eqn:Hs; [|done].
  apply scheme_at_spec in Hs as [-> Hm].
  destruct (unquoted_spec rest) as [Hq [after Hrest]].
  destruct (unquoted rest) as [|a run] eqn:Hrun; [done|].
  destruct (upto_last_ext run) as [[body tail]|] eqn:Hu; [|done].
  apply upto_last_ext_spec in Hu as (-> & b & e & -> & He).
  intros [= <-].
  destruct (query_of_spec tail) as [Hqq [post Hpost]].
  exists {| scheme := m; body := String a b; extension := e;
            query := query_of tail |}, (post +:+ after).
  rewrite has_char_cons, !has_char_app in Hq.
  apply orb_false_iff in Hq as [Ha Hq].
  apply orb_false_iff in Hq as [Hq Htail].
  apply orb_false_iff in Hq as [Hb He'].
  assert (Hqt : has_char quote (query_of tail) = false).
  { rewrite Hpost, has_char_app in Htail.
    by apply orb_false_iff in Htail as [? _]. }
  subst rest. remember (query_of tail) as q eqn:Hq'. clear Hq' Hrun.
  subst tail.
  unfold text_of, well_formed. cbn [scheme body extension query].
  split_and!; try done.
  - by rewrite !append_cons, !append_assoc.
  - unfold text_of. cbn [scheme body extension query].
    rewrite !has_char_app, has_char_cons, Ha, Hb, He', Hqt.
    rewrite !orb_false_r.
    apply has_char_lower; [done|]. by destruct Hm as [-> | ->].
  - by rewrite !append_cons, !append_assoc, !append_cons, !append_assoc.
Qed.

Lemma findall_spec s :
  ∀ skip u, u ∈ findall skip s →
    ∃ addr pre post, u = text_of addr ∧ well_formed addr
                     ∧ s = pre +:+ u +:+ post.
Proof.
  induction s as [|c s IH]; intros skip u Hu.
  { by apply elem_of_nil in Hu. }
  assert (Hlater : ∀ k, u ∈ findall k s →
            ∃ addr pre post, u = text_of addr ∧ well_formed addr
                             ∧ String c s = pre +:+ u +:+ post).
  { intros k Hk. destruct (IH k u Hk) as (addr & pre & post & ? & ? & ->).
    exists addr, (String c pre), post. by rewrite append_cons. }
  cbn [findall] in Hu. destruct skip as [|k]; [|by apply (Hlater k)].
  destruct (url_at (String c s)) as [v|] eqn:Hv; [|by apply (Hlater 0%nat)].
  apply elem_of_cons in Hu as [->|Hu]; [|by apply (Hlater _ Hu)].
  apply url_at_spec in Hv as (addr & post & ? & ? & Hs).
  exists addr, EmptyString, post. by rewrite append_nil.
Qed.


Lemma scheme_at_app m rest :
  lower m = "http://" ∨ lower m = "https://" →
  scheme_at (m +:+ rest) = Some (m, rest).
Proof.
  unfold scheme_at. intros [Hm|Hm].
  - assert (Hs : take_ci "https://" (m +:+ rest) = None).
    { destruct m as [|a1 [|a2 [|a3 [|a4 [|a5 m]]]]]; try discriminate.
      rewrite !lower_cons in Hm. injection Hm as H1 H2 H3 H4 H5 _.
      rewrite !append_cons. cbn [take_ci].
      by rewrite H1, H2, H3, H4, H5. }
    rewrite Hs, <- Hm. apply take_ci_app.
  - by rewrite <- Hm, take_ci_app.
Qed.

Lemma ext_at_app e rest :
  lower e = ".msu" ∨ lower e = ".cab" →
  ext_at (e +:+ rest) = Some (e, rest).
Proof.
  unfold ext_at. intros [He|He].
  - by rewrite <- He, take_ci_app.
  - assert (Hs : take_ci ".msu" (e +:+ rest) = None).
    { destruct e as [|a1 [|a2 e]]; try discriminate.
      rewrite !lower_cons in He. injection He as H1 H2 _.
      rewrite !append_cons. cbn [take_ci].
      by rewrite H1, H2. }
    rewrite Hs, <- He. apply take_ci_app.
Qed.

Lemma lower_char_dot a : lower_char a = "."%char → a = "."%char.
Proof.
  destruct a as [[] [] [] [] [] [] [] []]; vm_compute; congruence.
Qed.

Lemma upto_last_ext_no_dot s :
  has_char "." s = false → upto_last_ext s = None.
Proof.
  induction s as [|a s IH]; [done|].
  rewrite has_char_cons. intros [Ha Hs]%orb_false_iff.
  cbn [upto_last_ext]. rewrite (IH Hs).
  unfold ext_at. cbn [take_ci].
  destruct (Ascii.eqb (lower_char a) ".") eqn:Hl; [|done].
  apply Ascii.eqb_eq, lower_char_dot in Hl. subst a. done.
Qed.

Lemma ext_cut e :
  lower e = ".msu" ∨ lower e = ".cab" →
  ∃ x, e = String "." x ∧ has_char "." x = false
       ∧ has_char "/" e = false
       ∧ (lower x = "msu" ∨ lower x = "cab").
Proof.
  intros He. destruct e as [|d x]; [by destruct He|].
  rewrite lower_cons in He.
  assert (Hd : lower_char d = "."%char) by (destruct He as [[=]|[=]]; done).
  apply lower_char_dot in Hd. subst d. exists x.
  assert (Hx : lower x = "msu" ∨ lower x = "cab").
  { destruct He as [[= ->]|[= ->]]; [by left|by right]. }
  split_and!; [done| | |done].
  - apply has_char_lower; [done|]. by destruct Hx as [-> | ->].
  - rewrite has_char_cons.
    replace (has_char "/" x) with false; [done|]. symmetry.
    apply has_char_lower; [done|]. by destruct Hx as [-> | ->].
Qed.

Lemma upto_last_ext_app b e q :
  lower e = ".msu" ∨ lower e = ".cab" → has_char "." q = false →
  upto_last_ext (b +:+ e +:+ q) = Some (b +:+ e, q).
Proof.
  intros He Hq. induction b as [|a b IH].
  - rewrite !append_nil.
    destruct (ext_cut e He) as (x & -> & Hx & _).
    rewrite append_cons. cbn [upto_last_ext].
    rewrite upto_last_ext_no_dot by (by rewrite has_char_app, Hx, Hq).
    rewrite <- append_cons. by apply ext_at_app.
  - rewrite !append_cons. cbn [upto_last_ext]. by rewrite IH.
Qed.

Lemma url_at_text addr post :
  well_formed addr → has_char "." (query addr) = false →
  url_at (text_of addr +:+ String quote post) = Some (text_of addr).
Proof.
  intros (Hm & Hb & He & Hq & Hnq) Hdot. unfold text_of in *.
  destruct addr as [m b e q]. cbn [scheme body extension query] in *.
  destruct b as [|a b]; [done|].
  unfold url_at. rewrite append_assoc, scheme_at_app by done.
  rewrite has_char_app in Hnq. apply orb_false_iff in Hnq as [_ Hnq].
  rewrite unquoted_app by done.
  rewrite append_cons. rewrite upto_last_ext_app by done.
  by rewrite <- Hq, append_cons, append_assoc.
Qed.


(** X23: the addresses found in the dialog. None is there twice; each
    is cut out of the page, has no double quote, and is made of http://
    or https://, one character at least, the extension .msu or .cab, and
    possibly a query after a question mark, letters in any case. An
    address of this form whose query has no dot, when the page starts
    with it and a double quote follows it, is the first address
    found. *)
Theorem extract_download_urls_spec html :
  NoDup (extract_download_urls html)
  ∧ (∀ u, u ∈ extract_download_urls html →
       ∃ addr pre post, u = text_of addr ∧ well_formed addr
                        ∧ html = pre +:+ u +:+ post)
  ∧ (∀ addr post, well_formed addr → has_char "." (query addr) = false →
       head (extract_download_urls (text_of addr +:+ String quote post))
       = Some (text_of addr)).
Proof.
  unfold extract_download_urls. split_and!.
  - apply keep_first_seen_basic.
  - intros u Hu. rewrite elem_of_keep_first_seen in Hu.
    by apply findall_spec in Hu.
  - intros addr post Hwf Hdot.
    destruct (keep_first_seen_basic
                (findall 0 (text_of addr +:+ String quote post)))
      as (_ & _ & ->).
    pose proof (url_at_text addr post Hwf Hdot) as Hu.
    destruct (text_of addr +:+ String quote post) as [|c s] eqn:Hs; [done|].
    cbn [findall]. by rewrite Hu.
Qed.



End DialogProofs.
(** ** The run of the downloader *)

Module DownloaderMainProofs.
Import Text Downloader Scanner Catalog Dialog DownloaderMain.
Import ConstraintProofs InstallerProofs SelectionProofs.

(** X25: what the downloader requests and writes. Its requests are,
    in this order, one search, one download dialog and one download, or
    the first of them only. It downloads an address only when the scan
    result was read, the operator selected an item of the missing list
    by its rank, the search for the identifier of this item gave a
    candidate that scores 90 at least and no less than any other
    candidate, and the address is the first one found in the dialog of
    this candidate. A file is written only by a download, under the
    name cut out of the address: whole when the download succeeds, and
    left with a part of the package when the download fails once the
    file is open. The run returns 0 exactly when it wrote a whole file
    or the missing list is empty. *)
Theorem main_downloads_best_match u in_downloads_dir scan typed web :
  let r := main u in_downloads_dir scan typed web in
  (∃ kb params url,
     requests r `prefix_of` [Search kb; DownloadDialog params; Download url])
  ∧ (∀ url, Download url ∈ requests r →
       ∃ scan_result line i item rows best html,
         scan = ScanLoaded scan_result
         ∧ safe_input typed = Some line
         ∧ select u (strip_typed u line)
                  (length (build_missing_list
                             (default [] (FileMissingKbs scan_result))
                             (default [] (FileKbEntries scan_result))))
           = Selected_index i
         ∧ build_missing_list (default [] (FileMissingKbs scan_result))
                              (default [] (FileKbEntries scan_result)) !! i
           = Some item
         ∧ search web (kb_id item) = Answered rows
         ∧ best ∈ parse_rows rows
         ∧ 90 ≤ score_candidate best (kb_id item)
                  (build_constraints
                     (default no_baseline (FileBaseline scan_result)))
         ∧ (∀ x, x ∈ parse_rows rows →
              score_candidate x (kb_id item)
                (build_constraints
                   (default no_baseline (FileBaseline scan_result)))
              ≤ score_candidate best (kb_id item)
                  (build_constraints
                     (default no_baseline (FileBaseline scan_result))))
         ∧ download_dialog web (build_dialog_params (update_id best))
           = Answered html
         ∧ head (extract_download_urls html) = Some url
         ∧ requests r
           = [Search (kb_id item);
              DownloadDialog (build_dialog_params (update_id best));
              Download url])
  ∧ (∀ name, written r = WholeFile name ↔
       ∃ url, Download url ∈ requests r ∧ download web url = Downloaded
              ∧ name = download_filename url)
  ∧ (∀ name, written r = PartialFile name ↔
       ∃ url exception,
         Download url ∈ requests r
         ∧ download web url = FailedWhileWriting exception
         ∧ name = download_filename url)
  ∧ (outcome r = Installer.Exit 0 ↔
       (∃ name, written r = WholeFile name)
       ∨ ∃ scan_result,
           scan = ScanLoaded scan_result
           ∧ build_missing_list (default [] (FileMissingKbs scan_result))
                                (default [] (FileKbEntries scan_result))
             = []).
Proof.
  cbv zeta. unfold main.
  assert (Hnone : ∀ out reqs e,
    (∀ url, Download url ∉ reqs) →
    (∃ kb params url,
       reqs `prefix_of` [Search kb; DownloadDialog params; Download url]) →
    (e = Installer.Exit 0 ↔
     ∃ scan_result,
       scan = ScanLoaded scan_result
       ∧ build_missing_list (default [] (FileMissingKbs scan_result))
                            (default [] (FileKbEntries scan_result)) = []) →
    let r := stop out reqs e in
  (∃ kb params url,
     requests r `prefix_of` [Search kb; DownloadDialog params; Download url])
  ∧ (∀ url, Download url ∈ requests r →
       ∃ scan_result line i item rows best html,
         scan = ScanLoaded scan_result
         ∧ safe_input typed = Some line
         ∧ select u (strip_typed u line)
                  (length (build_missing_list
                             (default [] (FileMissingKbs scan_result))
                             (default [] (FileKbEntries scan_result))))
           = Selected_index i
         ∧ build_missing_list (default [] (FileMissingKbs scan_result))
                              (default [] (FileKbEntries scan_result)) !! i
           = Some item
         ∧ search web (kb_id item) = Answered rows
         ∧ best ∈ parse_rows rows
         ∧ 90 ≤ score_candidate best (kb_id item)
                  (build_constraints
                     (default no_baseline (FileBaseline scan_result)))
         ∧ (∀ x, x ∈ parse_rows rows →
              score_candidate x (kb_id item)
                (build_constraints
                   (default no_baseline (FileBaseline scan_result)))
              ≤ score_candidate best (kb_id item)
                  (build_constraints
                     (default no_baseline (FileBaseline scan_result))))
         ∧ download_dialog web (build_dialog_params (update_id best))
           = Answered html
         ∧ head (extract_download_urls html) = Some url
         ∧ requests r
           = [Search (kb_id item);
              DownloadDialog (build_dialog_params (update_id best));
              Download url])
  ∧ (∀ name, written r = WholeFile name ↔
       ∃ url, Download url ∈ requests r ∧ download web url = Downloaded
              ∧ name = download_filename url)
  ∧ (∀ name, written r = PartialFile name ↔
       ∃ url exception,
         Download url ∈ requests r
         ∧ download web url = FailedWhileWriting exception
         ∧ name = download_filename url)
  ∧ (outcome r = Installer.Exit 0 ↔
       (∃ name, written r = WholeFile name)
       ∨ ∃ scan_result,
           scan = ScanLoaded scan_result
           ∧ build_missing_list (default [] (FileMissingKbs scan_result))
                                (default [] (FileKbEntries scan_result))
             = [])).
  { intros out reqs e Hno Hpre He. cbn. split_and!; [done| | | |].
    - intros url Hu. by apply Hno in Hu.
    - intros name. split; [done|]. intros (url & Hu & _). by apply Hno in Hu.
    - intros name. split; [done|].
      intros (url & ? & Hu & _). by apply Hno in Hu.
    - rewrite He. split; [by right|]. by intros [[? [=]]|?]. }
  destruct scan as [|exception|scan_result].
  1,2: apply Hnone; [set_solver|exists "", "", ""; apply prefix_nil|];
       split; [done|]; by intros (? & [=] & _).
  set (items := build_missing_list _ _) in *.
  set (constraints := build_constraints _) in *.
  destruct items as [|first rest] eqn:Hitems.
  { apply Hnone; [set_solver|exists "", "", ""; apply prefix_nil|].
    split; [|done]. intros _. exists scan_result. by fold items. }
  assert (Hnot0 : ∀ e : Installer.Ending, e ≠ Installer.Exit 0 →
            e = Installer.Exit 0 ↔
            ∃ sr, ScanLoaded scan_result = ScanLoaded sr
                  ∧ build_missing_list (default [] (FileMissingKbs sr))
                                       (default [] (FileKbEntries sr)) = []).
  { intros e He. split; [done|]. intros (sr & [= <-] & Hm).
    fold items in Hm. by rewrite Hitems in Hm. }
  destruct (safe_input typed) as [line|] eqn:Hline.
  2:{ apply Hnone; [set_solver|exists "", "", ""; apply prefix_nil|].
      by apply Hnot0. }
  destruct (select u (strip_typed u line) (length (first :: rest)))
    as [| | |i] eqn:Hsel.
  1-3: apply Hnone; [set_solver|exists "", "", ""; apply prefix_nil|];
       by apply Hnot0.
  pose proof (select_index_lt _ _ _ _ Hsel) as Hi.
  destruct (lookup_lt_is_Some_2 (first :: rest) i Hi) as [item Hitem].
  assert (Hnth : nth i (first :: rest) first = item).
  { by apply nth_lookup_Some with (d := first) in Hitem. }
  rewrite Hnth.
  destruct (search web (kb_id item)) as [rows|exception] eqn:Hsearch.
  2:{ apply Hnone; [set_solver| |by apply Hnot0].
      exists (kb_id item), "", "". by apply prefix_cons, prefix_nil. }
  pose proof (choose_best_candidate_cases (parse_rows rows) (kb_id item)
                constraints) as Hbest.
  destruct (choose_best_candidate (parse_rows rows) (kb_id item) constraints)
    as [[best|] reason].
  2:{ apply Hnone; [set_solver| |by apply Hnot0].
      exists (kb_id item), "", "". by apply prefix_cons, prefix_nil. }
  destruct Hbest as (_ & Hin & H90 & Hmax).
  destruct (download_dialog web (build_dialog_params (update_id best)))
    as [html|exception] eqn:Hdialog.
  2:{ apply Hnone; [set_solver| |by apply Hnot0].
      exists (kb_id item), (build_dialog_params (update_id best)), "".
      by apply prefix_cons, prefix_cons, prefix_nil. }
  destruct (extract_download_urls html) as [|url urls] eqn:Hurls.
  { apply Hnone; [set_solver| |by apply Hnot0].
    exists (kb_id item), (build_dialog_params (update_id best)), "".
    by apply prefix_cons, prefix_cons, prefix_nil. }
  assert (Hchain : ∀ url', Download url' ∈ [Search (kb_id item)] ++
                     [DownloadDialog (build_dialog_params (update_id best))]
                     ++ [Download url] → url' = url).
  { intros url'. rewrite !elem_of_app, !list_elem_of_singleton.
    intros [[=]|[[=]|[=]]]. done. }
  assert (Hthere : Download url ∈ [Search (kb_id item)] ++
                     [DownloadDialog (build_dialog_params (update_id best))]
                     ++ [Download url]) by set_solver.
  destruct (download web url) as [|exception|exception] eqn:Hdl;
    unfold stop; cbn [requests written outcome]; split_and!.
  all: try (by exists (kb_id item), (build_dialog_params (update_id best)), url).
  all: try (intros url' ->%Hchain;
            exists scan_result, line, i, item, rows, best, html;
            fold items constraints; rewrite Hitems, Hurls; done).
  - intros name. split.
    + intros [= <-]. by exists url.
    + intros (url' & ->%Hchain & _ & ->). done.
  - intros name. split; [done|].
    intros (url' & ? & ->%Hchain & Hd & _). by rewrite Hdl in Hd.
  - split; [|done]. intros _. left. by eexists.
  - intros name. split; [done|].
    intros (url' & ->%Hchain & Hd & _). by rewrite Hdl in Hd.
  - intros name. split; [done|].
    intros (url' & ? & ->%Hchain & Hd & _). by rewrite Hdl in Hd.
  - split; [done|]. intros [[? [=]]|(sr & [= <-] & Hm)].
    fold items in Hm. by rewrite Hitems in Hm.
  - intros name. split; [done|].
    intros (url' & ->%Hchain & Hd & _). by rewrite Hdl in Hd.
  - intros name. split.
    + intros [= <-]. by exists url, exception.
    + intros (url' & ? & ->%Hchain & _ & ->). done.
  - split; [done|]. intros [[? [=]]|(sr & [= <-] & Hm)].
    fold items in Hm. by rewrite Hitems in Hm.
Qed.

End DownloaderMainProofs.

(** ** From the scan result to the list of the downloader *)

Module HandoverProofs.
Import Text Window Scanner MergeRules SupersedenceRules ScanPipeline Catalog.
Import PyProofs MergeProofs SupersedenceProofs ScanProofs CatalogProofs.

Lemma truthy_upper s : truthy (upper s) = truthy s.
Proof. by destruct s. Qed.

Lemma entry_id_truthy entry x : entry_id entry = Some x → truthy x = true.
Proof.
  unfold entry_id. destruct (entry_KB entry) as [k|]; [|done].
  destruct (truthy k) eqn:Hk; [|done]. by intros [= <-].
Qed.

(** X26: the scanner hands its result over to the downloader. When the
    identifiers that the adapter gives have no blank around them, the
    list that the downloader shows has one item for each identifier that
    the scan reports as missing, in the same order and in upper case,
    and the type of every item is the one of a saved record, Superseding
    or Standalone: Unknown is never shown. *)
Theorem missing_items_of_scan installed_kbs month_ids months_with_entries
    incoming :
  (∀ entry x, entry ∈ incoming → entry_id entry = Some x → strip x = x) →
  match analyse installed_kbs month_ids (merge_kb_entries ∅ incoming)
                months_with_entries with
  | None => True
  | Some (_, _, result) =>
      let items := build_missing_list (MissingKbs result) (KbEntries result) in
      map kb_id items = map upper (MissingKbs result)
      ∧ ∀ item, item ∈ items →
          update_type item = "Superseding" ∨ update_type item = "Standalone"
  end.
Proof.
  intros Hstrip. unfold analyse.
  set (merged := merge_kb_entries ∅ incoming).
  destruct (bool_decide (merged = ∅)); [done|].
  destruct (compute_supersedence_spec (closed_entries merged) installed_kbs
              (walk_budget (closed_entries merged)) (le_n _))
    as (lp & sb & Hc & _ & _).
  rewrite Hc. cbn [MissingKbs KbEntries]. cbv zeta.
  set (kb_entries := closed_entries merged).
  assert (F1 : ∀ x, x ∈ missing kb_entries lp →
                 strip x = x ∧ truthy x = true
                 ∧ ∃ e, e ∈ sorted_by_KB kb_entries ∧ KB e = x).
  { intros x [Hx _]%elem_of_missing.
    pose proof Hx as Hx'.
    apply expected_closed_entries in Hx' as (entry & He & Hid).
    split_and!; [by apply (Hstrip entry)|by apply (entry_id_truthy entry)|].
    unfold expected in Hx.
    apply elem_of_list_to_set, list_elem_of_fmap in Hx as (e & -> & He').
    exists e. split; [|done]. unfold sorted_by_KB. by rewrite sorted_perm. }
  assert (F2 : ∀ e, e ∈ sorted_by_KB kb_entries →
                 UpdateType e = Some "Superseding"
                 ∨ UpdateType e = Some "Standalone").
  { intros e. unfold sorted_by_KB. rewrite sorted_perm.
    intros (k & e0 & _ & ->)%elem_of_closed_entries. simpl.
    destruct (sorted_set (Supersedes e0)); [by right|by left]. }
  unfold build_missing_list. rewrite build_missing_list_fold, app_nil_l.
  generalize dependent (missing kb_entries lp). intros M F1.
  split.
  - induction M as [|x M IH]; [done|].
    destruct (F1 x) as (Hs & Ht & _); [left|].
    cbn [omap list_omap map]. rewrite Hs, truthy_upper, Ht.
    cbn [map kb_id]. f_equal. apply IH. intros y Hy. apply F1. by right.
  - intros item (x & Hx & Hitem)%list_elem_of_omap.
    destruct (F1 x Hx) as (Hs & Ht & e & He & HKB).
    rewrite Hs, truthy_upper, Ht in Hitem. injection Hitem as <-.
    cbn [update_type].
    destruct (upper_index_is_Some (sorted_by_KB kb_entries) (upper x))
      as [e' He'].
    { exists e. by rewrite HKB. }
    rewrite He'. apply upper_index_lookup_Some in He' as (Hin & _ & _).
    by destruct (F2 e' Hin) as [-> | ->]; [left|right].
Qed.

Lemma missing_items_of_scan_witness :
  match analyse ∅ ["2024-Jan"; "2024-Feb"]
                (merge_kb_entries ∅ [partial_X_jan; partial_X_feb])
                ["2024-Jan"; "2024-Feb"] with
  | None => True
  | Some (_, _, result) =>
      let items := build_missing_list (MissingKbs result) (KbEntries result) in
      map kb_id items = map upper (MissingKbs result)
      ∧ ∀ item, item ∈ items →
          update_type item = "Superseding" ∨ update_type item = "Standalone"
  end.
Proof.
  apply (missing_items_of_scan ∅ ["2024-Jan"; "2024-Feb"]
           ["2024-Jan"; "2024-Feb"] [partial_X_jan; partial_X_feb]).
  intros entry x Hin Hid.
  apply elem_of_cons in Hin as [->|Hin].
  { injection Hid as <-. reflexivity. }
  apply elem_of_cons in Hin as [->|Hin].
  { injection Hid as <-. reflexivity. }
  by apply elem_of_nil in Hin.
Defined.

End HandoverProofs.
